(** * KeywordProcessor: the keyword / search-term splitter

    A shallow embedding of the [KeywordProcessor] class of the notebook
    "Input Processing/Simple Input Processing.ipynb" ("Processing Keywords
    or Tags"), together with the part of Python's [re] library the class
    relies on: the pattern parser, the backtracking matcher and [findall].

    The class is embedded from its source. The [re] library is not part of
    the notebook: its pattern syntax (CPython's [sre_parse]) and its greedy,
    leftmost, backtracking matching are modelled in the module [Re], for the
    fragment of the syntax that the pattern of the class uses.

    The other functions of the notebooks follow: [boolean] of the same
    notebook, the cells of "Interview Questions" that tell whether the
    store is open, and [uninorm] and [urlsafe] of "Text Processing".

    Python strings are modelled as lists of code points; a code point is an
    [ascii], so the development covers the code points 0..255. *)

From Stdlib Require Import Ascii String List Bool Arith Lia ZArith.
From Stdlib Require Import DecimalString DecimalNat DecimalN DecimalZ DecimalPos.
From stdpp Require Import gmap strings list.
Import ListNotations.

Local Open Scope list_scope.

(** ** Python values *)

Abbreviation str := (list ascii).

(** A Python string literal. *)
Definition py (s : string) : str := list_ascii_of_string s.

(** The double quote character (code point 34) and the apostrophe. *)
Definition dquote : ascii := "034"%char.
Definition squote : ascii := "'"%char.
Definition tab : ascii := "009"%char.

(** The exceptions the modelled code can raise. *)
Inductive re_error :=
| MissingParen        (* missing ), unterminated subpattern *)
| UnbalancedParen     (* unbalanced parenthesis *)
| BadRange            (* bad character range *)
| NothingToRepeat     (* nothing to repeat *)
| MultipleRepeat      (* multiple repeat *)
| BadEscape           (* bad escape (end of pattern) *)
| UnterminatedSet.    (* unterminated character set *)

Inductive exn :=
| TypeError (msg : string)
| ReError (e : re_error)
| IndexError.

(** The outcome of a computation: a value, a raised exception, or
    [Unsupported] when the pattern leaves the fragment of the regular
    expression syntax that this development models. *)
Inductive outcome (A : Type) :=
| Ok (a : A)
| Raise (e : exn)
| Unsupported.
Arguments Ok {A} a.
Arguments Raise {A} e.
Arguments Unsupported {A}.

Definition bind {A B} (r : outcome A) (f : A -> outcome B) : outcome B :=
  match r with
  | Ok a => f a
  | Raise e => Raise e
  | Unsupported => Unsupported
  end.

Notation "'do' x <- r ; k" := (bind r (fun x => k))
  (at level 10, x name, r at level 100, k at level 200).

Definition nonempty {A} (l : list A) : bool :=
  match l with [] => false | _ :: _ => true end.

(** ** The [re] library: character sets *)

Module Re.

(** [str.isspace] on a single code point, which is what [\s] matches in a
    [str] pattern: 9..13, 28..32, 133 and 160 below 256. *)
Definition isspace (c : ascii) : bool :=
  let n := nat_of_ascii c in
  ((9 <=? n) && (n <=? 13)) || ((28 <=? n) && (n <=? 32))
  || (n =? 133) || (n =? 160).

Inductive set_item :=
| Lit (c : ascii)
| Range (lo hi : ascii)
| Space.

Record charset := { negate : bool; items : list set_item }.

Definition item_mem (c : ascii) (i : set_item) : bool :=
  match i with
  | Lit d => Ascii.eqb c d
  | Range lo hi => (nat_of_ascii lo <=? nat_of_ascii c) && (nat_of_ascii c <=? nat_of_ascii hi)
  | Space => isspace c
  end.

Definition cs_mem (cs : charset) (c : ascii) : bool :=
  xorb (negate cs) (existsb (item_mem c) (items cs)).

(** ** Patterns *)

Inductive quant := One | Opt | Star | Plus.

(** The fragment of the pattern language: single characters drawn from a
    set, greedily repeated or not, sequences, ordered alternatives and
    capturing groups. [Fail] is the empty alternation. *)
Inductive regex :=
| Eps
| Fail
| Atom (cs : charset) (q : quant)
| Seq (a b : regex)
| Alt (a b : regex)
| Group (r : regex).

Definition mk_seq (l : list regex) : regex := fold_right Seq Eps l.
Definition mk_alt (l : list regex) : regex := fold_right Alt Fail l.

Definition lit (c : ascii) : regex := Atom {| negate := false; items := [Lit c] |} One.

(** ** The pattern parser ([sre_parse]) as a machine over the characters *)

(** One nesting level: the finished branches and the items of the branch
    under construction, both most recent first. *)
Record frame := { branches : list regex; cur : list regex }.

Definition empty_frame : frame := {| branches := []; cur := [] |}.

Definition frame_regex (f : frame) : regex :=
  mk_alt (rev (mk_seq (rev (cur f)) :: branches f)).

(** Inside [[...]]: [start] until the optional [^] has been looked for,
    [pend] the member read last (it may still open a range), [dash] once a
    [-] followed it, [esc] after a backslash. *)
Record set_state := {
  start : bool; neg : bool; acc : list set_item;
  pend : option set_item; dash : bool; esc : bool }.

Definition fresh_set : set_state :=
  {| start := true; neg := false; acc := []; pend := None; dash := false; esc := false |}.

Record pstate := {
  stack : list frame;           (* the enclosing levels, innermost first *)
  top : frame;
  mode : option set_state;      (* [Some] inside a character set *)
  ngroups : nat }.

Definition initial : pstate :=
  {| stack := []; top := empty_frame; mode := None; ngroups := 0 |}.

Definition push_item (r : regex) (st : pstate) : pstate :=
  {| stack := stack st;
     top := {| branches := branches (top st); cur := r :: cur (top st) |};
     mode := None; ngroups := ngroups st |}.

Definition in_set (s : set_state) (st : pstate) : pstate :=
  {| stack := stack st; top := top st; mode := Some s; ngroups := ngroups st |}.

Definition close_set (s : set_state) (l : list set_item) (st : pstate) : pstate :=
  push_item (Atom {| negate := neg s; items := l |} One) st.

Definition flushed (s : set_state) : list set_item :=
  match pend s with Some i => acc s ++ [i] | None => acc s end.

Definition has_pend (s : set_state) : bool :=
  match pend s with Some _ => true | None => false end.

(** A new member [i] arrives while no range is open. *)
Definition set_member (s : set_state) (i : set_item) : set_state :=
  {| start := false; neg := neg s; acc := flushed s;
     pend := Some i; dash := false; esc := false |}.

(** The upper end [i] of a range arrives. *)
Definition set_range (s : set_state) (i : set_item) : outcome set_state :=
  match pend s, i with
  | Some (Lit lo), Lit hi =>
      if nat_of_ascii lo <=? nat_of_ascii hi
      then Ok {| start := false; neg := neg s; acc := acc s ++ [Range lo hi];
                 pend := None; dash := false; esc := false |}
      else Raise (ReError BadRange)
  | _, _ => Raise (ReError BadRange)
  end.

Definition class_escape (c : ascii) : outcome set_item :=
  if Ascii.eqb c "s" then Ok Space else Unsupported.

Definition step_set (s : set_state) (c : ascii) (st : pstate) : outcome pstate :=
  if start s && Ascii.eqb c "^" then
    Ok (in_set {| start := false; neg := true; acc := acc s;
                  pend := pend s; dash := dash s; esc := esc s |} st)
  else if esc s then
    do i <- class_escape c ;
    if dash s then do s' <- set_range s i ; Ok (in_set s' st)
    else Ok (in_set (set_member s i) st)
  else if dash s then
    if Ascii.eqb c "]" then Ok (close_set s (flushed s ++ [Lit "-"%char]) st)
    else if Ascii.eqb c "\" then
      Ok (in_set {| start := false; neg := neg s; acc := acc s;
                    pend := pend s; dash := true; esc := true |} st)
    else do s' <- set_range s (Lit c) ; Ok (in_set s' st)
  else if has_pend s && Ascii.eqb c "-" then
    Ok (in_set {| start := false; neg := neg s; acc := acc s;
                  pend := pend s; dash := true; esc := false |} st)
  else if Ascii.eqb c "]" && nonempty (flushed s) then
    Ok (close_set s (flushed s) st)
  else if Ascii.eqb c "\" then
    Ok (in_set {| start := false; neg := neg s; acc := flushed s;
                  pend := None; dash := false; esc := true |} st)
  else Ok (in_set (set_member s (Lit c)) st).

Definition set_cur (l : list regex) (st : pstate) : pstate :=
  {| stack := stack st;
     top := {| branches := branches (top st); cur := l |};
     mode := None; ngroups := ngroups st |}.

Definition open_group (st : pstate) : pstate :=
  {| stack := top st :: stack st; top := empty_frame;
     mode := None; ngroups := S (ngroups st) |}.

Definition close_group (f : frame) (fs : list frame) (st : pstate) : pstate :=
  {| stack := fs;
     top := {| branches := branches f;
               cur := Group (frame_regex (top st)) :: cur f |};
     mode := None; ngroups := ngroups st |}.

Definition end_branch (st : pstate) : pstate :=
  {| stack := stack st;
     top := {| branches := mk_seq (rev (cur (top st))) :: branches (top st);
               cur := [] |};
     mode := None; ngroups := ngroups st |}.

(** A repetition operator [q] written as the character [c]. *)
Definition quantify (q : quant) (c : ascii) (st : pstate) : outcome pstate :=
  match cur (top st) with
  | [] =>
      (* [(?] opens an extension; anything else has nothing to repeat *)
      if Ascii.eqb c "?" && nonempty (stack st) && negb (nonempty (branches (top st)))
      then Unsupported
      else Raise (ReError NothingToRepeat)
  | Atom cs One :: l => Ok (set_cur (Atom cs q :: l) st)
  | Atom _ _ :: _ =>
      (* a second operator: lazy [?], possessive [+], or an error *)
      if Ascii.eqb c "*" then Raise (ReError MultipleRepeat) else Unsupported
  | _ :: _ => Unsupported   (* a repeated group *)
  end.

Definition special (c : ascii) : bool :=
  existsb (Ascii.eqb c) (py ".^${\").

Definition step_normal (c : ascii) (st : pstate) : outcome pstate :=
  if Ascii.eqb c "[" then Ok (in_set fresh_set st)
  else if Ascii.eqb c "(" then Ok (open_group st)
  else if Ascii.eqb c ")" then
    match stack st with
    | [] => Raise (ReError UnbalancedParen)
    | f :: fs => Ok (close_group f fs st)
    end
  else if Ascii.eqb c "|" then Ok (end_branch st)
  else if Ascii.eqb c "*" then quantify Star c st
  else if Ascii.eqb c "+" then quantify Plus c st
  else if Ascii.eqb c "?" then quantify Opt c st
  else if special c then Unsupported
  else Ok (push_item (lit c) st).

Definition step (st : pstate) (c : ascii) : outcome pstate :=
  match mode st with
  | Some s => step_set s c st
  | None => step_normal c st
  end.

Fixpoint run (p : str) (st : pstate) : outcome pstate :=
  match p with
  | [] => Ok st
  | c :: p' => do st' <- step st c ; run p' st'
  end.

Definition finish (st : pstate) : outcome regex :=
  match mode st with
  | Some s => Raise (ReError (if esc s then BadEscape else UnterminatedSet))
  | None =>
      match stack st with
      | [] => Ok (frame_regex (top st))
      | _ :: _ => Raise (ReError MissingParen)
      end
  end.

Definition parse (p : str) : outcome (regex * nat) :=
  do st <- run p initial ;
  do r <- finish st ;
  Ok (r, ngroups st).

(** [re.compile]. [findall] returns the text of the group only when the
    pattern has exactly one group, which is the case this development
    models. *)
Definition compile (p : str) : outcome regex :=
  do rn <- parse p ;
  if snd rn =? 1 then Ok (fst rn) else Unsupported.

(** ** The backtracking matcher *)

Section Matcher.
Context {R : Type}.

(** Greedy repetition of a set: the longest run first, then shorter ones. *)
Fixpoint star (cs : charset) (s : str) (k : str -> option R) : option R :=
  match s with
  | c :: s' =>
      if cs_mem cs c then
        match star cs s' k with
        | Some x => Some x
        | None => k s
        end
      else k s
  | [] => k s
  end.

Definition one (cs : charset) (s : str) (k : str -> option R) : option R :=
  match s with
  | c :: s' => if cs_mem cs c then k s' else None
  | [] => None
  end.

Definition atom (cs : charset) (q : quant) (s : str) (k : str -> option R) : option R :=
  match q with
  | One => one cs s k
  | Opt => match one cs s k with Some x => Some x | None => k s end
  | Star => star cs s k
  | Plus => one cs s (fun s' => star cs s' k)
  end.

(** [rmatch r s g k]: match [r] at the head of [s], [g] being the text
    captured by the group so far; [k] receives what is left of the input
    and may refuse it, which makes the matcher try its next choice. *)
Fixpoint rmatch (r : regex) (s : str) (g : str) (k : str -> str -> option R) : option R :=
  match r with
  | Eps => k s g
  | Fail => None
  | Atom cs q => atom cs q s (fun s' => k s' g)
  | Seq a b => rmatch a s g (fun s' g' => rmatch b s' g' k)
  | Alt a b =>
      match rmatch a s g k with
      | Some x => Some x
      | None => rmatch b s g k
      end
  | Group a => rmatch a s g (fun s' _ => k s' (take (length s - length s') s))
  end.
End Matcher.

(** One attempt at the head of [s]: the group's text and the number of
    characters matched. With [must_advance] an empty match is refused. *)
Definition match_here (r : regex) (must_advance : bool) (s : str) : option (str * nat) :=
  rmatch r s [] (fun s' g =>
    let n := length s - length s' in
    if must_advance && (n =? 0) then None else Some (g, n)).

(** [findall]: the scan over the positions of the input. [skip] counts the
    characters still covered by the previous match. After an empty match
    the search resumes at the same position and refuses empty matches
    there. *)
Fixpoint scan (r : regex) (s : str) (skip : nat) : list str :=
  match skip with
  | S n =>
      match s with
      | [] => []
      | _ :: s' => scan r s' n
      end
  | 0 =>
      match match_here r false s with
      | Some (g, S n) =>
          g :: match s with [] => [] | _ :: s' => scan r s' n end
      | Some (g, 0) =>
          g :: match match_here r true s with
               | Some (g', S n) =>
                   g' :: match s with [] => [] | _ :: s' => scan r s' n end
               | _ => match s with [] => [] | _ :: s' => scan r s' 0 end
               end
      | None => match s with [] => [] | _ :: s' => scan r s' 0 end
      end
  end.

Definition findall (r : regex) (s : str) : list str := scan r s 0.

End Re.

(** ** Values returned by [split] *)

Inductive container := CList | CTuple | CSet.

(** What [list(l)], [tuple(l)] and [set(l)] build. *)
Inductive pyseq (A : Type) `{Countable A} :=
| PList (l : list A)
| PTuple (l : list A)
| PSet (s : gset A).
Arguments PList {A _ _} l.
Arguments PTuple {A _ _} l.
Arguments PSet {A _ _} s.

Definition build {A} `{Countable A} (c : container) (l : list A) : pyseq A :=
  match c with
  | CList => PList l
  | CTuple => PTuple l
  | CSet => PSet (list_to_set l)
  end.

(** The values [group] can take: [False], [None], [True] or one of the
    types [dict], [list], [tuple], [set]. *)
Inductive group_sel := GFalse | GNone | GTrue | GDict | GList | GTuple | GSet.

Inductive output :=
| Terms (v : pyseq str)
| Pairs (v : pyseq (option ascii * str))
| Mapping (m : gmap (option ascii) (list str))
| Sequences (c : container) (l : list (list str)).

(** The argument of [split]: any Python object. *)
Inductive pyvalue :=
| VStr (s : str)
| VBytes (b : list ascii)
| VInt (n : Z)
| VBool (b : bool)
| VNone.

(** ** [list.sort] on strings: code point order *)

Fixpoint str_leb (a b : str) : bool :=
  match a, b with
  | [], _ => true
  | _ :: _, [] => false
  | x :: a', y :: b' =>
      if nat_of_ascii x <? nat_of_ascii y then true
      else if nat_of_ascii y <? nat_of_ascii x then false
      else str_leb a' b'
  end.

Fixpoint insert_sorted (x : str) (l : list str) : list str :=
  match l with
  | [] => [x]
  | y :: l' => if str_leb x y then x :: l else y :: insert_sorted x l'
  end.

Definition sorted (l : list str) : list str := fold_right insert_sorted [] l.

(** ** The class *)

(** The arguments of [__init__]. [quotes] and [groups] may be [None]. *)
Record args := {
  separators : str;
  quotes : option (list ascii);
  groups : option (list (option ascii));
  group : group_sel;
  normalize : option (str -> str);
  sort : bool;
  result : container }.

Definition defaults : args :=
  {| separators := [" "%char; tab];
     quotes := Some [dquote; squote];
     groups := Some [];
     group := GFalse;
     normalize := None;
     sort := false;
     result := CList |}.

Record KeywordProcessor := {
  self_pattern : str;
  self_regex : Re.regex;
  self_groups : list (option ascii);
  self_group : group_sel;
  self_normalize : option (str -> str);
  self_sort : bool;
  self_result : container }.

(** The pieces of [self.pattern], character for character: the marker set
    [[%s]%s], the quoted alternatives and, in [pattern], their
    concatenation with the three separator sets. *)
Definition group_part (a : args) : str :=
  match groups a with
  | Some ((_ :: _) as g) =>
      py "[" ++ omap id g ++ py "]" ++ (if bool_decide (None ∈ g) then py "?" else [])
  | _ => []
  end.

(** [r'%s[^%s]+%s|' % (i, i, i)] *)
Definition quote_pattern (i : ascii) : str :=
  [i] ++ py "[^" ++ [i] ++ py "]+" ++ [i] ++ py "|".

Definition quote_part (a : args) : str :=
  match quotes a with
  | Some ((_ :: _) as q) => concat (map quote_pattern q)
  | _ => []
  end.

Definition pattern (a : args) : str :=
  (py "[\s" ++ separators a ++ py "]*") ++
  py "(" ++
  group_part a ++
  quote_part a ++
  (py "[^" ++ separators a ++ py "]+") ++
  py ")" ++
  (py "[" ++ separators a ++ py "]*").

(** [__init__]: the pattern is compiled before [list(groups)] is
    evaluated, and [True] stands for [dict]. *)
Definition init (a : args) : outcome KeywordProcessor :=
  do r <- Re.compile (pattern a) ;
  do g <- match groups a with
          | Some g => Ok g
          | None => Raise (TypeError "'NoneType' object is not iterable")
          end ;
  Ok {| self_pattern := pattern a;
        self_regex := r;
        self_groups := g;
        self_group := match group a with GTrue => GDict | x => x end;
        self_normalize := normalize a;
        self_sort := sort a;
        self_result := result a |}.

Abbreviation buckets := (gmap (option ascii) (list str)).

(** [dict([(i, list()) for i in self.groups])], then the [None] key. *)
Definition empty_buckets (gs : list (option ascii)) : buckets :=
  let d := foldl (fun d i => <[i := []]> d) (∅ : buckets) gs in
  match d !! None with
  | Some _ => d
  | None => <[None := []]> d
  end.

(** The body of the loop over [matches]. *)
Definition place (gs : list (option ascii)) (d : buckets) (i : str) : outcome buckets :=
  match i with
  | [] => Raise IndexError
  | c :: t =>
      if bool_decide (Some c ∈ gs)
      then Ok (<[Some c := (d !!! Some c) ++ [t]]> d)
      else Ok (<[None := (d !!! None) ++ [i]]> d)
  end.

Fixpoint fill (gs : list (option ascii)) (d : buckets) (matches : list str) : outcome buckets :=
  match matches with
  | [] => Ok d
  | i :: rest => do d' <- place gs d i ; fill gs d' rest
  end.

(** The normalization and the sort of [matches]. *)
Definition prepare (self : KeywordProcessor) (matches : list str) : list str :=
  let matches := match self_normalize self with
                 | Some f => map f matches
                 | None => matches
                 end in
  if self_sort self then sorted matches else matches.

(** [matches] as it stands when the grouping starts. *)
Definition terms (self : KeywordProcessor) (value : str) : list str :=
  prepare self (Re.findall (self_regex self) value).

(** What [split] does with [matches] once they are normalized and sorted. *)
Definition arrange (self : KeywordProcessor) (matches : list str) : outcome output :=
  match self_groups self with
  | [] => Ok (Terms (build (self_result self) matches))
  | _ :: _ =>
      do groups <- fill (self_groups self) (empty_buckets (self_groups self)) matches ;
      match self_group self with
      | GDict => Ok (Mapping groups)
      | GFalse | GNone =>
          Ok (Pairs (build (self_result self)
                (flat_map (fun g => map (fun m => (g, m)) (groups !!! g))
                          (self_groups self))))
      | GList => Ok (Sequences CList (map (fun g => groups !!! g) (self_groups self)))
      | GTuple => Ok (Sequences CTuple (map (fun g => groups !!! g) (self_groups self)))
      | GSet => Raise (TypeError "unhashable type: 'list'")
      | GTrue => Raise (TypeError "'bool' object is not callable")
      end
  end.

(** [split]: the type test comes first. *)
Definition split (self : KeywordProcessor) (value : pyvalue) : outcome output :=
  match value with
  | VStr s => arrange self (terms self s)
  | _ => Raise (TypeError "Invalid type for argument 'value'.")
  end.

(** [sep.join(l)] *)
Fixpoint join (sep : str) (l : list str) : str :=
  match l with
  | [] => []
  | [t] => t
  | t :: l' => t ++ sep ++ join sep l'
  end.

(** ** The notebook's sample instance *)

(** [search_parser = KeywordProcessor(groups=[None, '+', '-'], group=tuple)] *)
Definition search_parser_args : args :=
  {| separators := [" "%char; tab];
     quotes := Some [dquote; squote];
     groups := Some [None; Some "+"%char; Some "-"%char];
     group := GTuple;
     normalize := None;
     sort := false;
     result := CList |}.

(** ** The pattern that [__init__] compiles *)

(** Characters that stand for themselves inside a character set, and
    outside of one. *)
Definition set_plain (c : ascii) : bool :=
  negb (existsb (Ascii.eqb c) (py "\]^-")).

Definition quote_plain (c : ascii) : bool :=
  negb (existsb (Ascii.eqb c) (py ".^$*+?{}[]\|()")).

(** The marker characters may end with [-], as in [+-]. *)
Fixpoint set_body (l : str) : bool :=
  match l with
  | [] => true
  | [c] => set_plain c || Ascii.eqb c "-"
  | c :: l' => set_plain c && set_body l'
  end.

(** The arguments whose characters the pattern takes literally. *)
Definition plain (a : args) : bool :=
  forallb set_plain (separators a)
  && forallb quote_plain (default [] (quotes a))
  && match groups a with
     | Some ((_ :: _) as g) => nonempty (omap id g) && set_body (omap id g)
     | _ => true
     end.

Definition is_sep (a : args) (c : ascii) : bool :=
  existsb (Ascii.eqb c) (separators a).

Definition is_quote (a : args) (c : ascii) : bool :=
  existsb (Ascii.eqb c) (default [] (quotes a)).

Definition is_marker (a : args) (c : ascii) : bool :=
  existsb (Ascii.eqb c) (omap id (default [] (groups a))).

Definition lits (l : str) : list Re.set_item := map Re.Lit l.

Definition set_of (l : str) : Re.charset := {| Re.negate := false; Re.items := lits l |}.
Definition set_not (l : str) : Re.charset := {| Re.negate := true; Re.items := lits l |}.
Definition lead_set (a : args) : Re.charset :=
  {| Re.negate := false; Re.items := Re.Space :: lits (separators a) |}.

Definition lead (a : args) : Re.regex := Re.Atom (lead_set a) Re.Star.
Definition bare (a : args) : Re.regex := Re.Atom (set_not (separators a)) Re.Plus.
Definition trail (a : args) : Re.regex := Re.Atom (set_of (separators a)) Re.Star.

Definition quoted (i : ascii) : list Re.regex :=
  [Re.lit i; Re.Atom (set_not [i]) Re.Plus; Re.lit i].

Definition marker_items (a : args) : list Re.regex :=
  match groups a with
  | Some ((_ :: _) as g) =>
      [Re.Atom (set_of (omap id g)) (if bool_decide (None ∈ g) then Re.Opt else Re.One)]
  | _ => []
  end.

(** The marker set is written once, in front of the first alternative. *)
Definition with_prefix (p : list Re.regex) (l : list (list Re.regex)) : list (list Re.regex) :=
  match l with
  | b :: l' => (p ++ b) :: l'
  | [] => []
  end.

Definition alternatives (a : args) : list (list Re.regex) :=
  with_prefix (marker_items a) (map quoted (default [] (quotes a)) ++ [[bare a]]).

Definition choice (a : args) : Re.regex :=
  Re.mk_alt (map Re.mk_seq (alternatives a)).

Definition token (a : args) : Re.regex := Re.Group (choice a).

(** What [re.compile] makes of [pattern a] when the characters are taken
    literally (lemma [compile_pattern]). *)
Definition regex_of (a : args) : Re.regex :=
  Re.mk_alt [Re.mk_seq [lead a; token a; trail a]].

(** * Definitions used in the statements and proofs *)

(** ** The states of the parser along the pattern *)

Definition quote_state (i : ascii) (st : Re.pstate) : Re.pstate :=
  Re.end_branch
    (Re.push_item (Re.lit i)
       (Re.push_item (Re.Atom (set_not [i]) Re.Plus)
          (Re.push_item (Re.lit i) st))).

Definition quotes_state (q : str) (st : Re.pstate) : Re.pstate :=
  fold_left (fun st i => quote_state i st) q st.

(** What the machine has built after the quote alternatives. *)
Fixpoint after_quotes (b c : list Re.regex) (q : str) : list Re.regex * list Re.regex :=
  match q with
  | [] => (b, c)
  | i :: q' => after_quotes (Re.mk_seq (rev c ++ quoted i) :: b) [] q'
  end.

Definition group_state (a : args) (st : Re.pstate) : Re.pstate :=
  fold_left (fun st r => Re.push_item r st) (marker_items a) st.

(** ** Runs of characters *)

(** The longest prefix of characters satisfying [p], and what follows it. *)
Fixpoint take_run (p : ascii -> bool) (s : str) : str :=
  match s with
  | c :: s' => if p c then c :: take_run p s' else []
  | [] => []
  end.

Fixpoint drop_run (p : ascii -> bool) (s : str) : str :=
  match s with
  | c :: s' => if p c then drop_run p s' else s
  | [] => []
  end.

(** [s] is empty or starts with a character that does not satisfy [p]. *)
Definition stops (p : ascii -> bool) (s : str) : Prop :=
  match s with
  | c :: _ => p c = false
  | [] => True
  end.

(** The marker is optional, or there is none. *)
Definition optional_marker (a : args) : bool :=
  match groups a with
  | Some ((_ :: _) as g) => bool_decide (None ∈ g)
  | _ => true
  end.

Definition is_lead (a : args) (c : ascii) : bool := Re.isspace c || is_sep a c.

(** ** The reference procedure, sorting and the buckets *)

(** Written after the specification's reference procedure: break the input
    on runs of separator characters and discard the empty pieces. [in_run]
    tells that the previous character was a separator. *)
Fixpoint break_on_runs (sep : ascii -> bool) (s : str) (in_run : bool) : list str :=
  match s with
  | [] => [[]]
  | c :: s' =>
      if sep c then
        if in_run then break_on_runs sep s' true
        else [] :: break_on_runs sep s' true
      else
        match break_on_runs sep s' false with
        | p :: ps => (c :: p) :: ps
        | [] => [[c]]
        end
  end.

Definition words (sep : ascii -> bool) (s : str) : list str :=
  filter (fun p => nonempty p = true) (break_on_runs sep s false).

Definition reference_split (a : args) (s : str) : list str :=
  let pieces := words (is_sep a) s in
  let pieces := match normalize a with
                | Some f => map f pieces
                | None => pieces
                end in
  if sort a then sorted pieces else pieces.

(** The inputs of the reference procedure: no quote, no marker, and no white
    space other than separators. *)
Definition clean (a : args) (s : str) : bool :=
  forallb (fun c => negb (is_quote a c) && negb (is_marker a c)
                    && (negb (Re.isspace c) || is_sep a c)) s.

Definition bare_reachable (a : args) : bool :=
  nonempty (default [] (quotes a)) || optional_marker a.

(** Each element is below its successor. *)
Fixpoint ordered (l : list str) : Prop :=
  match l with
  | x :: ((y :: _) as l') => str_leb x y = true /\ ordered l'
  | _ => True
  end.

(** The term starts with a configured marker. *)
Definition marked (gs : list (option ascii)) (i : str) : bool :=
  match i with
  | c :: _ => bool_decide (Some c ∈ gs)
  | [] => false
  end.

(** What the loop leaves under the key [g]. *)
Definition bucket_of (gs : list (option ascii)) (ts : list str) (g : option ascii) : list str :=
  match g with
  | Some m =>
      if bool_decide (Some m ∈ gs)
      then map (drop 1) (filter (fun i => head i = Some m) ts)
      else []
  | None => filter (fun i => marked gs i = false) ts
  end.


(** ** Progress of the matcher *)

(** An alternative of the group uses up at least one character. *)
Definition strict {R} (b : list Re.regex) : Prop :=
  forall s g (k : str -> str -> option R) x,
    Re.rmatch (Re.mk_seq b) s g k = Some x ->
    exists u g', length u < length s /\ k u g' = Some x.

(** ** The result by grouping mode, and sample configurations *)

(** The result in each grouping mode, from the content of the buckets. *)
Definition grouped (self : KeywordProcessor) (bucket : option ascii -> list str)
    (d : buckets) : outcome output :=
  match self_group self with
  | GDict => Ok (Mapping d)
  | GFalse | GNone =>
      Ok (Pairs (build (self_result self)
            (flat_map (fun g => map (fun m => (g, m)) (bucket g)) (self_groups self))))
  | GList => Ok (Sequences CList (map bucket (self_groups self)))
  | GTuple => Ok (Sequences CTuple (map bucket (self_groups self)))
  | GSet => Raise (TypeError "unhashable type: 'list'")
  | GTrue => Raise (TypeError "'bool' object is not callable")
  end.

Definition with_separators (l : str) (a : args) : args :=
  {| separators := l; quotes := quotes a; groups := groups a; group := group a;
     normalize := normalize a; sort := sort a; result := result a |}.

Definition with_groups (g : option (list (option ascii))) (a : args) : args :=
  {| separators := separators a; quotes := quotes a; groups := g; group := group a;
     normalize := normalize a; sort := sort a; result := result a |}.

Definition with_group (g : group_sel) (a : args) : args :=
  {| separators := separators a; quotes := quotes a; groups := groups a; group := g;
     normalize := normalize a; sort := sort a; result := result a |}.

Definition with_sort (b : bool) (a : args) : args :=
  {| separators := separators a; quotes := quotes a; groups := groups a; group := group a;
     normalize := normalize a; sort := b; result := result a |}.

Definition with_normalize (f : option (str -> str)) (a : args) : args :=
  {| separators := separators a; quotes := quotes a; groups := groups a; group := group a;
     normalize := f; sort := sort a; result := result a |}.

(** [KeywordProcessor(',')] *)
Definition comma_args : args := with_separators (py ",") defaults.

(** The processor that [__init__] builds from literal characters. *)
Definition built (a : args) (g : list (option ascii)) : KeywordProcessor :=
  {| self_pattern := pattern a;
     self_regex := regex_of a;
     self_groups := g;
     self_group := match group a with GTrue => GDict | x => x end;
     self_normalize := normalize a;
     self_sort := sort a;
     self_result := result a |}.

(** [s.lstrip(chars)] *)
Definition lstrip (chars : str) (s : str) : str :=
  drop_run (fun c => existsb (Ascii.eqb c) chars) s.

Definition default_parser : KeywordProcessor := built defaults [].

(** The notebook's search parser in mapping mode. *)
Definition mapping_parser : KeywordProcessor :=
  built (with_group GDict search_parser_args) [None; Some "+"%char; Some "-"%char].

(** A processor whose separators are the space and the double quote: the
    double quote is a quote character and a separator. *)
Definition quote_separator_args : args := with_separators [" "%char; dquote] defaults.


(** [KeywordProcessor(groups=['+', '-'])]: markers without [None]. *)
Definition strict_parser : KeywordProcessor :=
  built (with_groups (Some [Some "+"%char; Some "-"%char]) defaults)
        [Some "+"%char; Some "-"%char].

(** The search parser in mapping mode, normalizing with
    [lambda s: s.lstrip('+')]. *)
Definition stripping_parser : KeywordProcessor :=
  built (with_normalize (Some (lstrip (py "+"))) (with_group GDict search_parser_args))
        [None; Some "+"%char; Some "-"%char].

(** ** Order within the groups *)

(** What [sort=True] promises about a result: the terms, or the terms of
    each group, are in code point order. *)
Definition ordered_output (o : output) : Prop :=
  match o with
  | Terms (PList l) | Terms (PTuple l) => ordered l
  | Terms (PSet _) => True
  | Mapping d => forall g l, d !! g = Some l -> ordered l
  | Sequences _ ls => Forall ordered ls
  | Pairs _ => True
  end.

(** The search parser of the notebook with [group=set]. *)
Definition set_parser : KeywordProcessor :=
  built (with_group GSet search_parser_args) [None; Some "+"%char; Some "-"%char].

(** The search parser of the notebook in mapping mode, sorting. *)
Definition sorting_parser : KeywordProcessor :=
  built (with_sort true (with_group GDict search_parser_args))
        [None; Some "+"%char; Some "-"%char].

(** ** The tokens as pieces of the input *)


(** ** Boolean values: the function [boolean] *)

(** [str.lower] on a code point below 256: the letters A..Z and the
    accented capitals 192..222 (215, the multiplication sign, apart) move
    up by 32. *)
Definition lower_char (c : ascii) : ascii :=
  let n := nat_of_ascii c in
  if ((65 <=? n) && (n <=? 90)) || ((192 <=? n) && (n <=? 222) && negb (n =? 215))
  then ascii_of_nat (n + 32) else c.

(** [s.lower()] *)
Definition lower (s : str) : str := map lower_char s.

(** [bytes.lower] changes the ASCII letters only, and [bytes.strip]
    removes the ASCII white space only. *)
Definition lower_byte (c : ascii) : ascii :=
  let n := nat_of_ascii c in
  if (65 <=? n) && (n <=? 90) then ascii_of_nat (n + 32) else c.

Definition isspace_byte (c : ascii) : bool :=
  let n := nat_of_ascii c in
  ((9 <=? n) && (n <=? 13)) || (n =? 32).

(** [s.strip()] with the characters to remove given by [p]: the run at
    the left end, then the run at the right end. *)
Definition strip_run (p : ascii -> bool) (s : str) : str :=
  rev (drop_run p (rev (drop_run p s))).

(** [s.strip()]: the white space of [str.isspace] is removed. *)
Definition strip (s : str) : str := strip_run Re.isspace s.

(** An object handed to [boolean]: one of the values of [pyvalue], or a
    list of them, which is what a form decoder gives for a field sent more
    than once. Objects of other types are outside this type; a
    [bytearray], which has the methods of [bytes], is one of them. *)
Inductive pyobject :=
| PyValue (v : pyvalue)
| PyList (l : list pyvalue).

(** [input.strip().lower()]; [None] stands for the [AttributeError] of an
    object without these methods. Of the objects of [pyobject] the [str]
    and the [bytes] have them. *)
Definition strip_lower (input : pyobject) : option pyvalue :=
  match input with
  | PyValue (VStr s) => Some (VStr (lower (strip s)))
  | PyValue (VBytes b) => Some (VBytes (map lower_byte (strip_run isspace_byte b)))
  | _ => None
  end.

(** The builtin [bool]. *)
Definition truth (input : pyobject) : bool :=
  match input with
  | PyValue (VStr s) => nonempty s
  | PyValue (VBytes b) => nonempty b
  | PyValue (VInt n) => negb (n =? 0)%Z
  | PyValue (VBool b) => b
  | PyValue VNone => false
  | PyList l => nonempty l
  end.

(** [x == y]: a [str] equals no [bytes], and [True] equals [1]. *)
Definition py_eqb (x y : pyvalue) : bool :=
  match x, y with
  | VStr a, VStr b => bool_decide (a = b)
  | VBytes a, VBytes b => bool_decide (a = b)
  | VInt m, VInt n => (m =? n)%Z
  | VBool a, VBool b => Bool.eqb a b
  | VInt m, VBool b | VBool b, VInt m => (m =? (if b then 1 else 0))%Z
  | VNone, VNone => true
  | _, _ => false
  end.

(** [input in (w1, w2, ...)] for a tuple of string literals. *)
Definition among (input : pyvalue) (words : list string) : bool :=
  existsb (fun w => py_eqb input (VStr (py w))) words.

(** What [boolean] does: it returns a [bool] or raises [ValueError], whose
    message shows the stripped and lowered input; [ValueError] carries
    that value. *)
Inductive boolean_result :=
| Return (b : bool)
| ValueError (input : pyvalue).

(** The words of the two tuples of [boolean]. *)
Definition true_words : list string := ["yes"; "y"; "on"; "true"; "t"; "1"]%string.
Definition false_words : list string := ["no"; "n"; "off"; "false"; "f"; "0"]%string.

(** [boolean]: an object without [strip] and [lower] is handed to
    [bool]; the stripped and lowered text is looked up among the words. *)
Definition boolean (input : pyobject) : boolean_result :=
  match strip_lower input with
  | None => Return (truth input)
  | Some input =>
      if among input true_words then Return true
      else if among input false_words then Return false
      else ValueError input
  end.

(** Two strings that differ by the case of their letters only. *)
Definition same_letters (s t : str) : Prop := lower s = lower t.

(** ** Is the store open? *)

(** The source data of the notebook "Interview Questions": from each time
    on, the store is open or closed. *)
Definition times : list (str * bool) :=
  [ (py "00:00", false);
    (py "07:30", true);
    (py "12:00", false);
    (py "13:00", true);
    (py "17:30", false) ].

(** [a > b] and [a < b] on strings: code point order. *)
Definition str_gtb (a b : str) : bool := negb (str_leb a b).
Definition str_ltb (a b : str) : bool := negb (str_leb b a).

(** The loop of the cells "Brute force & ignorance", for the time [now]
    that the cell compares with: [is_open] is the variable of that name,
    and the loop is left at the first [time > now]. *)
Fixpoint brute_force_loop (times : list (str * bool)) (now : str) (is_open : bool) : bool :=
  match times with
  | [] => is_open
  | (time, available) :: rest =>
      if str_gtb time now then is_open
      else brute_force_loop rest now available
  end.

Definition brute_force (times : list (str * bool)) (now : str) : bool :=
  brute_force_loop times now false.

(** [a[mid] < x] for an entry [(time, available)] and the tuple
    [x = (now, None)] or [(now, flag)]: the first components decide when
    they differ; when they are equal the second ones are compared, and a
    [bool] cannot be compared with [None]. *)
Definition entry_lt (e : str * bool) (x : str * option bool) : outcome bool :=
  if bool_decide (fst e = fst x) then
    match snd x with
    | None =>
        Raise (TypeError "'<' not supported between instances of 'bool' and 'NoneType'")
    | Some flag => Ok (negb (snd e) && flag)
    end
  else Ok (str_ltb (fst e) (fst x)).

(** The loop of [bisect.bisect_left]: [while lo < hi], with
    [mid = (lo + hi) // 2]. [fuel] bounds the number of rounds; the
    interval shrinks at each round, so [hi - lo] rounds are enough
    (lemmas [bisect_loop_listed] and [bisect_loop_unlisted]). *)
Fixpoint bisect_loop (fuel : nat) (a : list (str * bool)) (x : str * option bool)
    (lo hi : nat) : outcome nat :=
  if lo <? hi then
    match fuel with
    | 0 => Unsupported
    | S fuel =>
        let mid := (lo + hi) / 2 in
        match a !! mid with
        | None => Raise IndexError
        | Some e =>
            do less <- entry_lt e x ;
            if less then bisect_loop fuel a x (mid + 1) hi
            else bisect_loop fuel a x lo mid
        end
    end
  else Ok lo.

Definition bisect_left (a : list (str * bool)) (x : str * option bool) : outcome nat :=
  bisect_loop (length a) a x 0 (length a).

(** [l[i]], where a negative index counts from the end. *)
Definition getitem {A} (l : list A) (i : Z) : outcome A :=
  let j := if (i <? 0)%Z then (i + Z.of_nat (length l))%Z else i in
  if (j <? 0)%Z then Raise IndexError
  else match l !! Z.to_nat j with
       | Some x => Ok x
       | None => Raise IndexError
       end.

(** [times[bisect_left(times, (now, None)) - 1][1]] *)
Definition bisection (times : list (str * bool)) (now : str) : outcome bool :=
  do i <- bisect_left times (now, None) ;
  do e <- getitem times (Z.of_nat i - 1) ;
  Ok (snd e).

(** The times of the entries increase strictly. *)
Fixpoint increasing (times : list (str * bool)) : bool :=
  match times with
  | e :: ((e' :: _) as rest) => str_ltb (fst e) (fst e') && increasing rest
  | _ => true
  end.

(** The state of the store at [now], read off the data: the flag of the
    last entry whose time is not after [now], closed when there is
    none. *)
Definition state_at (times : list (str * bool)) (now : str) : bool :=
  default false (last (map snd (filter (fun e => str_leb (fst e) now = true) times))).

Abbreviation bool_none :=
  (TypeError "'<' not supported between instances of 'bool' and 'NoneType'").

(** ** Text processing: [uninorm] and [urlsafe] *)

Definition cr : ascii := "013"%char.
Definition lf : ascii := "010"%char.

(** [s.startswith(p)] *)
Fixpoint startswith (p s : str) : bool :=
  match p, s with
  | [], _ => true
  | _ :: _, [] => false
  | x :: p', y :: s' => Ascii.eqb x y && startswith p' s'
  end.

(** [p in s] for strings: [p] occurs somewhere in [s]. *)
Fixpoint contains (p s : str) : bool :=
  startswith p s || match s with [] => false | _ :: s' => contains p s' end.

(** [s.replace(old, new)]: the occurrences of [old] are found from left to
    right and do not overlap. [skip] counts the characters of the
    occurrence still to pass over. With an empty [old], [new] is put
    around every character. *)
Fixpoint replace_from (old new s : str) (skip : nat) : str :=
  match s with
  | [] => []
  | c :: s' =>
      match skip with
      | S n => replace_from old new s' n
      | 0 =>
          if startswith old s then new ++ replace_from old new s' (length old - 1)
          else c :: replace_from old new s' 0
      end
  end.

Definition replace (old new s : str) : str :=
  match old with
  | [] => new ++ flat_map (fun c => c :: new) s
  | _ :: _ => replace_from old new s 0
  end.

(** [str(n)] for a natural number. *)
Definition decimal (n : nat) : str :=
  list_ascii_of_string (NilEmpty.string_of_uint (Nat.to_uint n)).

(** [Union[bytes, str]] *)
Inductive text :=
| Str (s : str)
| Bytes (b : list ascii).

(** What the text functions do: return, raise [UnicodeDecodeError], or
    leave what this development models (a replacement template with a
    backslash). *)
Inductive text_result (A : Type) :=
| Returned (a : A)
| UnicodeDecodeError
| NotModelled.
Arguments Returned {A} a.
Arguments UnicodeDecodeError {A}.
Arguments NotModelled {A}.

(** [\w] in a [str] pattern, on the code points below 256: the letters,
    the digits, the underscore, and the letters and numbers of Latin-1. *)
Definition word_items : list Re.set_item :=
  [ Re.Range "0" "9"; Re.Range "A" "Z"; Re.Lit "_"; Re.Range "a" "z";
    Re.Lit "170"; Re.Range "178" "179"; Re.Lit "181"; Re.Range "185" "186";
    Re.Range "188" "190"; Re.Range "192" "214"; Re.Range "216" "246";
    Re.Range "248" "255" ]%char.

Definition nonword : Re.charset := {| Re.negate := true; Re.items := word_items |}.

(** The default of [unsafe]: [re(r'\W+')]. *)
Definition unsafe_default : Re.regex := Re.Atom nonword Re.Plus.

(** [pattern.sub(repl, s)] for a replacement text [repl] without
    backslash, which is taken literally. The scan is that of [findall]:
    [skip] counts the characters covered by the previous match, and after
    an empty match the search resumes at the same position and refuses
    empty matches there. The characters between the matches are kept. *)
Fixpoint sub_scan (r : Re.regex) (repl : str) (s : str) (skip : nat) : str :=
  match skip with
  | S n =>
      match s with
      | [] => []
      | _ :: s' => sub_scan r repl s' n
      end
  | 0 =>
      match Re.match_here r false s with
      | Some (_, S n) =>
          repl ++ match s with [] => [] | _ :: s' => sub_scan r repl s' n end
      | Some (_, 0) =>
          repl ++ match Re.match_here r true s with
                  | Some (_, S n) =>
                      repl ++ match s with [] => [] | _ :: s' => sub_scan r repl s' n end
                  | _ => match s with [] => [] | c :: s' => c :: sub_scan r repl s' 0 end
                  end
      | None => match s with [] => [] | c :: s' => c :: sub_scan r repl s' 0 end
      end
  end.

Definition sub (pattern : Re.regex) (repl : str) (s : str) : text_result str :=
  if existsb (Ascii.eqb "\") repl then NotModelled
  else Returned (sub_scan pattern repl s 0).

(** [s.strip(chars)] *)
Definition strip_chars (chars : str) (s : str) : str :=
  strip_run (fun c => existsb (Ascii.eqb c) chars) s.

(** The f-string of [urlsafe]:
    [f"{base}{replacement if suffix else ''}{suffix if suffix else ''}"] *)
Definition candidate (base replacement : str) (suffix : nat) : str :=
  base ++ (if suffix =? 0 then [] else replacement)
       ++ (if suffix =? 0 then [] else decimal suffix).

(** The loop [while True] of [urlsafe]. [fuel] bounds the number of
    increments of [suffix]; as many as [collection] has members are
    enough (lemma [urlsafe_loop_returns]). *)
Fixpoint urlsafe_loop (fuel : nat) (base replacement : str) (collection : list str)
    (suffix : nat) : text_result str :=
  let result := candidate base replacement suffix in
  if bool_decide (result ∈ collection) then
    match fuel with
    | 0 => NotModelled
    | S fuel => urlsafe_loop fuel base replacement collection (suffix + 1)
    end
  else Returned result.

Section TextProcessing.

(** Two library functions are left open: [unicodedata.normalize('NFC', s)]
    and [b.decode(encoding)], which gives [None] when the library raises
    [UnicodeDecodeError]. *)
Variable nfc : str -> str.
Variable decode : string -> list ascii -> option str.

Definition uninorm (value : text) (encoding fallback : string) : text_result str :=
  let decoded :=
    match value with
    | Bytes b =>
        match decode encoding b with
        | Some s => Some s
        | None => decode fallback b
        end
    | Str s => Some s
    end in
  match decoded with
  | Some value => Returned (replace [cr; lf] [lf] (nfc value))
  | None => UnicodeDecodeError
  end.

(** [base], as [urlsafe] computes it from the normalized name. *)
Definition urlsafe_base (value replacement : str) (unsafe : Re.regex) : text_result str :=
  match sub unsafe replacement value with
  | Returned replaced => Returned (strip_chars replacement replaced)
  | UnicodeDecodeError => UnicodeDecodeError
  | NotModelled => NotModelled
  end.

Definition urlsafe (name : text) (collection : list str) (replacement : str)
    (unsafe : Re.regex) : text_result str :=
  match uninorm name "utf8" "Windows-1252" with
  | Returned value =>
      match urlsafe_base value replacement unsafe with
      | Returned base => urlsafe_loop (length collection) base replacement collection 0
      | UnicodeDecodeError => UnicodeDecodeError
      | NotModelled => NotModelled
      end
  | UnicodeDecodeError => UnicodeDecodeError
  | NotModelled => NotModelled
  end.

End TextProcessing.

(** Every maximal run of characters of [sep] replaced by [repl];
    [in_run] tells that the previous character was one of them. *)
Fixpoint squeeze (sep : ascii -> bool) (repl s : str) (in_run : bool) : str :=
  match s with
  | [] => []
  | c :: s' =>
      if sep c then
        if in_run then squeeze sep repl s' true
        else repl ++ squeeze sep repl s' true
      else c :: squeeze sep repl s' false
  end.

(** [c] is not a word character. *)
Definition unsafe_char (c : ascii) : bool := Re.cs_mem nonword c.

Definition is_dash (c : ascii) : bool := existsb (Ascii.eqb c) (py "-").

Definition starts_unsafe (s : str) : bool :=
  match s with
  | c :: _ => unsafe_char c
  | [] => false
  end.

(** A word: a non-empty run of word characters. *)
Definition safe_word (w : str) : Prop :=
  w <> [] /\ forallb (fun c => negb (unsafe_char c)) w = true.

(** ** The tag parser of the notebook *)

(** The [normalize] of the tag parser: [s.lower()], then [strip] with the
    double quote as the character to remove. *)
Definition tag_normalize (s : str) : str := strip_chars [dquote] (lower s).

(** [tag_parser]: the separators are the space, the tab and the comma;
    [normalize] is the function above, [sort=True] and [result=tuple]. *)
Definition tag_parser_args : args :=
  {| separators := [" "%char; tab; ","%char];
     quotes := Some [dquote; squote];
     groups := Some [];
     group := GFalse;
     normalize := Some tag_normalize;
     sort := true;
     result := CTuple |}.

Definition tag_parser : KeywordProcessor := built tag_parser_args [].

(** ** Delimited lists: the function [array] *)

(** [s.split(sep)] for a separator that is not empty: the occurrences of
    [sep] are found from left to right and do not overlap; [skip] counts
    the characters of the occurrence still to pass over. The result has
    one piece more than there are occurrences. *)
Fixpoint split_from (sep s : str) (skip : nat) : list str :=
  match s with
  | [] => [[]]
  | c :: s' =>
      match skip with
      | S n => split_from sep s' n
      | 0 =>
          if startswith sep s then [] :: split_from sep s' (length sep - 1)
          else match split_from sep s' 0 with
               | p :: ps => (c :: p) :: ps
               | [] => [[c]]
               end
      end
  end.

(** [s.split(separator)]: with [None] the string is split on runs of
    white space and no piece is empty; the empty separator is refused
    with [ValueError], for which [None] stands here. *)
Definition str_split (separator : option str) (s : str) : option (list str) :=
  match separator with
  | None => Some (words Re.isspace s)
  | Some [] => None
  | Some ((_ :: _) as sep) => Some (split_from sep s 0)
  end.

(** [list(input)] for an object that is neither [None], a list nor a
    [str]: the bytes of a [bytes] object as integers; the numbers are not
    iterable. *)
Definition list_of (input : pyvalue) : option (list pyvalue) :=
  match input with
  | VBytes b => Some (map (fun c => VInt (Z.of_nat (nat_of_ascii c))) b)
  | VStr s => Some (map (fun c => VStr [c]) s)
  | VInt _ | VBool _ | VNone => None
  end.

(** What [array] does: it returns a list, or raises the [ValueError] of
    [str.split] for an empty separator, or the [TypeError] of [list()]
    for an object that is not iterable. *)
Inductive array_result :=
| Array (l : list pyvalue)
| EmptySeparator
| NotIterable.

(** [[i for i in l if i]] *)
Definition truthy (l : list pyvalue) : list pyvalue :=
  filter (fun i => truth (PyValue i) = true) l.

Definition nonblank (l : list str) : list str :=
  filter (fun i => nonempty i = true) l.

(** In [array] the parameter [strip] hides the function of that name:
    [i.strip()] is written [strip_run Re.isspace i]. *)
Definition array (input : pyobject) (separator : option str) (strip empty : bool)
    : array_result :=
  match input with
  | PyValue VNone => Array []
  | PyList input => if negb empty then Array (truthy input) else Array input
  | PyValue (VStr input) =>
      match str_split separator input with
      | None => EmptySeparator
      | Some pieces =>
          if negb strip then
            if negb empty then Array (map VStr (nonblank pieces))
            else Array (map VStr pieces)
          else if negb empty then
            Array (map VStr (nonblank (map (strip_run Re.isspace) pieces)))
          else Array (map VStr (map (strip_run Re.isspace) pieces))
      end
  | PyValue input =>
      match list_of input with
      | None => NotIterable
      | Some l => if negb empty then Array (truthy l) else Array l
      end
  end.

(** A field of a delimited list: not empty, without white space at its
    ends. *)
Definition field (t : str) : Prop := t <> [] /\ strip t = t.

(** ** Numbers: the function [integer] *)

(** [str(n)] for an integer. *)
Definition str_of_int (n : Z) : str :=
  list_ascii_of_string (NilZero.string_of_int (Z.to_int n)).

Definition is_digit (c : ascii) : bool :=
  (48 <=? nat_of_ascii c) && (nat_of_ascii c <=? 57).

(** The white space that [int()] passes over around the digits of a
    [str]: the ASCII white space, and beyond 127 the characters of
    [str.isspace]. Around the digits of a [bytes] object it is
    [isspace_byte]. *)
Definition int_space (c : ascii) : bool :=
  let n := nat_of_ascii c in
  ((9 <=? n) && (n <=? 13)) || (n =? 32) || (n =? 133) || (n =? 160).

(** The digits of a literal: an underscore may stand between two digits;
    [seen] tells what came last. The underscores are dropped. *)
Inductive seen := Nothing | ADigit | AnUnderscore.

Fixpoint digits_of (s : str) (last : seen) : option str :=
  match s with
  | [] => match last with ADigit => Some [] | _ => None end
  | c :: s' =>
      if is_digit c then option_map (cons c) (digits_of s' ADigit)
      else if Ascii.eqb c "_" then
        match last with
        | ADigit => digits_of s' AnUnderscore
        | _ => None
        end
      else None
  end.

(** The conversions between [int] and [str] refuse a number of more
    digits than the interpreter's setting [sys.get_int_max_str_digits()]
    allows, with a [ValueError]. The setting is 4300 unless changed; 0
    lifts the limit, and stands for the interpreters that have none; an
    interpreter takes no other number below 640 as the setting. The
    digits counted are those of the literal, leading zeros included; the
    sign, the underscores and the white space do not count. *)
Definition exceeds (max_str_digits digits : nat) : bool :=
  (0 <? max_str_digits) && (max_str_digits <? digits).

(** The number of decimal digits of an integer. *)
Definition digits (n : Z) : nat := length (str_of_int (Z.abs n)).

(** The builtin [str] on an integer; [None] stands for its
    [ValueError]. *)
Definition py_str (max_str_digits : nat) (n : Z) : option str :=
  if exceeds max_str_digits (digits n) then None else Some (str_of_int n).

Definition magnitude (max_str_digits : nat) (body : str) : option Z :=
  match digits_of body Nothing with
  | Some ds =>
      if exceeds max_str_digits (length ds) then None
      else match NilEmpty.uint_of_string (string_of_list_ascii ds) with
           | Some u => Some (Z.of_N (N.of_uint u))
           | None => None
           end
  | None => None
  end.

(** A decimal literal as [int()] reads it: white space, a sign, the
    digits, white space. *)
Definition int_of_text (max_str_digits : nat) (space : ascii -> bool) (s : str) : option Z :=
  match strip_run space s with
  | c :: body =>
      if Ascii.eqb c "-" then option_map Z.opp (magnitude max_str_digits body)
      else if Ascii.eqb c "+" then magnitude max_str_digits body
      else magnitude max_str_digits (c :: body)
  | [] => None
  end.

(** The builtin [int]; [None] stands for its [TypeError] and its
    [ValueError]. *)
Definition py_int (max_str_digits : nat) (input : pyobject) : option Z :=
  match input with
  | PyValue (VStr s) => int_of_text max_str_digits int_space s
  | PyValue (VBytes b) => int_of_text max_str_digits isspace_byte b
  | PyValue (VInt n) => Some n
  | PyValue (VBool b) => Some (if b then 1 else 0)%Z
  | PyValue VNone => None
  | PyList _ => None
  end.

(** What [integer] does: it returns an [int] or raises [ValueError],
    whose message shows the input; [NotInteger] carries the input. The
    first argument is the interpreter's setting, which [int] reads. *)
Inductive integer_result :=
| Int (n : Z)
| NotInteger (input : pyobject).

Definition integer (max_str_digits : nat) (input : pyobject) : integer_result :=
  match py_int max_str_digits input with
  | Some n => Int n
  | None => NotInteger input
  end.

(** * Proofs *)


Lemma run_app p q st : Re.run (p ++ q) st = do st' <- Re.run p st ; Re.run q st'.
Proof.
  revert st. induction p as [|c p IH]; intros st; simpl; [reflexivity|].
  destruct (Re.step st c); simpl; auto.
Qed.

Lemma set_plain_inv c :
  set_plain c = true ->
  Ascii.eqb c "\" = false /\ Ascii.eqb c "]" = false /\
  Ascii.eqb c "^" = false /\ Ascii.eqb c "-" = false.
Proof.
  unfold set_plain. simpl. rewrite negb_true_iff, !orb_false_iff. tauto.
Qed.

Lemma nonempty_app_r {A} (l : list A) x : nonempty (l ++ [x]) = true.
Proof. destruct l; reflexivity. Qed.

Lemma run_set_body l : forall s st rest,
  Re.dash s = false -> Re.esc s = false -> set_body l = true ->
  nonempty (Re.flushed s ++ lits l) = true ->
  Re.run (l ++ "]"%char :: rest) (Re.in_set s st) =
  Re.run rest (Re.close_set s (Re.flushed s ++ lits l) st).
Proof.
  induction l as [|c l IH]; intros s st rest Hd He Hl Hne.
  - simpl in *. rewrite app_nil_r in *.
    unfold Re.step, Re.step_set; simpl. rewrite Hd, He, Hne, !andb_false_r. reflexivity.
  - assert (Hstep : forall s', Re.dash s' = false -> Re.esc s' = false -> set_plain c = true ->
       Re.step (Re.in_set s' st) c = Ok (Re.in_set (Re.set_member s' (Re.Lit c)) st)).
    { intros s' Hd' He' Hc. apply set_plain_inv in Hc as (H1 & H2 & H3 & H4).
      unfold Re.step, Re.step_set; simpl. rewrite Hd', He', H1, H2, H3, H4, !andb_false_r.
      reflexivity. }
    destruct l as [|c' l].
    + simpl in Hl. apply orb_true_iff in Hl as [Hc|Hc].
      * change ((c :: []) ++ "]"%char :: rest) with (c :: [] ++ "]"%char :: rest).
        cbn [Re.run]. rewrite Hstep by assumption. cbn [bind].
        rewrite (IH _ st rest); try reflexivity.
        -- simpl. unfold Re.close_set. simpl. rewrite app_nil_r. reflexivity.
        -- simpl. rewrite app_nil_r. apply nonempty_app_r.
      * apply Ascii.eqb_eq in Hc. subst c. simpl.
        unfold Re.step at 1, Re.step_set; simpl. rewrite Hd, He, !andb_false_r. simpl.
        destruct (Re.has_pend s) eqn:Hp; simpl.
        -- unfold Re.step, Re.step_set; simpl. rewrite ?andb_false_r. reflexivity.
        -- unfold Re.step, Re.step_set; simpl. rewrite ?andb_false_r.
           unfold Re.has_pend in Hp. unfold Re.flushed at 1 2.
           destruct (Re.pend s); [discriminate|]. simpl.
           rewrite nonempty_app_r. simpl. unfold Re.flushed. reflexivity.
    + assert (Hc : set_plain c = true /\ set_body (c' :: l) = true).
      { simpl in Hl. apply andb_true_iff in Hl. exact Hl. }
      destruct Hc as [Hc Hl'].
      change ((c :: c' :: l) ++ "]"%char :: rest) with (c :: (c' :: l) ++ "]"%char :: rest).
      cbn [Re.run]. rewrite Hstep by assumption. cbn [bind].
      rewrite (IH _ st rest); try reflexivity; try assumption.
      * unfold Re.close_set. simpl.
        change (Re.flushed (Re.set_member s (Re.Lit c))) with (Re.flushed s ++ [Re.Lit c]).
        rewrite <- app_assoc. reflexivity.
      * change (Re.flushed (Re.set_member s (Re.Lit c))) with (Re.flushed s ++ [Re.Lit c]).
        destruct (Re.flushed s); reflexivity.
Qed.

Lemma existsb_eqb_false c l d :
  existsb (Ascii.eqb c) l = false -> In d l -> Ascii.eqb c d = false.
Proof.
  intros H Hd. rewrite <- not_true_iff_false in *. intros E. apply H.
  apply existsb_exists. eauto.
Qed.

Ltac plain_chars H :=
  repeat match goal with
  | |- context [Ascii.eqb ?c ?d] =>
      rewrite (existsb_eqb_false c _ d H) by (simpl; tauto)
  end.

Lemma quote_plain_step c st :
  quote_plain c = true -> Re.mode st = None ->
  Re.step st c = Ok (Re.push_item (Re.lit c) st).
Proof.
  intros Hc Hm. unfold Re.step. rewrite Hm. unfold Re.step_normal.
  unfold quote_plain in Hc. rewrite negb_true_iff in Hc.
  unfold Re.special. cbn [existsb py list_ascii_of_string].
  plain_chars Hc. reflexivity.
Qed.

Lemma quote_plain_set c : quote_plain c = true -> set_body [c] = true.
Proof.
  unfold quote_plain, set_body, set_plain. rewrite negb_true_iff. intros Hc.
  cbn [existsb py list_ascii_of_string].
  plain_chars Hc. destruct (Ascii.eqb c "-"); reflexivity.
Qed.

Lemma run_cons c p st : Re.run (c :: p) st = do st' <- Re.step st c ; Re.run p st'.
Proof. reflexivity. Qed.

Lemma in_set_in_set s s' st : Re.in_set s' (Re.in_set s st) = Re.in_set s' st.
Proof. reflexivity. Qed.

Section Steps.

Variable st : Re.pstate.
Hypothesis Hm : Re.mode st = None.

Lemma run_set l rest :
  set_body l = true -> nonempty l = true ->
  Re.run ("["%char :: l ++ "]"%char :: rest) st =
  Re.run rest (Re.push_item (Re.Atom {| Re.negate := false; Re.items := lits l |} Re.One) st).
Proof.
  intros Hl Hne. cbn [Re.run]. unfold Re.step at 1. rewrite Hm. cbn [Re.step_normal Ascii.eqb Bool.eqb bind].
  rewrite run_set_body; try reflexivity; try assumption.
  destruct l; [discriminate|reflexivity].
Qed.

Lemma run_neg_set l rest :
  set_body l = true -> nonempty l = true ->
  Re.run ("["%char :: "^"%char :: l ++ "]"%char :: rest) st =
  Re.run rest (Re.push_item (Re.Atom {| Re.negate := true; Re.items := lits l |} Re.One) st).
Proof.
  intros Hl Hne. cbn [Re.run]. unfold Re.step at 1. rewrite Hm. cbn [Re.step_normal Ascii.eqb Bool.eqb bind].
  unfold Re.step at 1. cbn [Re.mode Re.in_set]. unfold Re.step_set at 1.
  cbn [Re.start Re.fresh_set andb Ascii.eqb Bool.eqb bind]. rewrite in_set_in_set.
  match goal with |- Re.run _ (Re.in_set ?s _) = _ =>
    rewrite (run_set_body l s st rest) end; try reflexivity; try assumption.
  destruct l; [discriminate|reflexivity].
Qed.

Lemma run_space_set l rest :
  set_body l = true ->
  Re.run ("["%char :: "\"%char :: "s"%char :: l ++ "]"%char :: rest) st =
  Re.run rest (Re.push_item (Re.Atom {| Re.negate := false; Re.items := Re.Space :: lits l |} Re.One) st).
Proof.
  intros Hl. cbn [Re.run]. unfold Re.step at 1. rewrite Hm. cbn [Re.step_normal Ascii.eqb Bool.eqb bind].
  unfold Re.step at 1. cbn [Re.mode Re.in_set]. unfold Re.step_set at 1.
  cbn [Re.start Re.esc Re.dash Re.has_pend Re.pend Re.fresh_set andb Ascii.eqb Bool.eqb bind
       Re.flushed Re.acc Re.neg].
  unfold Re.step at 1. cbn [Re.mode Re.in_set]. unfold Re.step_set at 1.
  cbn [Re.start Re.esc Re.dash Re.has_pend Re.pend Re.fresh_set andb Ascii.eqb Bool.eqb bind
       Re.flushed Re.acc Re.neg Re.class_escape].
  rewrite !in_set_in_set.
  match goal with |- Re.run _ (Re.in_set ?s _) = _ =>
    rewrite (run_set_body l s st rest) end; try reflexivity; try assumption.
Qed.

Lemma run_quant cs l rest c q :
  Re.cur (Re.top st) = Re.Atom cs Re.One :: l ->
  (c, q) = ("*"%char, Re.Star) \/ (c, q) = ("+"%char, Re.Plus) \/ (c, q) = ("?"%char, Re.Opt) ->
  Re.run (c :: rest) st = Re.run rest (Re.set_cur (Re.Atom cs q :: l) st).
Proof.
  intros Hc [E|[E|E]]; inversion E; subst; cbn [Re.run]; unfold Re.step; rewrite Hm;
    cbn [Re.step_normal Ascii.eqb Bool.eqb]; unfold Re.quantify; rewrite Hc; reflexivity.
Qed.

End Steps.

Lemma run_quote_pattern i st rest :
  quote_plain i = true -> Re.mode st = None ->
  Re.run (quote_pattern i ++ rest) st = Re.run rest (quote_state i st).
Proof.
  intros Hi Hm. unfold quote_pattern. cbn [app py list_ascii_of_string].
  rewrite run_cons, quote_plain_step by auto. cbn [bind].
  etransitivity.
  { apply (run_neg_set (Re.push_item (Re.lit i) st) eq_refl [i]);
      [apply quote_plain_set; assumption|reflexivity]. }
  etransitivity.
  { match goal with |- Re.run _ ?s = _ =>
      eapply (run_quant s eq_refl _ _ _ "+"%char Re.Plus); [reflexivity|auto] end. }
  rewrite run_cons, quote_plain_step by auto. cbn [bind].
  reflexivity.
Qed.

Lemma quotes_state_mode q : forall st, Re.mode st = None -> Re.mode (quotes_state q st) = None.
Proof. induction q; intros st Hm; simpl; auto. Qed.

Lemma run_quotes q : forall st rest,
  forallb quote_plain q = true -> Re.mode st = None ->
  Re.run (concat (map quote_pattern q) ++ rest) st = Re.run rest (quotes_state q st).
Proof.
  induction q as [|i q IH]; intros st rest Hq Hm; [reflexivity|].
  simpl in Hq. apply andb_true_iff in Hq as [Hi Hq].
  cbn [map concat]. rewrite <- app_assoc.
  rewrite run_quote_pattern by assumption. apply IH; auto.
Qed.

Lemma quotes_state_eq q : forall st,
  Re.mode st = None ->
  quotes_state q st =
  {| Re.stack := Re.stack st;
     Re.top := {| Re.branches := fst (after_quotes (Re.branches (Re.top st)) (Re.cur (Re.top st)) q);
                  Re.cur := snd (after_quotes (Re.branches (Re.top st)) (Re.cur (Re.top st)) q) |};
     Re.mode := None;
     Re.ngroups := Re.ngroups st |}.
Proof.
  induction q as [|i q IH]; intros st Hm.
  - destruct st as [? [? ?] ? ?]; cbn in *; subst; reflexivity.
  - cbn [quotes_state fold_left]. fold (quotes_state q (quote_state i st)).
    rewrite IH by reflexivity. cbn. rewrite <- !app_assoc. reflexivity.
Qed.

Lemma with_prefix_nil l : with_prefix [] l = l.
Proof. destruct l; reflexivity. Qed.

Lemma after_quotes_alternatives x q : forall b c,
  rev (Re.mk_seq (rev (x :: snd (after_quotes b c q))) :: fst (after_quotes b c q)) =
  rev b ++ map Re.mk_seq (with_prefix (rev c) (map quoted q ++ [[x]])).
Proof.
  induction q as [|i q IH]; intros b c.
  - reflexivity.
  - cbn [after_quotes]. rewrite IH. cbn [rev]. rewrite with_prefix_nil.
    rewrite <- app_assoc. reflexivity.
Qed.

Lemma group_state_eq a st :
  Re.mode st = None ->
  group_state a st =
  {| Re.stack := Re.stack st;
     Re.top := {| Re.branches := Re.branches (Re.top st);
                  Re.cur := rev (marker_items a) ++ Re.cur (Re.top st) |};
     Re.mode := None;
     Re.ngroups := Re.ngroups st |}.
Proof.
  intros Hm. unfold group_state, marker_items.
  destruct (groups a) as [[|g0 g]|]; try reflexivity;
    destruct st as [? [? ?] ? ?]; cbn in *; subst; reflexivity.
Qed.

Lemma quote_part_eq a : quote_part a = concat (map quote_pattern (default [] (quotes a))).
Proof. unfold quote_part. destruct (quotes a) as [[|i q]|]; reflexivity. Qed.

Lemma run_group_part a st rest :
  plain a = true -> Re.mode st = None ->
  Re.run (group_part a ++ rest) st = Re.run rest (group_state a st).
Proof.
  intros Hp Hm. unfold group_part, group_state, marker_items, plain in *.
  destruct (groups a) as [[|g0 g]|]; try reflexivity.
  apply andb_true_iff in Hp as [_ Hp]. apply andb_true_iff in Hp as [Hne Hb].
  cbn [py list_ascii_of_string app]. rewrite <- app_assoc.
  etransitivity; [apply (run_set st Hm); assumption|].
  cbn [fold_right]. case_bool_decide.
  - cbn [app py list_ascii_of_string].
    etransitivity.
    { match goal with |- Re.run _ ?s = _ =>
        eapply (run_quant s eq_refl _ _ _ "?"%char Re.Opt); [reflexivity|auto] end. }
    reflexivity.
  - reflexivity.
Qed.

Lemma group_state_mode a st : Re.mode st = None -> Re.mode (group_state a st) = None.
Proof. intros Hm. rewrite group_state_eq by assumption. reflexivity. Qed.

Lemma forallb_set_body l : forallb set_plain l = true -> set_body l = true.
Proof.
  induction l as [|c l IH]; [reflexivity|]. cbn [forallb].
  intros H. apply andb_true_iff in H as [Hc Hl].
  destruct l; cbn [set_body]; [rewrite Hc; reflexivity|].
  rewrite Hc. apply IH, Hl.
Qed.

Lemma run_pattern a :
  plain a = true -> separators a <> [] ->
  exists st, Re.run (pattern a) Re.initial = Ok st
    /\ Re.finish st = Ok (regex_of a) /\ Re.ngroups st = 1.
Proof.
  intros Hp Hs. unfold pattern.
  assert (Hb : set_body (separators a) = true).
  { apply forallb_set_body. unfold plain in Hp.
    apply andb_true_iff in Hp as [Hp _]. apply andb_true_iff in Hp as [Hp _]. exact Hp. }
  assert (Hne : nonempty (separators a) = true).
  { destruct (separators a); [congruence|reflexivity]. }
  assert (Hq : forallb quote_plain (default [] (quotes a)) = true).
  { unfold plain in Hp. apply andb_true_iff in Hp as [Hp _].
    apply andb_true_iff in Hp as [_ Hp]. exact Hp. }
  eexists. split.
  - cbn [py list_ascii_of_string app]. rewrite <- !app_assoc. cbn [app].
    rewrite (run_space_set Re.initial eq_refl) by assumption.
    etransitivity.
    { match goal with |- Re.run _ ?s = _ =>
        eapply (run_quant s eq_refl _ _ _ "*"%char Re.Star); [reflexivity|auto] end. }
    rewrite run_cons. unfold Re.step at 1.
    cbn [Re.mode Re.set_cur Re.step_normal Ascii.eqb Bool.eqb bind].
    rewrite run_group_part by auto.
    rewrite quote_part_eq, run_quotes by (auto using group_state_mode).
    etransitivity.
    { apply run_neg_set; auto using quotes_state_mode, group_state_mode. }
    etransitivity.
    { match goal with |- Re.run _ ?s = _ =>
        eapply (run_quant s eq_refl _ _ _ "+"%char Re.Plus); [reflexivity|auto] end. }
    rewrite quotes_state_eq by (apply group_state_mode; reflexivity).
    rewrite group_state_eq by reflexivity.
    rewrite run_cons. unfold Re.step at 1.
    cbn [Re.stack Re.top Re.mode Re.ngroups Re.set_cur Re.push_item Re.open_group
         Re.step_normal Ascii.eqb Bool.eqb bind Re.branches Re.cur].
    etransitivity.
    { apply run_set; auto. }
    etransitivity.
    { match goal with |- Re.run _ ?s = _ =>
        eapply (run_quant s eq_refl _ _ _ "*"%char Re.Star); [reflexivity|auto] end. }
    reflexivity.
  - split; [|reflexivity].
    unfold Re.finish.
    cbn [Re.stack Re.top Re.mode Re.ngroups Re.set_cur Re.push_item Re.open_group
         Re.close_group Re.branches Re.cur Re.initial Re.empty_frame].
    unfold regex_of, token, alternatives. f_equal.
    unfold Re.frame_regex at 1. cbn [Re.branches Re.cur rev app Re.mk_alt Re.mk_seq fold_right].
    do 3 f_equal.
    unfold Re.frame_regex. cbn [Re.branches Re.cur]. f_equal.
    rewrite app_nil_r.
    change (Re.Atom {| Re.negate := true; Re.items := lits (separators a) |} Re.Plus) with (bare a).
    unfold choice, alternatives.
    rewrite after_quotes_alternatives. rewrite rev_involutive. reflexivity.
Qed.

Lemma compile_pattern a :
  plain a = true -> separators a <> [] ->
  Re.compile (pattern a) = Ok (regex_of a).
Proof.
  intros Hp Hs. destruct (run_pattern a Hp Hs) as (st & Hr & Hf & Hn).
  unfold Re.compile, Re.parse. rewrite Hr. cbn [bind]. rewrite Hf. cbn [bind snd fst].
  rewrite Hn. reflexivity.
Qed.

Lemma run_pattern_no_separators a :
  plain a = true -> separators a = [] ->
  exists st, Re.run (pattern a) Re.initial = Ok st
    /\ Re.finish st = Raise (ReError MissingParen).
Proof.
  intros Hp Hs. unfold pattern.
  assert (Hq : forallb quote_plain (default [] (quotes a)) = true).
  { unfold plain in Hp. apply andb_true_iff in Hp as [Hp _].
    apply andb_true_iff in Hp as [_ Hp]. exact Hp. }
  rewrite Hs. eexists. split.
  - cbn [py list_ascii_of_string app].
    etransitivity; [apply (run_space_set Re.initial eq_refl [] _ eq_refl)|].
    etransitivity.
    { match goal with |- Re.run _ ?s = _ =>
        eapply (run_quant s eq_refl _ _ _ "*"%char Re.Star); [reflexivity|auto] end. }
    rewrite run_cons. unfold Re.step at 1.
    cbn [Re.mode Re.set_cur Re.step_normal Ascii.eqb Bool.eqb bind].
    rewrite run_group_part by auto.
    rewrite quote_part_eq, run_quotes by (auto using group_state_mode).
    rewrite quotes_state_eq by (apply group_state_mode; reflexivity).
    rewrite group_state_eq by reflexivity.
    cbn. reflexivity.
  - reflexivity.
Qed.

Lemma compile_no_separators a :
  plain a = true -> separators a = [] ->
  Re.compile (pattern a) = Raise (ReError MissingParen).
Proof.
  intros Hp Hs. destruct (run_pattern_no_separators a Hp Hs) as (st & Hr & Hf).
  unfold Re.compile, Re.parse. rewrite Hr. cbn [bind]. rewrite Hf. reflexivity.
Qed.

Section Runs.

Variable p : ascii -> bool.

Lemma take_drop_run s : take_run p s ++ drop_run p s = s.
Proof. induction s as [|c s IH]; simpl; [reflexivity|]. destruct (p c); simpl; congruence. Qed.

Lemma take_run_all s : forallb p (take_run p s) = true.
Proof. induction s as [|c s IH]; simpl; [reflexivity|]. destruct (p c) eqn:E; simpl; [rewrite E|]; auto. Qed.

Lemma drop_run_stops s : stops p (drop_run p s).
Proof. induction s as [|c s IH]; simpl; [exact I|]. destruct (p c) eqn:E; simpl; auto. Qed.

Lemma drop_run_length s : length (drop_run p s) <= length s.
Proof. induction s as [|c s IH]; simpl; [lia|]. destruct (p c); simpl; lia. Qed.

Lemma take_run_nonempty c s : p c = true -> take_run p (c :: s) <> [].
Proof. simpl. intros ->. discriminate. Qed.

Lemma drop_run_stops_id s : stops p s -> drop_run p s = s.
Proof. destruct s as [|c s]; simpl; [reflexivity|]. intros ->. reflexivity. Qed.

Lemma drop_run_all s r : forallb p s = true -> drop_run p (s ++ r) = drop_run p r.
Proof.
  induction s as [|c s IH]; simpl; [reflexivity|].
  intros H. apply andb_true_iff in H as [-> H]. auto.
Qed.

End Runs.

(** ** Facts about the matcher *)

Section MatcherFacts.

Context {R : Type}.
Implicit Types (k : str -> option R) (cs : Re.charset).

Lemma star_run cs l r k x :
  forallb (Re.cs_mem cs) l = true -> stops (Re.cs_mem cs) r ->
  k r = Some x -> Re.star cs (l ++ r) k = Some x.
Proof.
  intros Hl Hr Hk. induction l as [|c l IH]; simpl.
  - destruct r as [|c r]; simpl in *; [assumption|]. rewrite Hr. assumption.
  - simpl in Hl. apply andb_true_iff in Hl as [-> Hl]. rewrite IH by assumption. reflexivity.
Qed.

Lemma star_fail cs s k :
  (forall u, u `suffix_of` s -> k u = None) -> Re.star cs s k = None.
Proof.
  induction s as [|c s IH]; intros Hk; simpl.
  - apply Hk. reflexivity.
  - rewrite IH.
    + destruct (Re.cs_mem cs c); apply Hk; reflexivity.
    + intros u Hu. apply Hk. apply suffix_cons_r. assumption.
Qed.

Lemma one_fail cs s k :
  (forall u, u `suffix_of` s -> k u = None) -> Re.one cs s k = None.
Proof.
  intros Hk. destruct s as [|c s]; simpl; [reflexivity|].
  destruct (Re.cs_mem cs c); [|reflexivity]. apply Hk. apply suffix_cons_r. reflexivity.
Qed.

Lemma atom_fail cs q s k :
  (forall u, u `suffix_of` s -> k u = None) -> Re.atom cs q s k = None.
Proof.
  intros Hk. destruct q; simpl.
  - apply one_fail, Hk.
  - rewrite one_fail by assumption. apply Hk. reflexivity.
  - apply star_fail, Hk.
  - apply one_fail. intros u Hu. apply star_fail. intros v Hv. apply Hk.
    etransitivity; eassumption.
Qed.

Lemma rmatch_fail (r : Re.regex) : forall s g (k : str -> str -> option R),
  (forall u g', u `suffix_of` s -> k u g' = None) -> Re.rmatch r s g k = None.
Proof.
  induction r as [| |cs q|a IHa b IHb|a IHa b IHb|a IHa]; intros s g k Hk; simpl.
  - apply Hk. reflexivity.
  - reflexivity.
  - apply atom_fail. intros u Hu. apply Hk, Hu.
  - apply IHa. intros u g' Hu. apply IHb. intros v g'' Hv. apply Hk.
    etransitivity; eassumption.
  - rewrite IHa, IHb by assumption. reflexivity.
  - apply IHa. intros u g' Hu. apply Hk, Hu.
Qed.

End MatcherFacts.

Lemma forallb_ext {A} (f g : A -> bool) l :
  (forall x, f x = g x) -> forallb f l = forallb g l.
Proof. intros H. induction l as [|x l IH]; simpl; [reflexivity|]. rewrite H, IH. reflexivity. Qed.

(** ** Membership in the sets of the pattern *)

Lemma existsb_lits c l : existsb (Re.item_mem c) (lits l) = existsb (Ascii.eqb c) l.
Proof. induction l as [|d l IH]; simpl; [reflexivity|]. rewrite IH. reflexivity. Qed.

Lemma mem_set_of l c : Re.cs_mem (set_of l) c = existsb (Ascii.eqb c) l.
Proof. unfold Re.cs_mem, set_of. simpl. apply existsb_lits. Qed.

Lemma mem_set_not l c : Re.cs_mem (set_not l) c = negb (existsb (Ascii.eqb c) l).
Proof. unfold Re.cs_mem, set_not. simpl. rewrite existsb_lits. reflexivity. Qed.

Lemma mem_lead a c : Re.cs_mem (lead_set a) c = Re.isspace c || is_sep a c.
Proof. unfold Re.cs_mem, lead_set. simpl. rewrite existsb_lits. reflexivity. Qed.

Lemma mem_lit i c : Re.cs_mem {| Re.negate := false; Re.items := [Re.Lit i] |} c = Ascii.eqb c i.
Proof. unfold Re.cs_mem. simpl. apply orb_false_r. Qed.

Lemma mem_not_lit i c : Re.cs_mem (set_not [i]) c = negb (Ascii.eqb c i).
Proof. rewrite mem_set_not. simpl. rewrite orb_false_r. reflexivity. Qed.

Lemma stops_suffix (p : ascii -> bool) u s :
  forallb (fun c => negb (p c)) s = true -> u `suffix_of` s -> stops p u.
Proof.
  intros Hs [v ->]. rewrite forallb_app in Hs. apply andb_true_iff in Hs as [_ Hu].
  destruct u as [|c u]; simpl in *; [exact I|].
  apply andb_true_iff in Hu as [Hc _]. apply negb_true_iff in Hc. exact Hc.
Qed.

(** ** The alternatives of the group *)

Section Alternatives.

Context {R : Type}.
Implicit Types (k : str -> str -> option R).

Ltac unfold_seq :=
  cbn [Re.mk_seq fold_right Re.rmatch quoted bare Re.lit Re.atom Re.one app].

Lemma quoted_fail_head j s g k :
  stops (fun c => Ascii.eqb c j) s -> Re.rmatch (Re.mk_seq (quoted j)) s g k = None.
Proof.
  intros Hs. destruct s as [|c s]; [reflexivity|]. simpl in Hs.
  unfold_seq. rewrite mem_lit, Hs. reflexivity.
Qed.

Lemma quoted_fail_open i body g k :
  forallb (fun c => negb (Ascii.eqb c i)) body = true ->
  Re.rmatch (Re.mk_seq (quoted i)) (i :: body) g k = None.
Proof.
  intros Hb. unfold_seq. rewrite mem_lit, Ascii.eqb_refl.
  apply (one_fail (set_not [i])). intros u Hu. apply star_fail. intros v Hv.
  assert (Hs : stops (fun c => Ascii.eqb c i) v).
  { eapply stops_suffix; [exact Hb|]. etransitivity; eassumption. }
  destruct v as [|c v]; [reflexivity|]. simpl in Hs.
  unfold_seq. rewrite mem_lit, Hs. reflexivity.
Qed.

Lemma quoted_ok i body u g k x :
  body <> [] -> forallb (fun c => negb (Ascii.eqb c i)) body = true ->
  k u g = Some x ->
  Re.rmatch (Re.mk_seq (quoted i)) (i :: body ++ i :: u) g k = Some x.
Proof.
  intros Hne Hb Hk. destruct body as [|c body]; [congruence|].
  simpl in Hb. apply andb_true_iff in Hb as [Hc Hb].
  unfold_seq. rewrite mem_lit, Ascii.eqb_refl, mem_not_lit, Hc.
  apply star_run.
  - rewrite <- Hb. apply forallb_ext. intros d. apply mem_not_lit.
  - simpl. rewrite mem_not_lit, Ascii.eqb_refl. reflexivity.
  - unfold_seq. rewrite mem_lit, Ascii.eqb_refl. exact Hk.
Qed.

Lemma bare_ok a t u g k x :
  t <> [] -> forallb (fun c => negb (is_sep a c)) t = true -> stops (fun c => negb (is_sep a c)) u ->
  k u g = Some x ->
  Re.rmatch (Re.mk_seq [bare a]) (t ++ u) g k = Some x.
Proof.
  intros Hne Ht Hu Hk. destruct t as [|c t]; [congruence|].
  simpl in Ht. apply andb_true_iff in Ht as [Hc Ht].
  unfold_seq. rewrite mem_set_not. fold (is_sep a c). rewrite Hc.
  apply star_run.
  - rewrite <- Ht. apply forallb_ext. intros d. apply mem_set_not.
  - destruct u as [|d u]; simpl in *; [exact I|]. rewrite mem_set_not. exact Hu.
  - exact Hk.
Qed.

Lemma bare_fail a s g k :
  stops (fun c => negb (is_sep a c)) s -> Re.rmatch (Re.mk_seq [bare a]) s g k = None.
Proof.
  intros Hs. destruct s as [|c s]; [reflexivity|]. simpl in Hs.
  unfold_seq. rewrite mem_set_not. fold (is_sep a c). rewrite Hs. reflexivity.
Qed.

(** The marker in front of an alternative. *)
Lemma prefix_skip m rs s g k :
  stops (Re.cs_mem m) s ->
  Re.rmatch (Re.mk_seq (Re.Atom m Re.Opt :: rs)) s g k = Re.rmatch (Re.mk_seq rs) s g k.
Proof.
  intros Hs. destruct s as [|c s]; [reflexivity|]. simpl in Hs.
  cbn [Re.mk_seq fold_right Re.rmatch Re.atom Re.one]. rewrite Hs. reflexivity.
Qed.

Lemma prefix_fail m rs s g k :
  stops (Re.cs_mem m) s ->
  Re.rmatch (Re.mk_seq (Re.Atom m Re.One :: rs)) s g k = None.
Proof.
  intros Hs. destruct s as [|c s]; [reflexivity|]. simpl in Hs.
  cbn [Re.mk_seq fold_right Re.rmatch Re.atom Re.one]. rewrite Hs. reflexivity.
Qed.

Lemma prefix_any_fail m q rs s g k :
  (forall u, u `suffix_of` s -> Re.rmatch (Re.mk_seq rs) u g k = None) ->
  Re.rmatch (Re.mk_seq (Re.Atom m q :: rs)) s g k = None.
Proof.
  intros H. cbn [Re.mk_seq fold_right Re.rmatch]. apply atom_fail. exact H.
Qed.

End Alternatives.

Lemma marker_items_cases a :
  marker_items a = [] \/
  marker_items a = [Re.Atom (set_of (omap id (default [] (groups a))))
                            (if optional_marker a then Re.Opt else Re.One)].
Proof.
  unfold marker_items, optional_marker. destruct (groups a) as [[|g0 g]|]; auto.
Qed.

Lemma mem_markers a c : Re.cs_mem (set_of (omap id (default [] (groups a)))) c = is_marker a c.
Proof. apply mem_set_of. Qed.

Lemma stops_ext (p q : ascii -> bool) s : (forall c, p c = q c) -> stops p s -> stops q s.
Proof. intros H. destruct s; simpl; [auto|]. rewrite H. auto. Qed.

Section Choice.

Context {R : Type}.
Implicit Types (k : str -> str -> option R).

Lemma first_alt m b l s g k :
  Re.rmatch (Re.mk_alt (map Re.mk_seq (with_prefix m (b :: l)))) s g k =
  match Re.rmatch (Re.mk_seq (m ++ b)) s g k with
  | Some x => Some x
  | None => Re.rmatch (Re.mk_alt (map Re.mk_seq l)) s g k
  end.
Proof. reflexivity. Qed.

Lemma alts_skip (q : str) l s g k :
  (forall j, In j q -> Re.rmatch (Re.mk_seq (quoted j)) s g k = None) ->
  Re.rmatch (Re.mk_alt (map Re.mk_seq (map quoted q ++ l))) s g k =
  Re.rmatch (Re.mk_alt (map Re.mk_seq l)) s g k.
Proof.
  induction q as [|j q IH]; intros H; [reflexivity|].
  cbn [map app Re.mk_alt fold_right Re.rmatch].
  change (Re.Seq (Re.lit j) _) with (Re.mk_seq (quoted j)).
  rewrite H by (left; reflexivity). apply IH. intros i Hi. apply H. right. exact Hi.
Qed.

Lemma last_alt b s g k x :
  Re.rmatch (Re.mk_seq b) s g k = Some x ->
  Re.rmatch (Re.mk_alt (map Re.mk_seq (b :: []))) s g k = Some x.
Proof. intros H. cbn [map Re.mk_alt fold_right Re.rmatch]. rewrite H. reflexivity. Qed.

Lemma prefixed_fail a b s g k :
  stops (is_marker a) s ->
  Re.rmatch (Re.mk_seq b) s g k = None ->
  Re.rmatch (Re.mk_seq (marker_items a ++ b)) s g k = None.
Proof.
  intros Hs Hb. destruct (marker_items_cases a) as [-> | ->]; [exact Hb|].
  assert (Hm : stops (Re.cs_mem (set_of (omap id (default [] (groups a))))) s).
  { eapply stops_ext; [|exact Hs]. intros c. symmetry. apply mem_markers. }
  cbn [app]. destruct (optional_marker a).
  - rewrite prefix_skip by assumption. exact Hb.
  - apply prefix_fail. assumption.
Qed.

Lemma prefixed_ok a b s g k :
  optional_marker a = true -> stops (is_marker a) s ->
  Re.rmatch (Re.mk_seq (marker_items a ++ b)) s g k = Re.rmatch (Re.mk_seq b) s g k.
Proof.
  intros Ho Hs. destruct (marker_items_cases a) as [-> | ->]; [reflexivity|].
  rewrite Ho. cbn [app]. apply prefix_skip.
  eapply stops_ext; [|exact Hs]. intros c. symmetry. apply mem_markers.
Qed.

(** A bare run is matched when no quoted alternative applies. *)
Lemma choice_bare a t u g k x :
  t <> [] ->
  forallb (fun c => negb (is_sep a c)) t = true ->
  stops (fun c => negb (is_sep a c)) u ->
  stops (is_marker a) t ->
  (forall j, In j (default [] (quotes a)) ->
             Re.rmatch (Re.mk_seq (quoted j)) (t ++ u) g k = None) ->
  default [] (quotes a) <> [] \/ optional_marker a = true ->
  k u g = Some x ->
  Re.rmatch (choice a) (t ++ u) g k = Some x.
Proof.
  intros Hne Ht Hu Hm Hq Hreach Hk. unfold choice, alternatives.
  assert (Hm' : stops (is_marker a) (t ++ u)).
  { destruct t; [congruence|exact Hm]. }
  destruct (default [] (quotes a)) as [|i q].
  - destruct Hreach as [?|Ho]; [congruence|].
    cbn [map app]. rewrite first_alt, prefixed_ok by assumption.
    erewrite bare_ok by eassumption. reflexivity.
  - cbn [map app]. rewrite first_alt, prefixed_fail; [|assumption|apply Hq; left; reflexivity].
    rewrite alts_skip by (intros j Hj; apply Hq; right; exact Hj).
    apply last_alt. eapply bare_ok; eassumption.
Qed.

(** A quoted span is matched by the alternative of its quote. *)
Lemma choice_quoted a i body u g k x :
  In i (default [] (quotes a)) ->
  optional_marker a = true -> is_marker a i = false ->
  body <> [] -> forallb (fun c => negb (Ascii.eqb c i)) body = true ->
  k u g = Some x ->
  Re.rmatch (choice a) (i :: body ++ i :: u) g k = Some x.
Proof.
  intros Hi Ho Hm Hne Hb Hk. unfold choice, alternatives.
  apply list_elem_of_In, list_elem_of_split_l in Hi as (q1 & q2 & -> & Hq1).
  assert (Hhead : forall j, In j q1 ->
    Re.rmatch (Re.mk_seq (quoted j)) (i :: body ++ i :: u) g k = None).
  { intros j Hj. apply quoted_fail_head. simpl.
    apply Ascii.eqb_neq. intros ->. apply Hq1, list_elem_of_In, Hj. }
  rewrite map_app. cbn [map]. rewrite <- app_assoc. cbn [app].
  destruct q1 as [|j q1].
  - cbn [map app]. rewrite first_alt, prefixed_ok by assumption.
    erewrite quoted_ok by eassumption. reflexivity.
  - cbn [map app]. rewrite first_alt, prefixed_fail;
      [|exact Hm|apply Hhead; left; reflexivity].
    rewrite alts_skip by (intros j' Hj'; apply Hhead; right; exact Hj').
    cbn [map Re.mk_alt fold_right Re.rmatch].
    change (Re.Seq (Re.lit i) _) with (Re.mk_seq (quoted i)).
    erewrite quoted_ok by eassumption. reflexivity.
Qed.

(** Nothing is matched inside a run of separators. *)
Lemma choice_fail a s g k :
  forallb (is_sep a) s = true ->
  (forall c, In c s -> is_quote a c = false) ->
  Re.rmatch (choice a) s g k = None.
Proof.
  intros Hs Hq. unfold choice, alternatives.
  assert (Hsuf : forall u, u `suffix_of` s ->
    (forall j, In j (default [] (quotes a)) -> Re.rmatch (Re.mk_seq (quoted j)) u g k = None)
    /\ Re.rmatch (Re.mk_seq [bare a]) u g k = None).
  { intros u [v ->]. split.
    - intros j Hj. apply quoted_fail_head. destruct u as [|c u]; simpl; [exact I|].
      apply Ascii.eqb_neq. intros ->.
      assert (is_quote a j = false) as E by (apply Hq, in_or_app; right; left; reflexivity).
      unfold is_quote in E. rewrite <- not_true_iff_false in E. apply E.
      apply existsb_exists. exists j. split; [exact Hj|apply Ascii.eqb_refl].
    - apply bare_fail. rewrite forallb_app in Hs. apply andb_true_iff in Hs as [_ Hu].
      destruct u as [|c u]; simpl in *; [exact I|].
      apply andb_true_iff in Hu as [-> _]. reflexivity. }
  assert (Hfirst : forall b, (forall u, u `suffix_of` s -> Re.rmatch (Re.mk_seq b) u g k = None) ->
    Re.rmatch (Re.mk_seq (marker_items a ++ b)) s g k = None).
  { intros b Hb. destruct (marker_items_cases a) as [-> | ->].
    - apply Hb. reflexivity.
    - apply prefix_any_fail. exact Hb. }
  destruct (default [] (quotes a)) as [|i q].
  - cbn [map app]. rewrite first_alt, Hfirst; [reflexivity|].
    intros u Hu. apply Hsuf, Hu.
  - cbn [map app]. rewrite first_alt, Hfirst.
    + rewrite alts_skip.
      * cbn [map Re.mk_alt fold_right Re.rmatch].
        change (Re.Seq (bare a) Re.Eps) with (Re.mk_seq [bare a]).
        destruct (Hsuf s) as [_ ->]; reflexivity.
      * intros j Hj. apply (Hsuf s); [reflexivity|right; exact Hj].
    + intros u Hu. apply (Hsuf u Hu). left. reflexivity.
Qed.

End Choice.

(** ** One match of the whole pattern, and [findall] *)

Lemma match_here_unfold a adv s :
  Re.match_here (regex_of a) adv s =
  Re.star (lead_set a) s (fun s1 =>
    Re.rmatch (choice a) s1 [] (fun s2 _ =>
      Re.star (set_of (separators a)) s2 (fun s3 =>
        if adv && (length s - length s3 =? 0) then None
        else Some (take (length s1 - length s2) s1, length s - length s3)))).
Proof.
  unfold Re.match_here, regex_of.
  cbn [Re.mk_alt Re.mk_seq fold_right Re.rmatch lead trail token Re.atom].
  match goal with |- match ?o with _ => _ end = _ => destruct o; reflexivity end.
Qed.

Lemma match_here_token a adv l t z r :
  forallb (is_lead a) l = true -> t <> [] -> stops (is_lead a) t ->
  (forall g (k : str -> str -> option (str * nat)) x,
     k (z ++ r) g = Some x -> Re.rmatch (choice a) (t ++ z ++ r) g k = Some x) ->
  forallb (is_sep a) z = true -> stops (is_sep a) r ->
  Re.match_here (regex_of a) adv (l ++ t ++ z ++ r)
  = Some (t, length l + length t + length z).
Proof.
  intros Hl Hne Ht Hc Hz Hr. rewrite match_here_unfold.
  apply star_run.
  - rewrite <- Hl. apply forallb_ext. intros c. apply mem_lead.
  - destruct t as [|c t]; [congruence|]. simpl in *. rewrite mem_lead. exact Ht.
  - apply Hc. apply star_run.
    + rewrite <- Hz. apply forallb_ext. intros c. apply mem_set_of.
    + eapply stops_ext; [|exact Hr]. intros c. symmetry. apply mem_set_of.
    + rewrite !length_app.
      replace (length l + (length t + (length z + length r)) - length r)
        with (length l + length t + length z) by lia.
      replace (length t + (length z + length r) - (length z + length r))
        with (length t) by lia.
      rewrite take_app_length.
      destruct t; [congruence|]. simpl.
      replace (length l + S (length t) + length z) with (S (length l + length t + length z)) by lia.
      simpl. rewrite andb_false_r. reflexivity.
Qed.

Lemma scan_skip re n : forall s,
  n <= length s -> Re.scan re s n = Re.scan re (drop n s) 0.
Proof.
  induction n as [|n IH]; intros s Hn; [reflexivity|].
  destruct s as [|c s]; simpl in Hn; [lia|].
  cbn [Re.scan drop]. apply IH. lia.
Qed.

Lemma findall_match re s g n :
  Re.match_here re false s = Some (g, S n) -> S n <= length s ->
  Re.findall re s = g :: Re.findall re (drop (S n) s).
Proof.
  intros Hm Hn. unfold Re.findall. destruct s as [|c s]; simpl in Hn; [lia|].
  cbn [Re.scan]. rewrite Hm. f_equal. cbn [drop]. apply scan_skip. lia.
Qed.

Lemma findall_no_match re c s :
  Re.match_here re false (c :: s) = None ->
  Re.findall re (c :: s) = Re.findall re s.
Proof. intros Hm. unfold Re.findall. cbn [Re.scan]. rewrite Hm. reflexivity. Qed.

Lemma findall_token a l t z r :
  forallb (is_lead a) l = true -> t <> [] -> stops (is_lead a) t ->
  (forall g (k : str -> str -> option (str * nat)) x,
     k (z ++ r) g = Some x -> Re.rmatch (choice a) (t ++ z ++ r) g k = Some x) ->
  forallb (is_sep a) z = true -> stops (is_sep a) r ->
  Re.findall (regex_of a) (l ++ t ++ z ++ r) = t :: Re.findall (regex_of a) r.
Proof.
  intros Hl Hne Ht Hc Hz Hr.
  pose proof (match_here_token a false l t z r Hl Hne Ht Hc Hz Hr) as Hm.
  destruct t as [|c t]; [congruence|].
  replace (length l + length (c :: t) + length z)
    with (S (length l + length t + length z)) in Hm by (simpl; lia).
  rewrite (findall_match _ _ _ _ Hm) by (rewrite !length_app; simpl; lia).
  f_equal. f_equal.
  replace (S (length l + length t + length z)) with (length (l ++ (c :: t) ++ z))
    by (rewrite !length_app; simpl; lia).
  rewrite !app_assoc. rewrite <- (app_assoc l). apply drop_app_length.
Qed.

Lemma match_here_separators a adv s :
  forallb (is_sep a) s = true ->
  (forall c, In c s -> is_quote a c = false) ->
  Re.match_here (regex_of a) adv s = None.
Proof.
  intros Hs Hq. rewrite match_here_unfold. apply star_fail. intros u [v ->].
  rewrite forallb_app in Hs. apply andb_true_iff in Hs as [_ Hu].
  apply choice_fail; [exact Hu|]. intros c Hc. apply Hq, in_or_app. right. exact Hc.
Qed.

Lemma findall_separators a s :
  forallb (is_sep a) s = true ->
  (forall c, In c s -> is_quote a c = false) ->
  Re.findall (regex_of a) s = [].
Proof.
  induction s as [|c s IH]; intros Hs Hq.
  - unfold Re.findall. cbn [Re.scan]. rewrite match_here_separators by assumption. reflexivity.
  - rewrite findall_no_match by (apply match_here_separators; assumption).
    simpl in Hs. apply andb_true_iff in Hs as [_ Hs].
    apply IH; [exact Hs|]. intros d Hd. apply Hq. right. exact Hd.
Qed.

Section Words.

Variable p : ascii -> bool.

Lemma break_on_runs_cons s b : exists x l, break_on_runs p s b = x :: l.
Proof.
  revert b. induction s as [|c s IH]; intros b; simpl; eauto.
  destruct (p c).
  - destruct b; eauto.
  - destruct (IH false) as (x & l & ->). eauto.
Qed.

Lemma words_flag s :
  filter (fun q => nonempty q = true) (break_on_runs p s true) = words p s.
Proof.
  unfold words. destruct s as [|c s]; simpl; [reflexivity|].
  destruct (p c); reflexivity.
Qed.

Lemma words_sep c s : p c = true -> words p (c :: s) = words p s.
Proof. intros Hc. unfold words at 1. simpl. rewrite Hc. simpl. apply words_flag. Qed.

Lemma words_seps l s : forallb p l = true -> words p (l ++ s) = words p s.
Proof.
  induction l as [|c l IH]; simpl; [reflexivity|].
  intros H. apply andb_true_iff in H as [Hc Hl]. rewrite words_sep by assumption. auto.
Qed.

Lemma words_nil : words p [] = [].
Proof. reflexivity. Qed.

Lemma break_run t u :
  forallb (fun c => negb (p c)) t = true ->
  break_on_runs p (t ++ u) false =
  match break_on_runs p u false with
  | x :: l => (t ++ x) :: l
  | [] => [t]
  end.
Proof.
  induction t as [|c t IH]; simpl; intros Ht.
  - destruct (break_on_runs_cons u false) as (x & l & ->). reflexivity.
  - apply andb_true_iff in Ht as [Hc Ht]. apply negb_true_iff in Hc. rewrite Hc.
    rewrite IH by assumption.
    destruct (break_on_runs_cons u false) as (x & l & ->). reflexivity.
Qed.

Lemma words_run t u :
  t <> [] -> forallb (fun c => negb (p c)) t = true -> stops (fun c => negb (p c)) u ->
  words p (t ++ u) = t :: words p u.
Proof.
  intros Hne Ht Hu. unfold words. rewrite break_run by assumption.
  destruct u as [|c u]; simpl in *.
  - rewrite app_nil_r. destruct t; [congruence|]. reflexivity.
  - apply negb_false_iff in Hu. rewrite Hu. rewrite app_nil_r.
    rewrite filter_cons_True by (destruct t; [congruence|reflexivity]).
    rewrite filter_cons_False by (simpl; congruence). reflexivity.
Qed.

End Words.

Lemma forallb_suffix {A} (f : A -> bool) u s :
  forallb f s = true -> u `suffix_of` s -> forallb f u = true.
Proof. intros Hs [v ->]. rewrite forallb_app in Hs. apply andb_true_iff in Hs. tauto. Qed.

Lemma clean_head a c s :
  clean a (c :: s) = true ->
  is_quote a c = false /\ is_marker a c = false /\ (is_sep a c = false -> is_lead a c = false).
Proof.
  unfold clean. simpl. intros H. apply andb_true_iff in H as [H _].
  apply andb_true_iff in H as [H Hw]. apply andb_true_iff in H as [Hq Hm].
  apply negb_true_iff in Hq, Hm. repeat split; try assumption.
  intros Hs. unfold is_lead. rewrite Hs in *. rewrite orb_false_r in *.
  apply negb_true_iff in Hw. exact Hw.
Qed.

Lemma clean_no_quote a s c : clean a s = true -> In c s -> is_quote a c = false.
Proof.
  unfold clean. rewrite forallb_forall. intros H Hc. specialize (H c Hc).
  apply andb_true_iff in H as [H _]. apply andb_true_iff in H as [Hq _].
  apply negb_true_iff in Hq. exact Hq.
Qed.

Lemma not_quote_head a c j : is_quote a c = false -> In j (default [] (quotes a)) -> Ascii.eqb c j = false.
Proof.
  unfold is_quote. intros H Hj. eapply existsb_eqb_false; eassumption.
Qed.

Lemma sep_is_lead a l : forallb (is_sep a) l = true -> forallb (is_lead a) l = true.
Proof.
  rewrite !forallb_forall. intros H c Hc. unfold is_lead. rewrite (H c Hc). apply orb_true_r.
Qed.

(** On a clean input [findall] returns the words between the separators. *)
Lemma findall_words a : forall n s,
  length s <= n -> clean a s = true -> bare_reachable a = true ->
  Re.findall (regex_of a) s = words (is_sep a) s.
Proof.
  induction n as [|n IH]; intros s Hn Hc Hr.
  - destruct s; simpl in Hn; [|lia]. apply findall_separators; [reflexivity|intros c []].
  - rewrite <- (take_drop_run (is_sep a) s) at 1 2.
    pose proof (take_run_all (is_sep a) s) as Hl.
    pose proof (drop_run_stops (is_sep a) s) as Hs1.
    assert (Hc1 : clean a (drop_run (is_sep a) s) = true).
    { eapply forallb_suffix; [exact Hc|]. exists (take_run (is_sep a) s).
      symmetry. apply take_drop_run. }
    rewrite words_seps by assumption.
    destruct (drop_run (is_sep a) s) as [|c s1] eqn:E.
    + rewrite app_nil_r. apply findall_separators; [assumption|].
      intros c Hin. eapply clean_no_quote; [exact Hc|].
      rewrite <- (take_drop_run (is_sep a) s), E, app_nil_r. exact Hin.
    + simpl in Hs1.
      destruct (clean_head a c s1 Hc1) as (Hq & Hm & Hlead). specialize (Hlead Hs1).
      set (np := fun c => negb (is_sep a c)).
      assert (Hnp : np c = true) by (unfold np; rewrite Hs1; reflexivity).
      rewrite <- (take_drop_run np (c :: s1)).
      set (t := take_run np (c :: s1)). set (s2 := drop_run np (c :: s1)).
      assert (Ht : t <> []) by (apply take_run_nonempty; exact Hnp).
      assert (Hhd : exists t', t = c :: t').
      { unfold t. simpl. rewrite Hnp. eauto. }
      destruct Hhd as [t' Et].
      assert (Hs2 : stops np s2) by apply drop_run_stops.
      rewrite <- (take_drop_run (is_sep a) s2).
      assert (Hlen : length (drop_run (is_sep a) s2) <= n).
      { pose proof (drop_run_length (is_sep a) s2).
        pose proof (f_equal (@length ascii) (take_drop_run np (c :: s1))) as E2.
        fold t s2 in E2. rewrite length_app in E2.
        pose proof (f_equal (@length ascii) (take_drop_run (is_sep a) s)) as E3.
        rewrite E, length_app in E3. rewrite Et in E2. simpl in *. lia. }
      assert (Hcr : clean a (drop_run (is_sep a) s2) = true).
      { eapply forallb_suffix; [exact Hc1|].
        exists (t ++ take_run (is_sep a) s2).
        rewrite <- app_assoc, take_drop_run. symmetry. apply take_drop_run. }
      rewrite findall_token.
      * rewrite take_drop_run. rewrite words_run; [|assumption|apply take_run_all|assumption].
        f_equal. rewrite <- (take_drop_run (is_sep a) s2) at 2.
        rewrite words_seps by apply take_run_all. apply IH; assumption.
      * apply sep_is_lead, Hl.
      * exact Ht.
      * rewrite Et. simpl. exact Hlead.
      * intros g k x Hk. rewrite take_drop_run in *.
        apply choice_bare; try assumption.
        -- apply take_run_all.
        -- rewrite Et. simpl. exact Hm.
        -- intros j Hj. apply quoted_fail_head. rewrite Et. simpl.
           eapply not_quote_head; eassumption.
        -- unfold bare_reachable in Hr. apply orb_true_iff in Hr as [Hr|Hr]; [left|right; exact Hr].
           destruct (default [] (quotes a)); [discriminate|congruence].
      * apply take_run_all.
      * apply drop_run_stops.
Qed.

(** ** What [__init__] stores *)

Lemma init_inv a p :
  plain a = true -> init a = Ok p ->
  separators a <> [] /\ groups a = Some (self_groups p) /\
  p = {| self_pattern := pattern a;
         self_regex := regex_of a;
         self_groups := self_groups p;
         self_group := match group a with GTrue => GDict | x => x end;
         self_normalize := normalize a;
         self_sort := sort a;
         self_result := result a |}.
Proof.
  intros Hp Hi. unfold init in Hi.
  destruct (separators a) as [|c l] eqn:Es.
  - rewrite compile_no_separators in Hi by assumption. discriminate.
  - rewrite compile_pattern in Hi by (assumption || congruence). cbn [bind] in Hi.
    destruct (groups a) as [g|]; cbn [bind] in Hi; [|discriminate].
    inversion Hi; subst; clear Hi. cbn. auto.
Qed.

Lemma init_ok a g :
  plain a = true -> separators a <> [] -> groups a = Some g ->
  init a = Ok {| self_pattern := pattern a;
                 self_regex := regex_of a;
                 self_groups := g;
                 self_group := match group a with GTrue => GDict | x => x end;
                 self_normalize := normalize a;
                 self_sort := sort a;
                 self_result := result a |}.
Proof.
  intros Hp Hs Hg. unfold init. rewrite compile_pattern by assumption.
  rewrite Hg. reflexivity.
Qed.

(** ** Sorting *)

Lemma str_leb_total a : forall b, str_leb a b = false -> str_leb b a = true.
Proof.
  induction a as [|x a IH]; intros [|y b]; simpl; try congruence.
  destruct (nat_of_ascii x <? nat_of_ascii y) eqn:E1; [congruence|].
  destruct (nat_of_ascii y <? nat_of_ascii x) eqn:E2; [reflexivity|].
  apply IH.
Qed.

Lemma insert_sorted_ordered x l : ordered l -> ordered (insert_sorted x l).
Proof.
  induction l as [|y l IH]; intros Hl; simpl; [exact I|].
  destruct (str_leb x y) eqn:E.
  - simpl. auto.
  - apply str_leb_total in E.
    destruct l as [|z l]; simpl in *.
    + auto.
    + destruct Hl as [Hyz Hl]. specialize (IH Hl).
      destruct (str_leb x z) eqn:E2; simpl; auto.
Qed.

Lemma sorted_ordered l : ordered (sorted l).
Proof. induction l as [|x l IH]; simpl; [exact I|]. apply insert_sorted_ordered, IH. Qed.



Lemma insert_sorted_In x y l : In y (insert_sorted x l) <-> y = x \/ In y l.
Proof.
  induction l as [|z l IH]; simpl; [intuition|].
  destruct (str_leb x z); simpl; [intuition|]. rewrite IH. intuition.
Qed.

Lemma sorted_In y l : In y (sorted l) <-> In y l.
Proof.
  induction l as [|x l IH]; [reflexivity|].
  cbn [sorted fold_right]. fold (sorted l). rewrite insert_sorted_In, IH. simpl. intuition.
Qed.

(** ** The buckets *)

Lemma bucket_of_nil gs g : bucket_of gs [] g = [].
Proof. destruct g as [m|]; simpl; [destruct (bool_decide _)|]; reflexivity. Qed.

Lemma bucket_of_cons gs i ts g :
  bucket_of gs (i :: ts) g = bucket_of gs [i] g ++ bucket_of gs ts g.
Proof.
  destruct g as [m|]; simpl.
  - destruct (bool_decide (Some m ∈ gs)); [|reflexivity].
    rewrite (filter_cons _ i ts), (filter_cons _ i []).
    destruct (decide (head i = Some m)); reflexivity.
  - rewrite (filter_cons _ i ts), (filter_cons _ i []).
    destruct (decide (marked gs i = false)); reflexivity.
Qed.

Lemma place_spec (gs : list (option ascii)) (d d' : buckets) (i : str) :
  place gs d i = Ok d' ->
  (forall g, d' !!! g = d !!! g ++ bucket_of gs [i] g) /\
  (forall g, is_Some (d !! g) -> is_Some (d' !! g)) /\
  (forall g, is_Some (d' !! g) -> is_Some (d !! g) \/ In g gs \/ g = None).
Proof.
  unfold place. destruct i as [|c t]; [discriminate|].
  case_bool_decide as Hc; intros [= <-].
  - split; [|split].
    + intros g. destruct (decide (g = Some c)) as [->|Hne].
      * rewrite lookup_total_insert_eq. simpl. rewrite bool_decide_true by assumption.
        rewrite (filter_cons_True _ (c :: t) []) by reflexivity. reflexivity.
      * rewrite lookup_total_insert_ne by congruence.
        destruct g as [m|]; simpl.
        -- destruct (bool_decide (Some m ∈ gs)); [|rewrite app_nil_r; reflexivity].
           rewrite (filter_cons_False _ (c :: t) []) by (simpl; congruence).
           rewrite app_nil_r. reflexivity.
        -- rewrite (filter_cons_False _ (c :: t) []).
           ++ rewrite app_nil_r. reflexivity.
           ++ simpl. rewrite bool_decide_true by assumption. congruence.
    + intros g Hg. destruct (decide (g = Some c)) as [->|Hne].
      * rewrite lookup_insert_eq. eauto.
      * rewrite lookup_insert_ne by congruence. exact Hg.
    + intros g Hg. destruct (decide (g = Some c)) as [->|Hne].
      * right. left. apply list_elem_of_In. exact Hc.
      * rewrite lookup_insert_ne in Hg by congruence. left. exact Hg.
  - split; [|split].
    + intros g. destruct (decide (g = None)) as [->|Hne].
      * rewrite lookup_total_insert_eq. simpl. 
        rewrite (filter_cons_True _ (c :: t) []); [reflexivity|].
        simpl. rewrite bool_decide_false by assumption. reflexivity.
      * rewrite lookup_total_insert_ne by congruence.
        destruct g as [m|]; [|congruence]. simpl.
        destruct (bool_decide (Some m ∈ gs)) eqn:E; [|rewrite app_nil_r; reflexivity].
        rewrite (filter_cons_False _ (c :: t) []).
        -- rewrite app_nil_r. reflexivity.
        -- simpl. intros [= ->]. apply bool_decide_eq_true in E. contradiction.
    + intros g Hg. destruct (decide (g = None)) as [->|Hne].
      * rewrite lookup_insert_eq. eauto.
      * rewrite lookup_insert_ne by congruence. exact Hg.
    + intros g Hg. destruct (decide (g = None)) as [->|Hne].
      * right. right. reflexivity.
      * rewrite lookup_insert_ne in Hg by congruence. left. exact Hg.
Qed.

Lemma fill_spec (gs : list (option ascii)) (ts : list str) : forall (d d' : buckets),
  fill gs d ts = Ok d' ->
  (forall g, d' !!! g = d !!! g ++ bucket_of gs ts g) /\
  (forall g, is_Some (d !! g) -> is_Some (d' !! g)) /\
  (forall g, is_Some (d' !! g) -> is_Some (d !! g) \/ In g gs \/ g = None).
Proof.
  induction ts as [|i ts IH]; intros d d' Hf.
  - simpl in Hf. inversion Hf; subst. split; [|split]; auto.
    intros g. rewrite bucket_of_nil, app_nil_r. reflexivity.
  - cbn [fill] in Hf. destruct (place gs d i) as [d1| |] eqn:Hp; cbn [bind] in Hf; try discriminate.
    apply place_spec in Hp as (P1 & P2 & P3). apply IH in Hf as (F1 & F2 & F3).
    split; [|split].
    + intros g. rewrite F1, P1, (bucket_of_cons gs i ts g), app_assoc. reflexivity.
    + auto.
    + intros g Hg. apply F3 in Hg as [Hg|Hg]; [apply P3 in Hg|]; tauto.
Qed.

Lemma fill_total (gs : list (option ascii)) (ts : list str) : forall d : buckets,
  Forall (fun i => i <> []) ts -> exists d', fill gs d ts = Ok d'.
Proof.
  induction ts as [|i ts IH]; intros d Hts; [simpl; eauto|].
  inversion Hts as [|? ? Hi Hts']; subst. cbn [fill].
  destruct i as [|c t]; [congruence|]. unfold place.
  destruct (bool_decide (Some c ∈ gs)); cbn [bind]; apply IH; assumption.
Qed.

Lemma fill_error (gs : list (option ascii)) (ts : list str) : forall d : buckets,
  In [] ts -> fill gs d ts = Raise IndexError.
Proof.
  induction ts as [|i ts IH]; intros d Hin; [destruct Hin|].
  cbn [fill]. destruct i as [|c t]; [reflexivity|].
  destruct Hin as [Hin|Hin]; [discriminate|].
  unfold place. destruct (bool_decide (Some c ∈ gs)); cbn [bind]; apply IH; assumption.
Qed.

Lemma foldl_insert_lookup (gs : list (option ascii)) : forall (d : buckets) g,
  foldl (fun d i => <[i := []]> d) d gs !! g =
  if bool_decide (g ∈ gs) then Some [] else d !! g.
Proof.
  induction gs as [|x gs IH]; intros d g; simpl; [reflexivity|].
  rewrite IH. destruct (decide (g ∈ gs)) as [Hin|Hnin].
  - rewrite !bool_decide_true; [reflexivity| |assumption]. right. assumption.
  - rewrite (bool_decide_false (g ∈ gs)) by assumption.
    destruct (decide (g = x)) as [->|Hne].
    + rewrite lookup_insert_eq, bool_decide_true; [reflexivity|left].
    + rewrite lookup_insert_ne by congruence. rewrite bool_decide_false; [reflexivity|].
      intros Hin. apply elem_of_cons in Hin as [?|?]; contradiction.
Qed.

Lemma empty_buckets_lookup (gs : list (option ascii)) g :
  empty_buckets gs !! g =
  if bool_decide (g ∈ gs) || bool_decide (g = None) then Some [] else None.
Proof.
  unfold empty_buckets. rewrite (foldl_insert_lookup gs ∅ None), lookup_empty.
  destruct (decide (None ∈ gs)) as [Hin|Hnin].
  - rewrite (bool_decide_true (None ∈ gs)) by assumption.
    rewrite foldl_insert_lookup, lookup_empty.
    destruct (decide (g ∈ gs)); [rewrite bool_decide_true by assumption; reflexivity|].
    rewrite (bool_decide_false (g ∈ gs)) by assumption.
    rewrite bool_decide_false; [reflexivity|]. intros ->. contradiction.
  - rewrite (bool_decide_false (None ∈ gs)) by assumption.
    destruct (decide (g = None)) as [->|Hne].
    + rewrite lookup_insert_eq, (bool_decide_true (None = None)) by reflexivity.
      rewrite orb_true_r. reflexivity.
    + rewrite lookup_insert_ne by congruence.
      rewrite foldl_insert_lookup, lookup_empty, (bool_decide_false (g = None)) by assumption.
      rewrite orb_false_r. reflexivity.
Qed.

(** The buckets once the loop is over. *)
Lemma fill_buckets (gs : list (option ascii)) (ts : list str) :
  Forall (fun i => i <> []) ts ->
  exists d : buckets,
    fill gs (empty_buckets gs) ts = Ok d /\
    forall g, d !! g = if bool_decide (g ∈ gs) || bool_decide (g = None)
                       then Some (bucket_of gs ts g) else None.
Proof.
  intros Hts. destruct (fill_total gs ts (empty_buckets gs) Hts) as [d Hd].
  exists d. split; [exact Hd|]. apply fill_spec in Hd as (F1 & F2 & F3).
  intros g. specialize (F1 g). specialize (F2 g). specialize (F3 g).
  pose proof (empty_buckets_lookup gs g) as He.
  destruct (bool_decide (g ∈ gs) || bool_decide (g = None)) eqn:E.
  - destruct F2 as [v Hv]; [rewrite He; eauto|].
    rewrite Hv. f_equal. apply lookup_total_correct in Hv. rewrite <- Hv, F1.
    erewrite lookup_total_correct by exact He. reflexivity.
  - destruct (d !! g) as [v|] eqn:Hv; [|reflexivity]. exfalso.
    apply orb_false_iff in E as [E1 E2].
    apply bool_decide_eq_false in E1, E2.
    destruct F3 as [[? F3]|[F3|F3]]; eauto.
    + rewrite He in F3. discriminate.
    + apply E1, list_elem_of_In, F3.
Qed.

(** ** Quoted tokens *)

Lemma findall_quoted a i l body rest :
  In i (default [] (quotes a)) ->
  optional_marker a = true -> is_marker a i = false -> is_lead a i = false ->
  forallb (is_lead a) l = true ->
  forallb (fun c => negb (Ascii.eqb c i)) body = true ->
  body <> [] ->
  Re.findall (regex_of a) (l ++ i :: body ++ i :: rest)
  = (i :: body ++ [i]) :: Re.findall (regex_of a) (drop_run (is_sep a) rest).
Proof.
  intros Hi Ho Hm Hlead Hl Hb Hne.
  rewrite <- (take_drop_run (is_sep a) rest) at 1.
  replace (l ++ i :: body ++ i :: take_run (is_sep a) rest ++ drop_run (is_sep a) rest)
    with (l ++ (i :: body ++ [i]) ++ take_run (is_sep a) rest ++ drop_run (is_sep a) rest)
    by (simpl; rewrite <- app_assoc; reflexivity).
  apply findall_token; try assumption.
  - discriminate.
  - intros g k x Hk.
    replace ((i :: body ++ [i]) ++ take_run (is_sep a) rest ++ drop_run (is_sep a) rest)
      with (i :: body ++ i :: take_run (is_sep a) rest ++ drop_run (is_sep a) rest)
      by (simpl; rewrite <- app_assoc; reflexivity).
    apply choice_quoted; assumption.
  - apply take_run_all.
  - apply drop_run_stops.
Qed.

Lemma findall_unterminated a i l body :
  In i (default [] (quotes a)) ->
  is_marker a i = false -> is_lead a i = false ->
  forallb (is_lead a) l = true ->
  forallb (fun c => negb (Ascii.eqb c i)) body = true ->
  Re.findall (regex_of a) (l ++ i :: body)
  = (i :: take_run (fun c => negb (is_sep a c)) body)
    :: Re.findall (regex_of a)
         (drop_run (is_sep a) (drop_run (fun c => negb (is_sep a c)) body)).
Proof.
  intros Hi Hm Hlead Hl Hb.
  set (np := fun c => negb (is_sep a c)).
  assert (Hsep : is_sep a i = false).
  { unfold is_lead in Hlead. apply orb_false_iff in Hlead. tauto. }
  set (s2 := drop_run np body).
  assert (E : i :: body = (i :: take_run np body) ++ take_run (is_sep a) s2 ++ drop_run (is_sep a) s2).
  { rewrite take_drop_run. simpl. unfold s2. rewrite take_drop_run. reflexivity. }
  rewrite E. apply findall_token; try assumption.
  - discriminate.
  - intros g k x Hk. rewrite take_drop_run in *.
    apply choice_bare; try assumption.
    + discriminate.
    + change (negb (is_sep a i) && forallb np (take_run np body) = true).
      rewrite Hsep. simpl. apply take_run_all.
    + apply drop_run_stops.
    + unfold s2. cbn [app]. rewrite take_drop_run.
      intros j Hj. destruct (Ascii.eqb i j) eqn:Eij.
      * apply Ascii.eqb_eq in Eij. subst j. apply quoted_fail_open. exact Hb.
      * apply quoted_fail_head. simpl. exact Eij.
    + left. destruct (default [] (quotes a)); [destruct Hi|discriminate].
  - apply take_run_all.
  - apply drop_run_stops.
Qed.

(** ** Joining and splitting again *)

Lemma break_on_runs_pieces (p : ascii -> bool) s : forall b x,
  In x (break_on_runs p s b) ->
  forallb (fun c => negb (p c)) x = true /\ (forall c, In c x -> In c s).
Proof.
  induction s as [|c s IH]; intros b x Hx; simpl in Hx.
  - destruct Hx as [<-|[]]. split; [reflexivity|intros c []].
  - destruct (p c) eqn:Ec.
    + assert (Hx' : x = [] \/ In x (break_on_runs p s true)).
      { destruct b; [right; exact Hx|]. destruct Hx as [<-|Hx]; auto. }
      destruct Hx' as [->|Hx']; [split; [reflexivity|intros d []]|].
      destruct (IH true x Hx') as [H1 H2]. split; [exact H1|]. intros d Hd. right. auto.
    + destruct (break_on_runs p s false) as [|y l] eqn:Eb.
      * destruct Hx as [<-|[]]. simpl. rewrite Ec. split; [reflexivity|].
        intros d [<-|[]]. left. reflexivity.
      * destruct Hx as [<-|Hx].
        -- destruct (IH false y) as [H1 H2]; [rewrite Eb; left; reflexivity|].
           simpl. rewrite Ec, H1. split; [reflexivity|].
           intros d [<-|Hd]; [left; reflexivity|right; auto].
        -- destruct (IH false x) as [H1 H2]; [rewrite Eb; right; exact Hx|].
           split; [exact H1|]. intros d Hd. right. auto.
Qed.



Lemma join_head c0 t l : exists r, join [c0] (t :: l) = t ++ r.
Proof.
  destruct l as [|t' l]; simpl.
  - exists []. rewrite app_nil_r. reflexivity.
  - eauto.
Qed.



(** ** Tokens are never empty *)

Section Progress.

Context {R : Type}.

Lemma star_inv cs s (k : str -> option R) x :
  Re.star cs s k = Some x -> exists u, u `suffix_of` s /\ k u = Some x.
Proof.
  induction s as [|c s IH]; simpl; intros H.
  - exists []. split; [reflexivity|exact H].
  - destruct (Re.cs_mem cs c).
    + destruct (Re.star cs s k) as [y|] eqn:E.
      * inversion H; subst. destruct (IH eq_refl) as (u & Hu & Hk).
        exists u. split; [apply suffix_cons_r; exact Hu|exact Hk].
      * exists (c :: s). split; [reflexivity|exact H].
    + exists (c :: s). split; [reflexivity|exact H].
Qed.

Lemma one_inv cs s (k : str -> option R) x :
  Re.one cs s k = Some x ->
  exists u, u `suffix_of` s /\ length u < length s /\ k u = Some x.
Proof.
  destruct s as [|c s]; simpl; [discriminate|].
  destruct (Re.cs_mem cs c); [|discriminate]. intros H.
  exists s. split; [apply suffix_cons_r; reflexivity|]. split; [lia|exact H].
Qed.

Lemma atom_inv cs q s (k : str -> option R) x :
  Re.atom cs q s k = Some x -> exists u, u `suffix_of` s /\ k u = Some x.
Proof.
  destruct q; simpl; intros H.
  - apply one_inv in H as (u & Hu & _ & Hk). eauto.
  - destruct (Re.one cs s k) as [y|] eqn:E.
    + inversion H; subst. apply one_inv in E as (u & Hu & _ & Hk). eauto.
    + exists s. split; [reflexivity|exact H].
  - apply star_inv in H. exact H.
  - apply one_inv in H as (u & Hu & _ & Hk). apply star_inv in Hk as (v & Hv & Hk).
    exists v. split; [etransitivity; eassumption|exact Hk].
Qed.

Lemma one_first cs rs s g (k : str -> str -> option R) x :
  Re.rmatch (Re.mk_seq (Re.Atom cs Re.One :: rs)) s g k = Some x ->
  exists u, u `suffix_of` s /\ length u < length s /\
            Re.rmatch (Re.mk_seq rs) u g k = Some x.
Proof. cbn [Re.mk_seq fold_right Re.rmatch Re.atom]. apply one_inv. Qed.

End Progress.

Lemma rmatch_inv {R} (r : Re.regex) : forall s g (k : str -> str -> option R) x,
  Re.rmatch r s g k = Some x ->
  exists u g', u `suffix_of` s /\ k u g' = Some x.
Proof.
  induction r as [| |cs q|r1 IH1 r2 IH2|r1 IH1 r2 IH2|r1 IH1]; intros s g k x H; simpl in H.
  - exists s, g. split; [reflexivity|exact H].
  - discriminate.
  - apply atom_inv in H as (u & Hu & Hk). eauto.
  - apply IH1 in H as (u & g1 & Hu & H). apply IH2 in H as (v & g2 & Hv & H).
    exists v, g2. split; [etransitivity; eassumption|exact H].
  - destruct (Re.rmatch r1 s g k) as [y|] eqn:E.
    + inversion H; subst. eapply IH1; eassumption.
    + eapply IH2; eassumption.
  - apply IH1 in H as (u & g1 & Hu & H). eauto.
Qed.

Lemma strict_quoted {R} i : @strict R (quoted i).
Proof.
  intros s g k x H. apply one_first in H as (u & Hu & Hlt & H).
  apply rmatch_inv in H as (v & g' & Hv & H).
  exists v, g'. split; [|exact H]. apply suffix_length in Hv. lia.
Qed.

Lemma strict_bare {R} a : @strict R [bare a].
Proof.
  intros s g k x H. cbn [Re.mk_seq fold_right Re.rmatch bare Re.atom] in H.
  apply one_inv in H as (u & Hu & Hlt & H). apply star_inv in H as (v & Hv & H).
  exists v, g. split; [|exact H]. apply suffix_length in Hv. lia.
Qed.

Lemma strict_prefix {R} a b : @strict R b -> @strict R (marker_items a ++ b).
Proof.
  intros Hb. destruct (marker_items_cases a) as [-> | ->]; [exact Hb|].
  intros s g k x H. cbn [app Re.mk_seq fold_right Re.rmatch] in H.
  apply atom_inv in H as (u & Hu & H). apply Hb in H as (v & g' & Hv & H).
  exists v, g'. split; [|exact H]. apply suffix_length in Hu. lia.
Qed.

Lemma strict_alts {R} (l : list (list Re.regex)) :
  Forall (@strict R) l ->
  forall s g (k : str -> str -> option R) x,
    Re.rmatch (Re.mk_alt (map Re.mk_seq l)) s g k = Some x ->
    exists u g', length u < length s /\ k u g' = Some x.
Proof.
  induction 1 as [|b l Hb Hl IH]; intros s g k x H; [discriminate|].
  cbn [map Re.mk_alt fold_right Re.rmatch] in H.
  destruct (Re.rmatch (Re.mk_seq b) s g k) as [y|] eqn:E.
  - inversion H; subst. eapply Hb; eassumption.
  - eapply IH; eassumption.
Qed.

Lemma choice_strict {R} a s g (k : str -> str -> option R) x :
  Re.rmatch (choice a) s g k = Some x ->
  exists u g', length u < length s /\ k u g' = Some x.
Proof.
  unfold choice, alternatives. apply strict_alts.
  assert (H : Forall (@strict R) (map quoted (default [] (quotes a)) ++ [[bare a]])).
  { apply Forall_app. split.
    - apply Forall_forall. intros b Hb. apply list_elem_of_In, in_map_iff in Hb as (i & <- & _).
      apply strict_quoted.
    - constructor; [apply strict_bare|constructor]. }
  destruct (map quoted (default [] (quotes a)) ++ [[bare a]]) as [|b l]; [constructor|].
  inversion H; subst. constructor; [apply strict_prefix; assumption|assumption].
Qed.

Lemma match_here_nonempty a adv s g n :
  Re.match_here (regex_of a) adv s = Some (g, n) -> g <> [].
Proof.
  rewrite match_here_unfold. intros H.
  apply star_inv in H as (s1 & _ & H). apply choice_strict in H as (s2 & g' & Hlt & H).
  apply star_inv in H as (s3 & _ & H).
  destruct (adv && _); [discriminate|]. inversion H; subst.
  intros E. apply (f_equal (@length ascii)) in E. rewrite length_take in E. simpl in E. lia.
Qed.

Lemma scan_nonempty a : forall s skip, forallb nonempty (Re.scan (regex_of a) s skip) = true.
Proof.
  assert (Hne : forall adv s g n, Re.match_here (regex_of a) adv s = Some (g, n) ->
                nonempty g = true).
  { intros adv s g n H. apply match_here_nonempty in H. destruct g; [congruence|reflexivity]. }
  induction s as [|c s IH]; intros skip.
  - destruct skip; [|reflexivity]. cbn [Re.scan].
    destruct (Re.match_here (regex_of a) false []) as [[g [|n]]|] eqn:E; try reflexivity.
    + cbn [forallb]. rewrite (Hne _ _ _ _ E).
      destruct (Re.match_here (regex_of a) true []) as [[g' [|n']]|] eqn:E'; try reflexivity.
      cbn [forallb]. rewrite (Hne _ _ _ _ E'). reflexivity.
    + cbn [forallb]. rewrite (Hne _ _ _ _ E). reflexivity.
  - destruct skip; [|apply IH]. cbn [Re.scan].
    destruct (Re.match_here (regex_of a) false (c :: s)) as [[g [|n]]|] eqn:E; try apply IH.
    + cbn [forallb]. rewrite (Hne _ _ _ _ E).
      destruct (Re.match_here (regex_of a) true (c :: s)) as [[g' [|n']]|] eqn:E'; try apply IH.
      cbn [forallb]. rewrite (Hne _ _ _ _ E'). apply IH.
    + cbn [forallb]. rewrite (Hne _ _ _ _ E). apply IH.
Qed.

(** Without a normalization function no term is empty. *)
Lemma terms_nonempty (a : args) (p : KeywordProcessor) (s : str) :
  plain a = true -> init a = Ok p -> normalize a = None ->
  forallb nonempty (terms p s) = true.
Proof.
  intros Hp Hi Hn. destruct (init_inv a p Hp Hi) as (_ & _ & Ep).
  rewrite Ep. unfold terms, prepare. cbn [self_regex self_normalize self_sort]. rewrite Hn.
  pose proof (scan_nonempty a s 0) as H. fold (Re.findall (regex_of a) s) in H.
  destruct (sort a); [|exact H].
  rewrite forallb_forall in *. intros x Hx. apply H, sorted_In, Hx.
Qed.

Lemma flat_map_ext_in {A B} (f g : A -> list B) l :
  (forall x, In x l -> f x = g x) -> flat_map f l = flat_map g l.
Proof.
  induction l as [|x l IH]; intros H; simpl; [reflexivity|].
  rewrite H by (left; reflexivity). rewrite IH; [reflexivity|].
  intros y Hy. apply H. right. exact Hy.
Qed.

Lemma arrange_grouped (self : KeywordProcessor) (ts : list str) :
  self_groups self <> [] -> Forall (fun i => i <> []) ts ->
  exists d : buckets,
    fill (self_groups self) (empty_buckets (self_groups self)) ts = Ok d /\
    (forall g, d !! g = if bool_decide (g ∈ self_groups self) || bool_decide (g = None)
                        then Some (bucket_of (self_groups self) ts g) else None) /\
    arrange self ts = grouped self (bucket_of (self_groups self) ts) d.
Proof.
  intros Hg Hts. destruct (fill_buckets (self_groups self) ts Hts) as (d & Hd & Hl).
  exists d. split; [exact Hd|]. split; [exact Hl|].
  unfold arrange, grouped. destruct (self_groups self) as [|g0 gs] eqn:Eg; [congruence|].
  rewrite Hd. cbn [bind].
  assert (Hb : forall g, In g (g0 :: gs) -> d !!! g = bucket_of (g0 :: gs) ts g).
  { intros g Hin. apply lookup_total_correct. rewrite Hl.
    rewrite bool_decide_true by (apply list_elem_of_In; exact Hin). reflexivity. }
  destruct (self_group self); try reflexivity.
  - do 3 f_equal. apply flat_map_ext_in. intros g Hin. rewrite Hb by assumption. reflexivity.
  - do 3 f_equal. apply flat_map_ext_in. intros g Hin. rewrite Hb by assumption. reflexivity.
  - do 2 f_equal. apply map_ext_in. exact Hb.
  - do 2 f_equal. apply map_ext_in. exact Hb.
Qed.

(** * The properties of the specification *)

(** ** C1 *)

(** C1, amended: for every configuration with quoting enabled, whose
    characters the pattern takes literally and whose marker is absent or
    optional, and every quote character [i] that is neither a separator,
    white space nor a marker: a token opened by [i] and followed by at
    least one other character runs to the next [i], both quote characters
    included; when no further [i] follows, the token is the run of
    characters up to the next separator, the opening quote included, and
    the scan goes on after it. *)
Theorem quoted_token_extent (a : args) (p : KeywordProcessor) (i : ascii) (l body rest : str) :
  plain a = true -> init a = Ok p ->
  In i (default [] (quotes a)) ->
  optional_marker a = true -> is_marker a i = false -> is_lead a i = false ->
  forallb (is_lead a) l = true ->
  forallb (fun c => negb (Ascii.eqb c i)) body = true ->
  (body <> [] ->
     Re.findall (self_regex p) (l ++ i :: body ++ i :: rest)
     = (i :: body ++ [i]) :: Re.findall (self_regex p) (drop_run (is_sep a) rest)) /\
  Re.findall (self_regex p) (l ++ i :: body)
  = (i :: take_run (fun c => negb (is_sep a c)) body)
    :: Re.findall (self_regex p)
         (drop_run (is_sep a) (drop_run (fun c => negb (is_sep a c)) body)).
Proof.
  intros Hp Hi Hq Ho Hm Hlead Hl Hb. destruct (init_inv a p Hp Hi) as (Hsep & Hg & Ep).
  rewrite Ep. cbn [self_regex]. split.
  - intros Hne. apply findall_quoted; assumption.
  - apply findall_unterminated; assumption.
Qed.

Lemma quoted_token_extent_witness :
  plain defaults = true /\ init defaults = Ok default_parser /\
  In dquote (default [] (quotes defaults)) /\
  optional_marker defaults = true /\ is_marker defaults dquote = false /\
  is_lead defaults dquote = false /\
  forallb (is_lead defaults) (py "  ") = true /\
  forallb (fun c => negb (Ascii.eqb c dquote)) (py "a b") = true /\
  (py "a b" <> [] ->
     Re.findall (self_regex default_parser) (py "  " ++ dquote :: py "a b" ++ dquote :: py "c d")
     = (dquote :: py "a b" ++ [dquote])
       :: Re.findall (self_regex default_parser) (drop_run (is_sep defaults) (py "c d"))) /\
  Re.findall (self_regex default_parser) (py "  " ++ dquote :: py "a b")
  = (dquote :: take_run (fun c => negb (is_sep defaults c)) (py "a b"))
    :: Re.findall (self_regex default_parser)
         (drop_run (is_sep defaults)
            (drop_run (fun c => negb (is_sep defaults c)) (py "a b"))).
Proof.
  assert (H1 : plain defaults = true) by reflexivity.
  assert (H2 : init defaults = Ok default_parser) by (vm_compute; reflexivity).
  assert (H3 : In dquote (default [] (quotes defaults))) by (simpl; tauto).
  assert (H4 : optional_marker defaults = true) by reflexivity.
  assert (H5 : is_marker defaults dquote = false) by reflexivity.
  assert (H6 : is_lead defaults dquote = false) by reflexivity.
  assert (H7 : forallb (is_lead defaults) (py "  ") = true) by reflexivity.
  assert (H8 : forallb (fun c => negb (Ascii.eqb c dquote)) (py "a b") = true) by reflexivity.
  exact (conj H1 (conj H2 (conj H3 (conj H4 (conj H5 (conj H6 (conj H7 (conj H8
           (quoted_token_extent _ _ _ _ _ (py "c d") H1 H2 H3 H4 H5 H6 H7 H8))))))))).
Defined.

(** An opening double quote without a closing one: the remainder of the
    input is not one token, it is split at the space. *)
Lemma unterminated_quote_counterexample :
  (do p <- init defaults ; split p (VStr (dquote :: py "a b")))
  = Ok (Terms (PList [dquote :: py "a"; py "b"])) /\
  (do p <- init defaults ; split p (VStr (dquote :: py "a b")))
  <> Ok (Terms (PList [dquote :: py "a b"])).
Proof. split; [vm_compute; reflexivity|vm_compute; discriminate]. Qed.

(** ** C2 *)

(** C2, amended: for the configurations whose characters the pattern takes
    literally, building with an empty separator set fails, with the error
    of the pattern compiler (the pattern is left with an unclosed group);
    building with a non-empty separator set and a list of markers
    succeeds. *)
Theorem init_separators (a : args) :
  plain a = true ->
  (separators a = [] -> init a = Raise (ReError MissingParen)) /\
  (separators a <> [] -> groups a <> None -> exists p, init a = Ok p).
Proof.
  intros Hp. split.
  - intros Hs. unfold init. rewrite compile_no_separators by assumption. reflexivity.
  - intros Hs Hg. destruct (groups a) as [g|] eqn:Eg; [|congruence].
    eexists. apply (init_ok a g); assumption.
Qed.

Lemma init_separators_witness :
  plain (with_separators [] defaults) = true /\
  (separators (with_separators [] defaults) = [] ->
     init (with_separators [] defaults) = Raise (ReError MissingParen)) /\
  (separators (with_separators [] defaults) <> [] ->
     groups (with_separators [] defaults) <> None ->
     exists p, init (with_separators [] defaults) = Ok p).
Proof.
  assert (H1 : plain (with_separators [] defaults) = true) by reflexivity.
  exact (conj H1 (init_separators _ H1)).
Defined.

(** Two builds with the default separators that fail: the markers
    [+], [-], [!] make the range from [+] to [!] in the marker set, and
    [groups=None] is refused by [list(groups)]. *)
Lemma init_other_errors_counterexample :
  separators defaults <> [] /\
  init (with_groups (Some [Some "+"%char; Some "-"%char; Some "!"%char]) defaults)
  = Raise (ReError BadRange) /\
  init (with_groups None defaults)
  = Raise (TypeError "'NoneType' object is not iterable").
Proof. split; [discriminate|]. split; vm_compute; reflexivity. Qed.

(** ** C3 *)

(** C3: with separators space and tab, markers [None, '+', '-'] and
    [group=tuple], [split] applied to
    [animals +cat -dog +"medical treatment"] returns
    [(['animals'], ['cat', '"medical treatment"'], ['dog'])]: one sequence
    per configured marker, in the order of the markers, each with the terms
    of that marker in input order and the marker removed. *)
Theorem search_parser_example :
  (do p <- init search_parser_args ;
   split p (VStr (py "animals +cat -dog +" ++ [dquote] ++ py "medical treatment" ++ [dquote])))
  = Ok (Sequences CTuple
          [ [py "animals"];
            [py "cat"; [dquote] ++ py "medical treatment" ++ [dquote]];
            [py "dog"] ]).
Proof. vm_compute. reflexivity. Qed.

(** ** C4 *)

Lemma terms_reference (a : args) (p : KeywordProcessor) (s : str) :
  plain a = true -> init a = Ok p ->
  bare_reachable a = true -> clean a s = true ->
  terms p s = reference_split a s.
Proof.
  intros Hp Hi Hr Hc. destruct (init_inv a p Hp Hi) as (Hsep & Hg & Ep).
  rewrite Ep. unfold terms, prepare, reference_split. cbn [self_regex self_normalize self_sort].
  rewrite (findall_words a (length s) s) by (assumption || lia). reflexivity.
Qed.

(** C4, amended: for every configuration whose characters the pattern
    takes literally and in which a token may start without a marker, and
    every input with no quote character, no marker character and no white
    space other than separators, [split] works on the terms of the
    reference procedure: the input broken on runs of separators, empty
    pieces dropped, then normalized and sorted as configured. *)
Theorem split_reference (a : args) (p : KeywordProcessor) (s : str) :
  plain a = true -> init a = Ok p ->
  bare_reachable a = true -> clean a s = true ->
  terms p s = reference_split a s /\
  split p (VStr s) = arrange p (reference_split a s) /\
  (self_groups p = [] ->
     split p (VStr s) = Ok (Terms (build (self_result p) (reference_split a s)))).
Proof.
  intros Hp Hi Hr Hc. pose proof (terms_reference a p s Hp Hi Hr Hc) as Ht.
  split; [exact Ht|]. unfold split. rewrite Ht. split; [reflexivity|].
  intros Hg. unfold arrange. rewrite Hg. reflexivity.
Qed.

Lemma split_reference_witness :
  plain defaults = true /\ init defaults = Ok default_parser /\
  bare_reachable defaults = true /\ clean defaults (py " foo  bar baz ") = true /\
  terms default_parser (py " foo  bar baz ") = reference_split defaults (py " foo  bar baz ") /\
  split default_parser (VStr (py " foo  bar baz "))
  = arrange default_parser (reference_split defaults (py " foo  bar baz ")) /\
  (self_groups default_parser = [] ->
     split default_parser (VStr (py " foo  bar baz "))
     = Ok (Terms (build (self_result default_parser)
                        (reference_split defaults (py " foo  bar baz "))))).
Proof.
  assert (H1 : plain defaults = true) by reflexivity.
  assert (H2 : init defaults = Ok default_parser) by (vm_compute; reflexivity).
  assert (H3 : bare_reachable defaults = true) by reflexivity.
  assert (H4 : clean defaults (py " foo  bar baz ") = true) by reflexivity.
  exact (conj H1 (conj H2 (conj H3 (conj H4 (split_reference _ _ _ H1 H2 H3 H4))))).
Defined.

(** With the comma as only separator the space in front of a token is
    dropped by [split] and kept by the reference procedure. *)
Lemma reference_whitespace_counterexample :
  forallb (fun c => negb (is_quote comma_args c) && negb (is_marker comma_args c))
          (py " a") = true /\
  (do p <- init comma_args ; split p (VStr (py " a"))) = Ok (Terms (PList [py "a"])) /\
  reference_split comma_args (py " a") = [py " a"] /\
  (do p <- init comma_args ; split p (VStr (py " a")))
  <> Ok (Terms (build (result comma_args) (reference_split comma_args (py " a")))).
Proof.
  split; [reflexivity|]. split; [vm_compute; reflexivity|].
  split; [reflexivity|vm_compute; discriminate].
Qed.

(** The mandatory marker of a configuration without quotes and without
    [None] among the markers: a token without marker is not matched. *)
Example mandatory_marker_example :
  (do p <- init (with_groups (Some [Some "+"%char; Some "-"%char])
                   {| separators := separators defaults; quotes := None;
                      groups := groups defaults; group := GDict;
                      normalize := None; sort := false; result := CList |}) ;
   split p (VStr (py "foo bar")))
  = Ok (Mapping {[ None := []; Some "+"%char := []; Some "-"%char := [] ]}).
Proof. vm_compute. reflexivity. Qed.

(** With the separators [a-c] the letter [b] separates, although it is
    not among the configured separators. *)
Example separator_range_reference_example :
  (do p <- init (with_separators (py "a-c") defaults) ; split p (VStr (py "xby")))
  = Ok (Terms (PList [py "x"; py "y"])) /\
  reference_split (with_separators (py "a-c") defaults) (py "xby") = [py "xby"].
Proof. split; [vm_compute; reflexivity|reflexivity]. Qed.

(** ** C5 *)

Lemma nonempty_Forall (ts : list str) :
  forallb nonempty ts = true -> Forall (fun i => i <> []) ts.
Proof.
  rewrite forallb_forall, Forall_forall. intros H i Hi.
  apply list_elem_of_In, H in Hi. destruct i; [discriminate|congruence].
Qed.

(** An empty term stops the loop with [IndexError], in every mode. *)
Lemma split_index_error (p : KeywordProcessor) (s : str) :
  self_groups p <> [] -> forallb nonempty (terms p s) = false ->
  split p (VStr s) = Raise IndexError.
Proof.
  intros Hg Hts. unfold split, arrange.
  destruct (self_groups p) as [|g0 gs]; [congruence|].
  rewrite fill_error; [reflexivity|].
  induction (terms p s) as [|t ts IH]; [discriminate|].
  destruct t; [left; reflexivity|right; apply IH; exact Hts].
Qed.

(** C5, amended: for every processor with markers and every configured
    marker [m], the loop over [matches] puts an element [m :: t] in the
    bucket of [m] as [t], the marker removed. The elements of [matches]
    are the terms: the tokens after normalization and sorting. When no
    term is empty the loop ends and the bucket of [m] holds, in order, the
    terms that start with [m] without their first character; without a
    normalization function the terms are the tokens of the input, so every
    token [m :: t] is filed under [m] as [t], and a processor built by
    [__init__] without a normalization function has no empty term. An
    empty term makes [split] raise [IndexError]. *)
Theorem marker_stripping (p : KeywordProcessor) (s : str) (m : ascii) :
  In (Some m) (self_groups p) ->
  (forall (d : buckets) t,
     place (self_groups p) d (m :: t) = Ok (<[Some m := d !!! Some m ++ [t]]> d)) /\
  (forallb nonempty (terms p s) = true ->
   exists d : buckets,
     fill (self_groups p) (empty_buckets (self_groups p)) (terms p s) = Ok d /\
     d !! Some m = Some (map (drop 1) (filter (fun i => head i = Some m) (terms p s))) /\
     (forall t, In (m :: t) (terms p s) -> In t (d !!! Some m)) /\
     (self_normalize p = None ->
      forall t, In (m :: t) (Re.findall (self_regex p) s) -> In t (d !!! Some m)) /\
     (self_group p = GDict -> split p (VStr s) = Ok (Mapping d))) /\
  (forall a, plain a = true -> init a = Ok p -> normalize a = None ->
     forallb nonempty (terms p s) = true) /\
  (forallb nonempty (terms p s) = false -> split p (VStr s) = Raise IndexError).
Proof.
  intros Hm.
  assert (Hg : self_groups p <> []) by (intros E; rewrite E in Hm; destruct Hm).
  split.
  { intros d t. unfold place. rewrite bool_decide_true by (apply list_elem_of_In; exact Hm).
    reflexivity. }
  split; [|split; [intros a; apply terms_nonempty|apply split_index_error; exact Hg]].
  intros Hts. apply nonempty_Forall in Hts.
  destruct (arrange_grouped p (terms p s) Hg Hts) as (d & Hd & Hl & Ha).
  assert (Hb : d !! Some m = Some (map (drop 1) (filter (fun i => head i = Some m) (terms p s)))).
  { rewrite Hl. rewrite bool_decide_true by (apply list_elem_of_In; exact Hm).
    cbn [orb bucket_of]. rewrite bool_decide_true by (apply list_elem_of_In; exact Hm).
    reflexivity. }
  assert (Hin : forall t, In (m :: t) (terms p s) -> In t (d !!! Some m)).
  { intros t Ht. erewrite lookup_total_correct by exact Hb.
    apply in_map_iff. exists (m :: t). split; [reflexivity|].
    apply list_elem_of_In, list_elem_of_filter. split; [reflexivity|].
    apply list_elem_of_In, Ht. }
  exists d. repeat split; try assumption.
  - intros Hn t Ht. apply Hin. unfold terms, prepare. rewrite Hn.
    destruct (self_sort p); [apply sorted_In|]; exact Ht.
  - intros Hdict. unfold split. rewrite Ha. unfold grouped. rewrite Hdict. reflexivity.
Qed.

Lemma marker_stripping_witness :
  In (Some "+"%char) (self_groups mapping_parser) /\
  forallb nonempty (terms mapping_parser (py "+cat dog -fish +bird")) = true /\
  (forall (d : buckets) t,
     place (self_groups mapping_parser) d ("+"%char :: t)
     = Ok (<[Some "+"%char := d !!! Some "+"%char ++ [t]]> d)) /\
  exists d : buckets,
    fill (self_groups mapping_parser) (empty_buckets (self_groups mapping_parser))
         (terms mapping_parser (py "+cat dog -fish +bird")) = Ok d /\
    d !! Some "+"%char
      = Some (map (drop 1) (filter (fun i => head i = Some "+"%char)
                                   (terms mapping_parser (py "+cat dog -fish +bird")))) /\
    (forall t, In ("+"%char :: t) (terms mapping_parser (py "+cat dog -fish +bird")) ->
               In t (d !!! Some "+"%char)) /\
    (self_normalize mapping_parser = None ->
     forall t, In ("+"%char :: t)
                  (Re.findall (self_regex mapping_parser) (py "+cat dog -fish +bird")) ->
               In t (d !!! Some "+"%char)) /\
    (self_group mapping_parser = GDict ->
       split mapping_parser (VStr (py "+cat dog -fish +bird")) = Ok (Mapping d)).
Proof.
  assert (H1 : In (Some "+"%char) (self_groups mapping_parser)) by (simpl; tauto).
  assert (H2 : forallb nonempty (terms mapping_parser (py "+cat dog -fish +bird")) = true)
    by (vm_compute; reflexivity).
  pose proof (marker_stripping mapping_parser (py "+cat dog -fish +bird") "+"%char H1) as W.
  exact (conj H1 (conj H2 (conj (proj1 W) (proj1 (proj2 W) H2)))).
Defined.

(** The processor is built by [__init__] from the search parser's
    arguments in mapping mode with [normalize=lambda s: s.lstrip('+')].
    The token [+cat] of the input starts with the configured marker [+];
    it is normalized to [cat] before the loop, so the bucket of [+] stays
    empty and [cat] is filed under [None]. *)
Lemma normalized_marker_counterexample :
  init (with_normalize (Some (lstrip (py "+"))) (with_group GDict search_parser_args))
  = Ok stripping_parser /\
  In (Some "+"%char) (self_groups stripping_parser) /\
  In (py "+cat") (Re.findall (self_regex stripping_parser) (py "+cat -dog")) /\
  exists d : buckets,
    split stripping_parser (VStr (py "+cat -dog")) = Ok (Mapping d) /\
    d !! Some "+"%char = Some [] /\
    d !! None = Some [py "cat"] /\
    ~ In (py "cat") (d !!! Some "+"%char).
Proof.
  split; [vm_compute; reflexivity|]. split; [simpl; tauto|].
  split; [vm_compute; tauto|].
  exists {[ None := [py "cat"]; Some "+"%char := []; Some "-"%char := [py "dog"] ]}.
  split; [vm_compute; reflexivity|].
  split; [reflexivity|]. split; [reflexivity|].
  intros H. vm_compute in H. exact H.
Qed.

(** ** C6 *)

Lemma prepare_nil (p : KeywordProcessor) : prepare p [] = [].
Proof. unfold prepare. destruct (self_normalize p), (self_sort p); reflexivity. Qed.

Lemma separators_no_quote (a : args) (s : str) :
  forallb (fun c => negb (is_sep a c)) (default [] (quotes a)) = true ->
  forallb (is_sep a) s = true ->
  forall c, In c s -> is_quote a c = false.
Proof.
  intros Hq Hs c Hc. rewrite forallb_forall in Hq, Hs. specialize (Hs c Hc).
  unfold is_quote. apply not_true_iff_false. intros E.
  apply existsb_exists in E as (j & Hj & Ecj). apply Ascii.eqb_eq in Ecj. subst j.
  specialize (Hq c Hj). rewrite Hs in Hq. discriminate.
Qed.

(** C6, amended: for every configuration whose characters the pattern
    takes literally and none of whose quote characters is a separator, and
    every input made of separator characters only (the empty input
    included), [split] returns the empty result: an empty sequence without
    markers and, in mapping mode, a mapping whose keys include every
    configured marker and [None], and whose values are all empty. *)
Theorem split_separators_only (a : args) (p : KeywordProcessor) (s : str) :
  plain a = true -> init a = Ok p ->
  forallb (fun c => negb (is_sep a c)) (default [] (quotes a)) = true ->
  forallb (is_sep a) s = true ->
  (self_groups p = [] -> split p (VStr s) = Ok (Terms (build (self_result p) []))) /\
  (self_groups p <> [] -> self_group p = GDict ->
     exists d : buckets,
       split p (VStr s) = Ok (Mapping d) /\
       (forall g, In g (self_groups p) -> d !! g = Some []) /\
       d !! None = Some [] /\
       (forall g v, d !! g = Some v -> v = [])).
Proof.
  intros Hp Hi Hq Hs. destruct (init_inv a p Hp Hi) as (Hsep & Hg & Ep).
  assert (Ht : terms p s = []).
  { unfold terms. rewrite Ep at 2. cbn [self_regex].
    rewrite findall_separators; [apply prepare_nil|exact Hs|].
    apply separators_no_quote; assumption. }
  unfold split. rewrite Ht. split.
  - intros E. unfold arrange. rewrite E. reflexivity.
  - intros Hne Hmode. unfold arrange.
    destruct (self_groups p) as [|g0 gs] eqn:Eg; [congruence|].
    cbn [fill bind]. rewrite Hmode. eexists. split; [reflexivity|]. split.
    + intros g Hin. rewrite empty_buckets_lookup.
      rewrite bool_decide_true by (apply list_elem_of_In; exact Hin). reflexivity.
    + split.
      * rewrite empty_buckets_lookup.
        rewrite (bool_decide_true (None = None)) by reflexivity.
        rewrite orb_true_r. reflexivity.
      * intros g v. rewrite empty_buckets_lookup.
        destruct (_ || _); congruence.
Qed.

Lemma split_separators_only_witness :
  plain (with_group GDict search_parser_args) = true /\
  init (with_group GDict search_parser_args) = Ok mapping_parser /\
  forallb (fun c => negb (is_sep (with_group GDict search_parser_args) c))
          (default [] (quotes (with_group GDict search_parser_args))) = true /\
  forallb (is_sep (with_group GDict search_parser_args)) [" "%char; tab; " "%char] = true /\
  (self_groups mapping_parser = [] ->
     split mapping_parser (VStr [" "%char; tab; " "%char])
     = Ok (Terms (build (self_result mapping_parser) []))) /\
  (self_groups mapping_parser <> [] -> self_group mapping_parser = GDict ->
     exists d : buckets,
       split mapping_parser (VStr [" "%char; tab; " "%char]) = Ok (Mapping d) /\
       (forall g, In g (self_groups mapping_parser) -> d !! g = Some []) /\
       d !! None = Some [] /\
       (forall g v, d !! g = Some v -> v = [])).
Proof.
  assert (H1 : plain (with_group GDict search_parser_args) = true) by reflexivity.
  assert (H2 : init (with_group GDict search_parser_args) = Ok mapping_parser)
    by (vm_compute; reflexivity).
  assert (H3 : forallb (fun c => negb (is_sep (with_group GDict search_parser_args) c))
          (default [] (quotes (with_group GDict search_parser_args))) = true) by reflexivity.
  assert (H4 : forallb (is_sep (with_group GDict search_parser_args))
                       [" "%char; tab; " "%char] = true) by reflexivity.
  exact (conj H1 (conj H2 (conj H3 (conj H4 (split_separators_only _ _ _ H1 H2 H3 H4))))).
Defined.

(** The input made of a double quote, a space and a double quote consists
    of separators of this configuration, and [split] returns it as a
    token. *)
Lemma quote_separator_counterexample :
  forallb (is_sep quote_separator_args) [dquote; " "%char; dquote] = true /\
  (do p <- init quote_separator_args ; split p (VStr [dquote; " "%char; dquote]))
  = Ok (Terms (PList [[dquote; " "%char; dquote]])) /\
  (do p <- init quote_separator_args ; split p (VStr [dquote; " "%char; dquote]))
  <> Ok (Terms (PList [])).
Proof. split; [reflexivity|]. split; [vm_compute; reflexivity|vm_compute; discriminate]. Qed.

(** With the separators [a-c] the pattern holds the range from [a] to [c]:
    the configured separator [-] is not a separator of the pattern. *)
Example separator_range_example :
  (do p <- init (with_separators (py "a-c") defaults) ; split p (VStr (py "-")))
  = Ok (Terms (PList [py "-"])).
Proof. vm_compute. reflexivity. Qed.

(** ** C7 *)









(** With the separator [[]]] the pattern asks for one white-space character
    in front of every token: the terms of [ x y] are the single [x y],
    whose only term is [y]. *)
Example separator_bracket_example :
  (do p <- init (with_separators (py "]") defaults) ; Ok (terms p (py " x y")))
  = Ok [py "x y"] /\
  (do p <- init (with_separators (py "]") defaults) ; Ok (terms p (py "x y")))
  = Ok [py "y"].
Proof. split; vm_compute; reflexivity. Qed.

(** ** C8 *)

(** C8: [split] called with anything but a string raises the [TypeError]
    "Invalid type for argument 'value'." whatever the processor is, hence
    before any tokenization; called with a string it never raises that
    error. *)
Theorem split_type_error (p : KeywordProcessor) (v : pyvalue) :
  match v with
  | VStr _ => split p v <> Raise (TypeError "Invalid type for argument 'value'.")
  | _ => split p v = Raise (TypeError "Invalid type for argument 'value'.")
  end.
Proof.
  destruct v; try reflexivity.
  unfold split, arrange. destruct (self_groups p); [discriminate|].
  destruct (fill _ _ _) as [d|e|] eqn:Hf; cbn [bind].
  - destruct (self_group p); discriminate.
  - intros [= ->]. revert Hf. generalize (empty_buckets (o :: l)).
    induction (terms p s) as [|i ts IH]; intros d Hf; [discriminate|].
    cbn [fill] in Hf. destruct i as [|c t]; [discriminate|].
    unfold place in Hf. destruct (bool_decide _); cbn [bind] in Hf; eapply IH; eassumption.
  - discriminate.
Qed.

(** ** C9 *)

Lemma filter_marked_head (gs : list (option ascii)) (m : ascii) (ts : list str) :
  Some m ∈ gs ->
  filter (fun i => head i = Some m) (filter (fun i => marked gs i = true) ts)
  = filter (fun i => head i = Some m) ts.
Proof.
  intros Hm. induction ts as [|i ts IH]; [reflexivity|].
  rewrite (filter_cons (fun i => marked gs i = true)).
  rewrite (filter_cons (fun i => head i = Some m) i ts).
  destruct (decide (marked gs i = true)) as [Hi|Hi].
  - rewrite filter_cons, IH. reflexivity.
  - rewrite IH. destruct (decide (head i = Some m)) as [Hh|Hh]; [|reflexivity].
    exfalso. apply Hi. destruct i as [|c t]; [discriminate|].
    simpl in *. inversion Hh; subst. apply bool_decide_eq_true. exact Hm.
Qed.

Lemma bucket_of_marked (gs : list (option ascii)) (ts : list str) (g : option ascii) :
  g <> None ->
  bucket_of gs (filter (fun i => marked gs i = true) ts) g = bucket_of gs ts g.
Proof.
  intros Hg. destruct g as [m|]; [|congruence]. simpl.
  case_bool_decide as Hm; [|reflexivity]. rewrite filter_marked_head by assumption. reflexivity.
Qed.

Lemma filter_nonempty (P : str -> Prop) `{forall x, Decision (P x)} (ts : list str) :
  Forall (fun i => i <> []) ts -> Forall (fun i => i <> []) (filter P ts).
Proof.
  rewrite !Forall_forall. intros Hts i Hi. apply list_elem_of_filter in Hi as [_ Hi]. auto.
Qed.

(** C9: when markers are configured without [None], the terms that do not
    start with a configured marker leave no trace in the flat-pairs and
    sequence-of-sequences results (the result is the one computed from the
    marked terms alone), whereas the mapping holds them under the key
    [None]. This is so when no term is empty; an empty term makes [split]
    raise [IndexError]. *)
Theorem unmarked_terms (p : KeywordProcessor) (s : str) :
  self_groups p <> [] -> ~ In None (self_groups p) ->
  (forallb nonempty (terms p s) = true ->
   (self_group p <> GDict ->
      split p (VStr s)
      = arrange p (filter (fun i => marked (self_groups p) i = true) (terms p s))) /\
   (self_group p = GFalse \/ self_group p = GNone \/
    self_group p = GList \/ self_group p = GTuple ->
      exists out, split p (VStr s) = Ok out) /\
   (self_group p = GDict ->
      exists d : buckets,
        split p (VStr s) = Ok (Mapping d) /\
        d !! None = Some (filter (fun i => marked (self_groups p) i = false) (terms p s)))) /\
  (forallb nonempty (terms p s) = false -> split p (VStr s) = Raise IndexError).
Proof.
  intros Hg Hnone. split; [|apply split_index_error; exact Hg].
  intros Hts. apply nonempty_Forall in Hts.
  destruct (arrange_grouped p (terms p s) Hg Hts) as (d & Hd & Hl & Ha).
  destruct (arrange_grouped p _ Hg
              (filter_nonempty (fun i => marked (self_groups p) i = true) _ Hts))
    as (d' & Hd' & Hl' & Ha').
  assert (Hb : forall g, In g (self_groups p) ->
    bucket_of (self_groups p) (filter (fun i => marked (self_groups p) i = true) (terms p s)) g
    = bucket_of (self_groups p) (terms p s) g).
  { intros g Hin. apply bucket_of_marked. intros ->. contradiction. }
  split; [|split].
  - intros Hmode. unfold split. rewrite Ha, Ha'. unfold grouped.
    destruct (self_group p); try congruence; try reflexivity.
    + do 3 f_equal. apply flat_map_ext_in. intros g Hin. rewrite Hb by assumption. reflexivity.
    + do 3 f_equal. apply flat_map_ext_in. intros g Hin. rewrite Hb by assumption. reflexivity.
    + do 2 f_equal. symmetry. apply map_ext_in. exact Hb.
    + do 2 f_equal. symmetry. apply map_ext_in. exact Hb.
  - intros Hmode. unfold split. rewrite Ha. unfold grouped.
    destruct Hmode as [-> | [-> | [-> | ->]]]; eauto.
  - intros Hmode. exists d. unfold split. rewrite Ha. unfold grouped. rewrite Hmode.
    split; [reflexivity|]. rewrite Hl.
    rewrite (bool_decide_true (None = None)) by reflexivity. rewrite orb_true_r. reflexivity.
Qed.

Lemma unmarked_terms_witness :
  self_groups strict_parser <> [] /\ ~ In None (self_groups strict_parser) /\
  forallb nonempty (terms strict_parser (py "cat +dog fish -bird")) = true /\
  split strict_parser (VStr (py "cat +dog fish -bird"))
  = arrange strict_parser
      (filter (fun i => marked (self_groups strict_parser) i = true)
              (terms strict_parser (py "cat +dog fish -bird"))).
Proof.
  assert (H1 : self_groups strict_parser <> []) by discriminate.
  assert (H2 : ~ In None (self_groups strict_parser))
    by (simpl; intros [H|[H|H]]; [discriminate..|exact H]).
  assert (H3 : forallb nonempty (terms strict_parser (py "cat +dog fish -bird")) = true)
    by (vm_compute; reflexivity).
  assert (H4 : self_group strict_parser <> GDict) by discriminate.
  pose proof (unmarked_terms strict_parser (py "cat +dog fish -bird") H1 H2) as W.
  exact (conj H1 (conj H2 (conj H3 (proj1 (proj1 W H3) H4)))).
Defined.

Example strict_parser_built :
  init (with_groups (Some [Some "+"%char; Some "-"%char]) defaults) = Ok strict_parser.
Proof. vm_compute. reflexivity. Qed.

(** The unmarked terms [cat] and [fish] are missing from the pairs. *)
Example unmarked_terms_pairs :
  split strict_parser (VStr (py "cat +dog fish -bird"))
  = Ok (Pairs (PList [(Some "+"%char, py "dog"); (Some "-"%char, py "bird")])).
Proof. vm_compute. reflexivity. Qed.

(** ** C10 *)



Example stripping_parser_built :
  init (with_normalize (Some (lstrip (py "+"))) (with_group GDict search_parser_args))
  = Ok stripping_parser.
Proof. vm_compute. reflexivity. Qed.

(** A function that removes the leading marker moves the term to the
    [None] bucket; one that puts a marker in front moves it to the bucket
    of that marker, which stores the term as it was. *)
Example normalize_removes_marker :
  split stripping_parser (VStr (py "+cat -dog"))
  = Ok (Mapping {[ None := [py "cat"]; Some "+"%char := []; Some "-"%char := [py "dog"] ]}).
Proof. vm_compute. reflexivity. Qed.

Example normalize_introduces_marker :
  split (built (with_normalize (Some (fun s => "-"%char :: s))
                  (with_group GDict search_parser_args))
               [None; Some "+"%char; Some "-"%char])
        (VStr (py "cat +dog"))
  = Ok (Mapping {[ None := []; Some "+"%char := []; Some "-"%char := [py "cat"; py "+dog"] ]}).
Proof. vm_compute. reflexivity. Qed.

Lemma str_leb_trans a : forall b c,
  str_leb a b = true -> str_leb b c = true -> str_leb a c = true.
Proof.
  induction a as [|x a IH]; intros [|y b] [|z c]; simpl; try congruence.
  destruct (Nat.ltb_spec (nat_of_ascii x) (nat_of_ascii y)),
           (Nat.ltb_spec (nat_of_ascii y) (nat_of_ascii x)),
           (Nat.ltb_spec (nat_of_ascii y) (nat_of_ascii z)),
           (Nat.ltb_spec (nat_of_ascii z) (nat_of_ascii y)),
           (Nat.ltb_spec (nat_of_ascii x) (nat_of_ascii z)),
           (Nat.ltb_spec (nat_of_ascii z) (nat_of_ascii x));
    try congruence; try lia.
  apply IH.
Qed.

Lemma ordered_tail x l : ordered (x :: l) -> ordered l.
Proof. destruct l; simpl; [auto|]. intros [_ H]. exact H. Qed.

Lemma ordered_head x l : ordered (x :: l) -> forall y, In y l -> str_leb x y = true.
Proof.
  revert x. induction l as [|z l IH]; intros x H y Hy; [destruct Hy|].
  destruct H as [Hxz H]. destruct Hy as [->|Hy]; [exact Hxz|].
  apply (str_leb_trans x z y Hxz). apply IH; assumption.
Qed.

Lemma ordered_cons x l :
  (forall y, In y l -> str_leb x y = true) -> ordered l -> ordered (x :: l).
Proof. destruct l as [|z l]; simpl; [auto|]. intros H Hl. split; [apply H; auto|exact Hl]. Qed.

Lemma ordered_filter (P : str -> Prop) `{!forall x, Decision (P x)} (l : list str) :
  ordered l -> ordered (filter P l).
Proof.
  induction l as [|x l IH]; intros Ho; [exact I|].
  rewrite filter_cons. pose proof (ordered_tail _ _ Ho) as Ht.
  destruct (decide (P x)); [|apply IH; exact Ht].
  apply ordered_cons; [|apply IH; exact Ht].
  intros y Hy. apply (ordered_head x l Ho).
  apply list_elem_of_In. apply list_elem_of_In in Hy.
  apply list_elem_of_filter in Hy. tauto.
Qed.

Lemma ordered_drop_marker (m : ascii) (l : list str) :
  Forall (fun i => head i = Some m) l -> ordered l -> ordered (map (drop 1) l).
Proof.
  induction l as [|x l IH]; intros Hm H; [exact I|].
  inversion Hm as [|? ? Hx Hl]; subst. cbn [map].
  apply ordered_cons; [|apply IH; [exact Hl|exact (ordered_tail _ _ H)]].
  intros y Hy. apply in_map_iff in Hy as (z & <- & Hz).
  pose proof (ordered_head x l H z Hz) as Hxz.
  rewrite Forall_forall in Hl. apply list_elem_of_In, Hl in Hz.
  destruct x as [|cx x]; [discriminate|]. destruct z as [|cz z]; [discriminate|].
  simpl in Hx, Hz. inversion Hx; inversion Hz; subst.
  simpl in Hxz. rewrite Nat.ltb_irrefl in Hxz. exact Hxz.
Qed.

Lemma ordered_bucket (gs : list (option ascii)) (ts : list str) (g : option ascii) :
  ordered ts -> ordered (bucket_of gs ts g).
Proof.
  intros H. destruct g as [m|]; unfold bucket_of.
  - destruct (bool_decide (Some m ∈ gs)); [|exact I].
    apply (ordered_drop_marker m); [|apply ordered_filter; exact H].
    apply Forall_forall. intros i Hi. apply list_elem_of_filter in Hi. tauto.
  - apply ordered_filter. exact H.
Qed.

Lemma terms_ordered (p : KeywordProcessor) (s : str) :
  self_sort p = true -> ordered (terms p s).
Proof. intros Hs. unfold terms, prepare. rewrite Hs. apply sorted_ordered. Qed.

(** * Further properties of the splitter *)

(** X1: with [sort=True] and no empty term, [split] returns a result in which
    the terms are in code point order: the whole sequence when no marker
    is configured, and the terms of every group in the mapping and in the
    sequence of sequences, where the order is that of the terms without
    their marker. *)
Theorem sort_within_groups (p : KeywordProcessor) (s : str) :
  self_sort p = true ->
  forallb nonempty (terms p s) = true ->
  self_groups p = [] \/ self_group p = GDict \/ self_group p = GList \/ self_group p = GTuple ->
  exists out, split p (VStr s) = Ok out /\ ordered_output out.
Proof.
  intros Hs Hts Hmode. pose proof (terms_ordered p s Hs) as Ho.
  destruct (self_groups p) as [|g0 gs] eqn:Eg.
  - exists (Terms (build (self_result p) (terms p s))).
    split; [unfold split, arrange; rewrite Eg; reflexivity|].
    destruct (self_result p); simpl; auto.
  - destruct Hmode as [Hmode|Hmode]; [discriminate|].
    assert (Hg : self_groups p <> []) by (rewrite Eg; discriminate).
    destruct (arrange_grouped p (terms p s) Hg (nonempty_Forall _ Hts)) as (d & _ & Hl & Ha).
    unfold split. rewrite Ha. unfold grouped.
    destruct Hmode as [->|[->| ->]].
    + eexists. split; [reflexivity|]. intros g l Hgl. rewrite Hl in Hgl.
      destruct (_ || _); [|discriminate]. inversion Hgl; subst.
      apply ordered_bucket, Ho.
    + eexists. split; [reflexivity|]. simpl. apply Forall_forall. intros l Hin.
      apply list_elem_of_In, in_map_iff in Hin as (g & <- & _). apply ordered_bucket, Ho.
    + eexists. split; [reflexivity|]. simpl. apply Forall_forall. intros l Hin.
      apply list_elem_of_In, in_map_iff in Hin as (g & <- & _). apply ordered_bucket, Ho.
Qed.

Lemma sort_within_groups_witness :
  self_sort sorting_parser = true /\
  forallb nonempty (terms sorting_parser (py "+pear fig +apple -kiwi date")) = true /\
  (self_groups sorting_parser = [] \/ self_group sorting_parser = GDict \/
   self_group sorting_parser = GList \/ self_group sorting_parser = GTuple) /\
  exists out, split sorting_parser (VStr (py "+pear fig +apple -kiwi date")) = Ok out /\
              ordered_output out.
Proof.
  assert (H1 : self_sort sorting_parser = true) by reflexivity.
  assert (H2 : forallb nonempty (terms sorting_parser (py "+pear fig +apple -kiwi date")) = true)
    by (vm_compute; reflexivity).
  assert (H3 : self_groups sorting_parser = [] \/ self_group sorting_parser = GDict \/
               self_group sorting_parser = GList \/ self_group sorting_parser = GTuple)
    by (right; left; reflexivity).
  exact (conj H1 (conj H2 (conj H3 (sort_within_groups _ _ H1 H2 H3)))).
Defined.

(** X2: in mapping mode [split] of a string returns a mapping or raises
    [IndexError]. When no term is empty it returns a mapping whose keys
    are the configured markers and [None]: a marker without term is mapped
    to the empty list, and no other key appears. A processor built by
    [__init__] from literal characters without a normalization function
    has no empty term, whatever the input. An empty term, which a
    normalization function can produce, makes [split] raise [IndexError]:
    no mapping is returned. *)
Theorem mapping_keys (p : KeywordProcessor) (s : str) :
  self_groups p <> [] -> self_group p = GDict ->
  (forallb nonempty (terms p s) = true ->
   exists d : buckets,
     split p (VStr s) = Ok (Mapping d) /\
     (forall g, is_Some (d !! g) <-> g = None \/ In g (self_groups p)) /\
     (forall g, In g (self_groups p) -> bucket_of (self_groups p) (terms p s) g = [] ->
                d !! g = Some [])) /\
  (forall a, plain a = true -> init a = Ok p -> normalize a = None ->
     forallb nonempty (terms p s) = true) /\
  (forallb nonempty (terms p s) = false -> split p (VStr s) = Raise IndexError).
Proof.
  intros Hg Hd.
  split; [|split; [intros a; apply terms_nonempty|apply split_index_error; exact Hg]].
  intros Hts.
  destruct (arrange_grouped p (terms p s) Hg (nonempty_Forall _ Hts)) as (d & _ & Hl & Ha).
  exists d. split; [unfold split; rewrite Ha; unfold grouped; rewrite Hd; reflexivity|].
  split.
  - intros g. rewrite Hl. split.
    + intros [l Hgl]. destruct (bool_decide (g ∈ self_groups p)) eqn:E1.
      * right. apply list_elem_of_In. apply bool_decide_eq_true in E1. exact E1.
      * destruct (bool_decide (g = None)) eqn:E2; [|discriminate].
        left. apply bool_decide_eq_true in E2. exact E2.
    + intros [->|Hin].
      * rewrite bool_decide_true with (P := None = None) by reflexivity.
        rewrite orb_true_r. eauto.
      * rewrite bool_decide_true by (apply list_elem_of_In; exact Hin). eauto.
  - intros g Hin He. rewrite Hl.
    rewrite bool_decide_true by (apply list_elem_of_In; exact Hin). simpl. rewrite He. reflexivity.
Qed.

Lemma mapping_keys_witness :
  self_groups mapping_parser <> [] /\ self_group mapping_parser = GDict /\
  forallb nonempty (terms mapping_parser (py "cat +dog")) = true /\
  exists d : buckets,
    split mapping_parser (VStr (py "cat +dog")) = Ok (Mapping d) /\
    (forall g, is_Some (d !! g) <-> g = None \/ In g (self_groups mapping_parser)) /\
    (forall g, In g (self_groups mapping_parser) ->
               bucket_of (self_groups mapping_parser) (terms mapping_parser (py "cat +dog")) g = [] ->
               d !! g = Some []).
Proof.
  assert (H1 : self_groups mapping_parser <> []) by discriminate.
  assert (H2 : self_group mapping_parser = GDict) by reflexivity.
  assert (H3 : forallb nonempty (terms mapping_parser (py "cat +dog")) = true)
    by (vm_compute; reflexivity).
  exact (conj H1 (conj H2 (conj H3 (proj1 (mapping_keys _ _ H1 H2) H3)))).
Defined.

(** X3: a processor built without normalization function, from characters the
    pattern takes literally, splits every string: no token that the
    pattern yields is empty, so the loop over the terms never raises
    [IndexError]. The grouping type [set] is the exception (it cannot hold
    the lists of terms). *)
Theorem split_never_fails (a : args) (p : KeywordProcessor) (s : str) :
  plain a = true -> init a = Ok p -> normalize a = None ->
  groups a = Some [] \/ group a <> GSet ->
  exists out, split p (VStr s) = Ok out.
Proof.
  intros Hp Hi Hn Hmode. pose proof (terms_nonempty a p s Hp Hi Hn) as Hts.
  destruct (init_inv a p Hp Hi) as (_ & Hg & Ep).
  destruct (self_groups p) as [|g0 gs] eqn:Eg.
  - eexists. unfold split, arrange. rewrite Eg. reflexivity.
  - destruct Hmode as [Hmode|Hmode]; [congruence|].
    assert (Hne : self_groups p <> []) by (rewrite Eg; discriminate).
    destruct (arrange_grouped p (terms p s) Hne (nonempty_Forall _ Hts)) as (d & _ & _ & Ha).
    unfold split. rewrite Ha. unfold grouped.
    rewrite Ep. cbn [self_group self_groups self_result].
    destruct (group a); try (eexists; reflexivity). congruence.
Qed.

Lemma split_never_fails_witness :
  plain search_parser_args = true /\
  init search_parser_args
  = Ok (built search_parser_args [None; Some "+"%char; Some "-"%char]) /\
  normalize search_parser_args = None /\
  (groups search_parser_args = Some [] \/ group search_parser_args <> GSet) /\
  exists out,
    split (built search_parser_args [None; Some "+"%char; Some "-"%char])
          (VStr (py "+ - 'x")) = Ok out.
Proof.
  assert (H1 : plain search_parser_args = true) by reflexivity.
  assert (H2 : init search_parser_args
               = Ok (built search_parser_args [None; Some "+"%char; Some "-"%char]))
    by (vm_compute; reflexivity).
  assert (H3 : normalize search_parser_args = None) by reflexivity.
  assert (H4 : groups search_parser_args = Some [] \/ group search_parser_args <> GSet)
    by (right; discriminate).
  exact (conj H1 (conj H2 (conj H3 (conj H4 (split_never_fails _ _ (py "+ - 'x") H1 H2 H3 H4))))).
Defined.

(** X4: with markers configured, [group=set] makes every call of [split] on a
    string fail: the lists of terms cannot be members of a set. This is so
    even for the empty input. *)
Theorem set_grouping_fails (p : KeywordProcessor) (s : str) :
  self_groups p <> [] -> self_group p = GSet ->
  forallb nonempty (terms p s) = true ->
  split p (VStr s) = Raise (TypeError "unhashable type: 'list'").
Proof.
  intros Hg Hs Hts.
  destruct (arrange_grouped p (terms p s) Hg (nonempty_Forall _ Hts)) as (d & _ & _ & Ha).
  unfold split. rewrite Ha. unfold grouped. rewrite Hs. reflexivity.
Qed.

Lemma set_grouping_fails_witness :
  self_groups set_parser <> [] /\ self_group set_parser = GSet /\
  forallb nonempty (terms set_parser []) = true /\
  split set_parser (VStr []) = Raise (TypeError "unhashable type: 'list'").
Proof.
  assert (H1 : self_groups set_parser <> []) by discriminate.
  assert (H2 : self_group set_parser = GSet) by reflexivity.
  assert (H3 : forallb nonempty (terms set_parser []) = true) by (vm_compute; reflexivity).
  exact (conj H1 (conj H2 (conj H3 (set_grouping_fails _ _ H1 H2 H3)))).
Defined.


(** ** A marker in front of a token *)

Section MarkedTokens.

Context {R : Type}.
Implicit Types (k : str -> str -> option R).

Lemma marker_items_marked a m :
  is_marker a m = true ->
  marker_items a = [Re.Atom (set_of (omap id (default [] (groups a))))
                            (if optional_marker a then Re.Opt else Re.One)].
Proof.
  intros Hm. unfold marker_items, optional_marker, is_marker in *.
  destruct (groups a) as [[|g0 g]|]; try discriminate Hm. reflexivity.
Qed.

(** The marker and a span in the first quote character. *)
Lemma choice_marked_quoted a m i q body u g k x :
  default [] (quotes a) = i :: q -> is_marker a m = true ->
  body <> [] -> forallb (fun c => negb (Ascii.eqb c i)) body = true ->
  k u g = Some x ->
  Re.rmatch (choice a) (m :: i :: body ++ i :: u) g k = Some x.
Proof.
  intros Hq Hm Hne Hb Hk. unfold choice, alternatives. rewrite Hq.
  cbn [map app]. rewrite first_alt. rewrite (marker_items_marked a m Hm).
  cbn [app Re.mk_seq fold_right Re.rmatch].
  change (fold_right Re.Seq Re.Eps (quoted i)) with (Re.mk_seq (quoted i)).
  assert (Hin : Re.cs_mem (set_of (omap id (default [] (groups a)))) m = true)
    by (rewrite mem_markers; exact Hm).
  assert (Hok : Re.rmatch (Re.mk_seq (quoted i)) (i :: body ++ i :: u) g k = Some x)
    by (apply quoted_ok; assumption).
  destruct (optional_marker a); cbn [Re.atom Re.one]; rewrite Hin, Hok; reflexivity.
Qed.

(** The marker and anything but the first quote character: the bare
    run. *)
Lemma choice_marked_bare a m i q w g k x :
  default [] (quotes a) = i :: q -> is_marker a m = true ->
  is_quote a m = false -> is_sep a m = false ->
  stops (fun c => Ascii.eqb c i) w ->
  k (drop_run (fun c => negb (is_sep a c)) w) g = Some x ->
  Re.rmatch (choice a) (m :: w) g k = Some x.
Proof.
  intros Hq Hm Hnq Hns Hw Hk. unfold choice, alternatives. rewrite Hq.
  assert (Hmq : forall j, In j (i :: q) -> stops (fun c => Ascii.eqb c j) (m :: w)).
  { intros j Hj. cbn [stops]. apply Ascii.eqb_neq. intros ->.
    unfold is_quote in Hnq. rewrite Hq in Hnq.
    rewrite <- not_true_iff_false in Hnq. apply Hnq.
    apply existsb_exists. exists j. split; [exact Hj|apply Ascii.eqb_refl]. }
  cbn [map app]. rewrite first_alt. rewrite (marker_items_marked a m Hm).
  assert (Hfirst : Re.rmatch
    (Re.mk_seq ([Re.Atom (set_of (omap id (default [] (groups a))))
                         (if optional_marker a then Re.Opt else Re.One)] ++ quoted i))
    (m :: w) g k = None).
  { cbn [app Re.mk_seq fold_right Re.rmatch].
    change (fold_right Re.Seq Re.Eps (quoted i)) with (Re.mk_seq (quoted i)).
    assert (Hin : Re.cs_mem (set_of (omap id (default [] (groups a)))) m = true)
      by (rewrite mem_markers; exact Hm).
    pose proof (quoted_fail_head i w g k Hw) as H1.
    pose proof (quoted_fail_head i (m :: w) g k (Hmq i (or_introl eq_refl))) as H2.
    destruct (optional_marker a); cbn [Re.atom Re.one]; rewrite Hin, H1; [exact H2|reflexivity]. }
  rewrite Hfirst.
  rewrite alts_skip by (intros j Hj; apply quoted_fail_head, Hmq; right; exact Hj).
  apply last_alt.
  pose proof (take_drop_run (fun c => negb (is_sep a c)) (m :: w)) as Hs.
  rewrite <- Hs. apply bare_ok.
  - apply take_run_nonempty. rewrite Hns. reflexivity.
  - apply take_run_all.
  - apply drop_run_stops.
  - cbn [drop_run]. rewrite Hns. exact Hk.
Qed.

End MarkedTokens.

Lemma findall_marked_quoted a m i q l body rest :
  default [] (quotes a) = i :: q -> is_marker a m = true -> is_lead a m = false ->
  forallb (is_lead a) l = true ->
  body <> [] -> forallb (fun c => negb (Ascii.eqb c i)) body = true ->
  Re.findall (regex_of a) (l ++ m :: i :: body ++ i :: rest)
  = (m :: i :: body ++ [i]) :: Re.findall (regex_of a) (drop_run (is_sep a) rest).
Proof.
  intros Hq Hm Hlead Hl Hne Hb.
  rewrite <- (take_drop_run (is_sep a) rest) at 1.
  replace (l ++ m :: i :: body ++ i :: take_run (is_sep a) rest ++ drop_run (is_sep a) rest)
    with (l ++ (m :: i :: body ++ [i]) ++ take_run (is_sep a) rest ++ drop_run (is_sep a) rest)
    by (simpl; rewrite <- app_assoc; reflexivity).
  apply findall_token; try assumption.
  - discriminate.
  - intros g k x Hk.
    replace ((m :: i :: body ++ [i]) ++ take_run (is_sep a) rest ++ drop_run (is_sep a) rest)
      with (m :: i :: body ++ i :: take_run (is_sep a) rest ++ drop_run (is_sep a) rest)
      by (simpl; rewrite <- app_assoc; reflexivity).
    eapply choice_marked_quoted; eassumption.
  - apply take_run_all.
  - apply drop_run_stops.
Qed.

Lemma findall_marked_bare a m i q l w :
  default [] (quotes a) = i :: q -> is_marker a m = true ->
  is_quote a m = false -> is_lead a m = false ->
  forallb (is_lead a) l = true ->
  stops (fun c => Ascii.eqb c i) w ->
  Re.findall (regex_of a) (l ++ m :: w)
  = (m :: take_run (fun c => negb (is_sep a c)) w)
    :: Re.findall (regex_of a)
         (drop_run (is_sep a) (drop_run (fun c => negb (is_sep a c)) w)).
Proof.
  intros Hq Hm Hnq Hlead Hl Hw.
  set (np := fun c => negb (is_sep a c)).
  assert (Hsep : is_sep a m = false).
  { unfold is_lead in Hlead. apply orb_false_iff in Hlead. tauto. }
  set (s2 := drop_run np w).
  assert (E : m :: w = (m :: take_run np w) ++ take_run (is_sep a) s2 ++ drop_run (is_sep a) s2).
  { rewrite take_drop_run. simpl. unfold s2. rewrite take_drop_run. reflexivity. }
  rewrite E. apply findall_token; try assumption.
  - discriminate.
  - intros g k x Hk. rewrite take_drop_run in *.
    cbn [app]. unfold s2. rewrite take_drop_run.
    eapply choice_marked_bare; try eassumption.
  - apply take_run_all.
  - apply drop_run_stops.
Qed.

(** * Markers and quotes *)

(** X5: a marker binds to the first quote character only. For a processor
    with quote characters, built from characters the pattern takes
    literally, and a marker [m] that is neither a quote, a separator nor
    white space: [m] followed by a span in the first quote character is
    one token, separators included; [m] followed by anything else, a span
    in another quote character included, starts a token that ends at the
    next separator. *)
Theorem marker_binds_first_quote (a : args) (p : KeywordProcessor) (m i : ascii)
    (q : list ascii) (l : str) :
  plain a = true -> init a = Ok p ->
  quotes a = Some (i :: q) ->
  is_marker a m = true -> is_quote a m = false -> is_lead a m = false ->
  forallb (is_lead a) l = true ->
  (forall body rest,
     body <> [] -> forallb (fun c => negb (Ascii.eqb c i)) body = true ->
     Re.findall (self_regex p) (l ++ m :: i :: body ++ i :: rest)
     = (m :: i :: body ++ [i]) :: Re.findall (self_regex p) (drop_run (is_sep a) rest)) /\
  (forall w,
     head w <> Some i ->
     Re.findall (self_regex p) (l ++ m :: w)
     = (m :: take_run (fun c => negb (is_sep a c)) w)
       :: Re.findall (self_regex p)
            (drop_run (is_sep a) (drop_run (fun c => negb (is_sep a c)) w))).
Proof.
  intros Hp Hi Hq Hm Hnq Hlead Hl. destruct (init_inv a p Hp Hi) as (_ & _ & Ep).
  rewrite Ep. cbn [self_regex].
  assert (Hq' : default [] (quotes a) = i :: q) by (rewrite Hq; reflexivity).
  split.
  - intros body rest Hne Hb. eapply findall_marked_quoted; eassumption.
  - intros w Hw. eapply findall_marked_bare; try eassumption.
    destruct w as [|c w]; [exact I|]. cbn [stops]. apply Ascii.eqb_neq.
    intros ->. apply Hw. reflexivity.
Qed.

Lemma marker_binds_first_quote_witness :
  plain search_parser_args = true /\
  init search_parser_args
  = Ok (built search_parser_args [None; Some "+"%char; Some "-"%char]) /\
  quotes search_parser_args = Some [dquote; squote] /\
  is_marker search_parser_args "+" = true /\
  is_quote search_parser_args "+" = false /\
  is_lead search_parser_args "+" = false /\
  forallb (is_lead search_parser_args) (py " ") = true /\
  (forall body rest,
     body <> [] -> forallb (fun c => negb (Ascii.eqb c dquote)) body = true ->
     Re.findall (self_regex (built search_parser_args [None; Some "+"%char; Some "-"%char]))
                (py " " ++ "+"%char :: dquote :: body ++ dquote :: rest)
     = ("+"%char :: dquote :: body ++ [dquote])
       :: Re.findall (self_regex (built search_parser_args
                                    [None; Some "+"%char; Some "-"%char]))
                     (drop_run (is_sep search_parser_args) rest)) /\
  (forall w,
     head w <> Some dquote ->
     Re.findall (self_regex (built search_parser_args [None; Some "+"%char; Some "-"%char]))
                (py " " ++ "+"%char :: w)
     = ("+"%char :: take_run (fun c => negb (is_sep search_parser_args c)) w)
       :: Re.findall (self_regex (built search_parser_args
                                    [None; Some "+"%char; Some "-"%char]))
            (drop_run (is_sep search_parser_args)
               (drop_run (fun c => negb (is_sep search_parser_args c)) w))).
Proof.
  assert (H1 : plain search_parser_args = true) by reflexivity.
  assert (H2 : init search_parser_args
               = Ok (built search_parser_args [None; Some "+"%char; Some "-"%char]))
    by (vm_compute; reflexivity).
  assert (H3 : quotes search_parser_args = Some [dquote; squote]) by reflexivity.
  assert (H4 : is_marker search_parser_args "+" = true) by reflexivity.
  assert (H5 : is_quote search_parser_args "+" = false) by reflexivity.
  assert (H6 : is_lead search_parser_args "+" = false) by reflexivity.
  assert (H7 : forallb (is_lead search_parser_args) (py " ") = true) by reflexivity.
  exact (conj H1 (conj H2 (conj H3 (conj H4 (conj H5 (conj H6 (conj H7
           (marker_binds_first_quote _ _ _ _ _ _ H1 H2 H3 H4 H5 H6 H7)))))))).
Defined.

(** The search parser of the notebook on a marked phrase in apostrophes:
    the phrase is cut at the space, and on a marked phrase in double
    quotes: it is kept whole. *)
Example marked_apostrophe_example :
  (do p <- init search_parser_args ;
   Ok (Re.findall (self_regex p) ("+"%char :: squote :: py "a b" ++ [squote])))
  = Ok [ "+"%char :: squote :: py "a"; py "b" ++ [squote] ] /\
  (do p <- init search_parser_args ;
   Ok (Re.findall (self_regex p) ("+"%char :: dquote :: py "a b" ++ [dquote])))
  = Ok [ "+"%char :: dquote :: py "a b" ++ [dquote] ].
Proof. split; vm_compute; reflexivity. Qed.





(** * The tokens and the input *)



Section Strip.

Variable p : ascii -> bool.

Lemma drop_run_nil s : drop_run p s = [] -> forallb p s = true.
Proof.
  induction s as [|c s IH]; simpl; [reflexivity|].
  destruct (p c); [exact IH|discriminate].
Qed.

Lemma drop_run_app s r : drop_run p s <> [] -> drop_run p (s ++ r) = drop_run p s ++ r.
Proof.
  induction s as [|c s IH]; simpl; [congruence|].
  destruct (p c); [exact IH|reflexivity].
Qed.

Lemma drop_run_blank s : forallb p s = true -> drop_run p s = [].
Proof.
  intros H. rewrite <- (app_nil_r s). rewrite drop_run_all by assumption. reflexivity.
Qed.

Lemma forallb_rev (s : str) : forallb p (rev s) = forallb p s.
Proof.
  induction s as [|c s IH]; [reflexivity|].
  simpl. rewrite forallb_app, IH. simpl. rewrite andb_true_r. apply andb_comm.
Qed.

Lemma strip_run_blank s : forallb p s = true -> strip_run p s = [].
Proof. intros H. unfold strip_run. rewrite (drop_run_blank s) by assumption. reflexivity. Qed.

(** Characters of [p] around a string do not change what [strip] keeps. *)
Lemma strip_run_pad l s r :
  forallb p l = true -> forallb p r = true ->
  strip_run p (l ++ s ++ r) = strip_run p s.
Proof.
  intros Hl Hr. unfold strip_run. rewrite drop_run_all by assumption.
  destruct (drop_run p s) as [|c u] eqn:E.
  - apply drop_run_nil in E.
    rewrite drop_run_all by assumption. rewrite (drop_run_blank r) by assumption. reflexivity.
  - rewrite drop_run_app by congruence. rewrite E.
    rewrite rev_app_distr. rewrite drop_run_all by (rewrite forallb_rev; assumption).
    reflexivity.
Qed.

End Strip.

Lemma isspace_lower_char c : Re.isspace (lower_char c) = Re.isspace c.
Proof. destruct c as [[] [] [] [] [] [] [] []]; reflexivity. Qed.

Lemma drop_run_lower s :
  drop_run Re.isspace (lower s) = lower (drop_run Re.isspace s).
Proof.
  induction s as [|c s IH]; [reflexivity|].
  cbn [lower map drop_run]. rewrite isspace_lower_char.
  destruct (Re.isspace c); [exact IH|reflexivity].
Qed.

Lemma strip_lower_commute s : lower (strip s) = strip (lower s).
Proof.
  unfold strip, strip_run, lower.
  rewrite map_rev. fold (lower (drop_run Re.isspace (rev (drop_run Re.isspace s)))).
  rewrite <- drop_run_lower. unfold lower at 1. rewrite map_rev.
  fold (lower (drop_run Re.isspace s)). rewrite <- drop_run_lower. reflexivity.
Qed.

Lemma among_str (x : str) (words : list string) :
  among (VStr x) words = true <-> exists w, In w words /\ x = py w.
Proof.
  unfold among. rewrite existsb_exists. split.
  - intros (w & Hin & E). cbn [py_eqb] in E. apply bool_decide_eq_true in E. eauto.
  - intros (w & Hin & ->). exists w. split; [exact Hin|].
    cbn [py_eqb]. apply bool_decide_eq_true. reflexivity.
Qed.

Lemma among_bytes (b : list ascii) (words : list string) : among (VBytes b) words = false.
Proof. unfold among. induction words as [|w l IH]; [reflexivity|exact IH]. Qed.

(** * Properties of [boolean] *)

(** X7: white space around a string plays no part in its conversion. *)
Theorem boolean_padding (l s r : str) :
  forallb Re.isspace l = true -> forallb Re.isspace r = true ->
  boolean (PyValue (VStr (l ++ s ++ r))) = boolean (PyValue (VStr s)).
Proof.
  intros Hl Hr. unfold boolean, strip_lower, strip.
  rewrite strip_run_pad by assumption. reflexivity.
Qed.

Lemma boolean_padding_witness :
  forallb Re.isspace (py "  ") = true /\ forallb Re.isspace [tab] = true /\
  boolean (PyValue (VStr (py "  " ++ py "Yes" ++ [tab]))) = boolean (PyValue (VStr (py "Yes"))).
Proof.
  assert (H1 : forallb Re.isspace (py "  ") = true) by reflexivity.
  assert (H2 : forallb Re.isspace [tab] = true) by reflexivity.
  exact (conj H1 (conj H2 (boolean_padding _ (py "Yes") _ H1 H2))).
Defined.

(** X8: the conversion is case-insensitive: two strings that differ by the
    case of their letters are converted alike, to the same value or to the
    same error. *)
Theorem boolean_case_insensitive (s t : str) :
  same_letters s t ->
  boolean (PyValue (VStr s)) = boolean (PyValue (VStr t)).
Proof.
  unfold same_letters. intros H. unfold boolean, strip_lower.
  rewrite !strip_lower_commute, H. reflexivity.
Qed.

Lemma boolean_case_insensitive_witness :
  same_letters (py "FaLsE") (py "false") /\
  boolean (PyValue (VStr (py "FaLsE"))) = boolean (PyValue (VStr (py "false"))).
Proof.
  assert (H1 : same_letters (py "FaLsE") (py "false")) by reflexivity.
  exact (conj H1 (boolean_case_insensitive _ _ H1)).
Defined.

(** X9: a string that is empty or made of white space is not converted to
    [False]: [boolean] raises [ValueError] for it, about the empty
    string. *)
Theorem boolean_blank (s : str) :
  forallb Re.isspace s = true ->
  boolean (PyValue (VStr s)) = ValueError (VStr []).
Proof.
  intros H. unfold boolean, strip_lower, strip. rewrite strip_run_blank by assumption.
  reflexivity.
Qed.

Lemma boolean_blank_witness :
  forallb Re.isspace (py "   ") = true /\
  boolean (PyValue (VStr (py "   "))) = ValueError (VStr []).
Proof.
  assert (H1 : forallb Re.isspace (py "   ") = true) by reflexivity.
  exact (conj H1 (boolean_blank _ H1)).
Defined.

(** X10: [boolean] on text. For a string it returns [True] when the
    stripped and lowered text is one of the six words for true, [False]
    when it is one of the six words for false, and raises [ValueError]
    for every other text; the error carries the stripped and lowered
    text. For a [bytes] object it raises [ValueError] whatever the
    content: the object has the methods [strip] and [lower], so it is not
    handed to [bool], and it equals none of the twelve words, which are
    [str]. *)
Theorem boolean_errors :
  (forall (s : str) (b : bool),
     boolean (PyValue (VStr s)) = Return b <->
     exists w, In w (if b then true_words else false_words) /\ lower (strip s) = py w) /\
  (forall (s : str) (v : pyvalue),
     boolean (PyValue (VStr s)) = ValueError v <->
     v = VStr (lower (strip s)) /\
     forall w, In w (true_words ++ false_words) -> lower (strip s) <> py w) /\
  (forall b : str,
     boolean (PyValue (VBytes b))
     = ValueError (VBytes (map lower_byte (strip_run isspace_byte b)))).
Proof.
  assert (Hdis : forall w, In w false_words -> among (VStr (py w)) true_words = false).
  { intros w Hw. cbn in Hw.
    repeat (destruct Hw as [<-|Hw]; [vm_compute; reflexivity|]). destruct Hw. }
  split; [|split].
  - intros s b. unfold boolean; cbn [strip_lower]. split.
    + destruct (among (VStr (lower (strip s))) true_words) eqn:Et.
      { intros [= <-]. apply among_str in Et. exact Et. }
      destruct (among (VStr (lower (strip s))) false_words) eqn:Ef; [|discriminate].
      intros [= <-]. apply among_str in Ef. exact Ef.
    + intros (w & Hin & E). destruct b.
      * rewrite (proj2 (among_str _ _)) by eauto. reflexivity.
      * rewrite E, (Hdis w Hin), <- E.
        rewrite (proj2 (among_str _ _)) by eauto. reflexivity.
  - intros s v. unfold boolean; cbn [strip_lower]. split.
    + destruct (among (VStr (lower (strip s))) true_words) eqn:Et; [discriminate|].
      destruct (among (VStr (lower (strip s))) false_words) eqn:Ef; [discriminate|].
      intros [= <-]. split; [reflexivity|].
      intros w Hw E. apply in_app_iff in Hw as [Hw|Hw].
      * rewrite (proj2 (among_str _ _)) in Et by eauto. discriminate.
      * rewrite (proj2 (among_str _ _)) in Ef by eauto. discriminate.
    + intros (-> & Hw).
      destruct (among (VStr (lower (strip s))) true_words) eqn:Et.
      { apply among_str in Et as (w & Hin & E). exfalso.
        apply (Hw w); [apply in_app_iff; left; exact Hin|exact E]. }
      destruct (among (VStr (lower (strip s))) false_words) eqn:Ef; [|reflexivity].
      apply among_str in Ef as (w & Hin & E). exfalso.
      apply (Hw w); [apply in_app_iff; right; exact Hin|exact E].
  - intros b. unfold boolean; cbn [strip_lower]. rewrite !among_bytes. reflexivity.
Qed.

(** ** The order on strings *)

Lemma str_leb_refl a : str_leb a a = true.
Proof. induction a as [|x a IH]; simpl; [reflexivity|]. rewrite Nat.ltb_irrefl. exact IH. Qed.

Lemma str_leb_antisym a : forall b, str_leb a b = true -> str_leb b a = true -> a = b.
Proof.
  induction a as [|x a IH]; intros [|y b]; simpl; try congruence.
  destruct (Nat.ltb_spec (nat_of_ascii x) (nat_of_ascii y)),
           (Nat.ltb_spec (nat_of_ascii y) (nat_of_ascii x));
    try congruence; try lia.
  intros H1 H2. f_equal; [|apply IH; assumption].
  rewrite <- (ascii_nat_embedding x), <- (ascii_nat_embedding y). f_equal. lia.
Qed.

Lemma str_ltb_leb a b : str_ltb a b = true -> str_leb a b = true.
Proof.
  unfold str_ltb. intros H. apply negb_true_iff in H. apply str_leb_total. exact H.
Qed.

Lemma str_ltb_ne a b : str_ltb a b = true -> a <> b.
Proof.
  unfold str_ltb. intros H ->. rewrite str_leb_refl in H. discriminate.
Qed.

Lemma str_ltb_trans a b c : str_ltb a b = true -> str_ltb b c = true -> str_ltb a c = true.
Proof.
  intros Hab Hbc. unfold str_ltb. apply negb_true_iff.
  destruct (str_leb c a) eqn:E; [|reflexivity].
  pose proof (str_leb_trans c a b E (str_ltb_leb _ _ Hab)) as Hcb.
  unfold str_ltb in Hbc. rewrite Hcb in Hbc. discriminate.
Qed.

(** Away from equality, [<] and [<=] agree. *)
Lemma str_ltb_of_ne a b : a <> b -> str_ltb a b = str_leb a b.
Proof.
  intros Hne. unfold str_ltb.
  destruct (str_leb a b) eqn:E1, (str_leb b a) eqn:E2; try reflexivity.
  - exfalso. apply Hne. apply str_leb_antisym; assumption.
  - apply str_leb_total in E1. congruence.
Qed.

(** ** Increasing lists *)

Lemma increasing_tail e l : increasing (e :: l) = true -> increasing l = true.
Proof. destruct l; simpl; [reflexivity|]. intros H. apply andb_true_iff in H. tauto. Qed.

Lemma increasing_head e l :
  increasing (e :: l) = true -> forall e', In e' l -> str_ltb (fst e) (fst e') = true.
Proof.
  revert e. induction l as [|x l IH]; intros e H e' Hin; [destruct Hin|].
  simpl in H. apply andb_true_iff in H as [Hex H].
  destruct Hin as [->|Hin]; [exact Hex|].
  apply (str_ltb_trans _ (fst x)); [exact Hex|]. apply IH; assumption.
Qed.

Lemma increasing_lookup (a : list (str * bool)) : forall i j e e',
  increasing a = true -> a !! i = Some e -> a !! j = Some e' -> i < j ->
  str_ltb (fst e) (fst e') = true.
Proof.
  induction a as [|x a IH]; intros i j e e' Hinc Hi Hj Hlt; [discriminate|].
  destruct j as [|j]; [lia|]. cbn in Hj.
  destruct i as [|i].
  - cbn in Hi. inversion Hi; subst. apply (increasing_head e a Hinc).
    apply list_elem_of_In. eapply list_elem_of_lookup_2. exact Hj.
  - cbn in Hi. apply (IH i j); [exact (increasing_tail _ _ Hinc)|assumption..|lia].
Qed.

(** ** The brute force loop *)

Lemma last_cons_default {A} (x y : A) (l : list A) :
  default y (last (x :: l)) = default x (last l).
Proof.
  revert x y. induction l as [|z l IH]; intros x y; [reflexivity|].
  change (last (x :: z :: l)) with (last (z :: l)).
  rewrite (IH z y), (IH z x). reflexivity.
Qed.

Lemma filter_after (l : list (str * bool)) (now : str) :
  (forall e, In e l -> str_leb (fst e) now = false) ->
  filter (fun e => str_leb (fst e) now = true) l = [].
Proof.
  induction l as [|x l IH]; intros H; [reflexivity|].
  rewrite filter_cons. destruct (decide _) as [E|_].
  - rewrite H in E by (left; reflexivity). discriminate.
  - apply IH. intros e He. apply H. right. exact He.
Qed.

Lemma brute_force_loop_state (l : list (str * bool)) (now : str) : forall is_open,
  increasing l = true ->
  brute_force_loop l now is_open
  = default is_open (last (map snd (filter (fun e => str_leb (fst e) now = true) l))).
Proof.
  induction l as [|[time available] l IH]; intros is_open Hinc; [reflexivity|].
  cbn [brute_force_loop]. unfold str_gtb. rewrite filter_cons. cbn [fst].
  destruct (str_leb time now) eqn:E; cbn [negb].
  - rewrite decide_True by reflexivity. cbn [map snd].
    rewrite last_cons_default. apply IH. exact (increasing_tail _ _ Hinc).
  - rewrite decide_False by discriminate.
    rewrite filter_after; [reflexivity|].
    intros e He. pose proof (increasing_head _ _ Hinc e He) as Hlt. cbn [fst] in Hlt.
    destruct (str_leb (fst e) now) eqn:E'; [|reflexivity].
    apply str_ltb_leb in Hlt.
    rewrite (str_leb_trans _ _ _ Hlt E') in E. discriminate.
Qed.

Lemma brute_force_is_state (a : list (str * bool)) (now : str) :
  increasing a = true -> brute_force a now = state_at a now.
Proof. intros Hinc. apply brute_force_loop_state. exact Hinc. Qed.

(** ** The bisection *)

Lemma mid_bounds lo hi : lo < hi -> lo <= (lo + hi) / 2 < hi.
Proof.
  intros H. split.
  - apply Nat.div_le_lower_bound; lia.
  - apply Nat.Div0.div_lt_upper_bound; lia.
Qed.

(** At a listed time the search reaches the entry of that time, and the
    comparison of its flag with [None] fails. *)
Lemma bisect_loop_listed (a : list (str * bool)) (now : str) (k : nat) (flag : bool) :
  increasing a = true -> a !! k = Some (now, flag) ->
  forall fuel lo hi,
    lo <= k < hi -> hi <= length a -> hi - lo <= fuel ->
    bisect_loop fuel a (now, None) lo hi = Raise bool_none.
Proof.
  intros Hinc Hk. induction fuel as [|fuel IH]; intros lo hi Hlo Hhi Hfuel; [lia|].
  cbn [bisect_loop]. destruct (Nat.ltb_spec lo hi) as [Hlt|]; [|lia].
  pose proof (mid_bounds lo hi Hlt) as Hmid.
  destruct (lookup_lt_is_Some_2 a ((lo + hi) / 2)) as [e He]; [lia|].
  rewrite He. unfold entry_lt. cbn [fst snd].
  destruct (lt_eq_lt_dec ((lo + hi) / 2) k) as [[Hc|Hc]|Hc].
  - pose proof (increasing_lookup a _ _ _ _ Hinc He Hk Hc) as Hl. cbn [fst] in Hl.
    rewrite bool_decide_false by (apply str_ltb_ne; exact Hl).
    cbn [bind]. rewrite Hl. apply IH; lia.
  - rewrite Hc in He. rewrite Hk in He. inversion He; subst. cbn [fst].
    rewrite bool_decide_true by reflexivity. reflexivity.
  - pose proof (increasing_lookup a _ _ _ _ Hinc Hk He Hc) as Hl. cbn [fst] in Hl.
    rewrite bool_decide_false by (intros E; apply str_ltb_ne in Hl; congruence).
    cbn [bind]. unfold str_ltb at 1. rewrite (str_ltb_leb _ _ Hl). cbn [negb].
    apply IH; lia.
Qed.

(** Away from the listed times the search returns the number of entries
    whose time is before [now]. *)
Lemma bisect_loop_unlisted (a : list (str * bool)) (now : str) :
  increasing a = true -> (forall flag, ~ In (now, flag) a) ->
  forall fuel lo hi,
    lo <= hi -> hi <= length a -> hi - lo <= fuel ->
    (forall j e, a !! j = Some e -> j < lo -> str_leb (fst e) now = true) ->
    (forall j e, a !! j = Some e -> hi <= j -> str_leb (fst e) now = false) ->
    exists i, bisect_loop fuel a (now, None) lo hi = Ok i /\ i <= length a /\
      forall j e, a !! j = Some e -> str_leb (fst e) now = (j <? i).
Proof.
  intros Hinc Hnot. induction fuel as [|fuel IH]; intros lo hi Hlo Hhi Hfuel Hbelow Habove.
  - assert (lo = hi) by lia. subst hi. exists lo. cbn [bisect_loop].
    rewrite Nat.ltb_irrefl. split; [reflexivity|]. split; [exact Hhi|].
    intros j e He. destruct (Nat.ltb_spec j lo); [eapply Hbelow|eapply Habove]; eassumption.
  - cbn [bisect_loop]. destruct (Nat.ltb_spec lo hi) as [Hlt|Hge].
    + pose proof (mid_bounds lo hi Hlt) as Hmid.
      destruct (lookup_lt_is_Some_2 a ((lo + hi) / 2)) as [e He]; [lia|].
      rewrite He. unfold entry_lt. cbn [fst snd].
      assert (Hne : fst e <> now).
      { intros E. apply (Hnot (snd e)). rewrite <- E.
        apply list_elem_of_In. eapply list_elem_of_lookup_2.
        rewrite <- surjective_pairing. exact He. }
      rewrite bool_decide_false by exact Hne. cbn [bind].
      rewrite (str_ltb_of_ne _ _ Hne).
      destruct (str_leb (fst e) now) eqn:E.
      * apply IH; [lia..| |exact Habove].
        intros j e' He' Hj.
        destruct (Nat.eq_dec j ((lo + hi) / 2)) as [->|Hn]; [congruence|].
        assert (Hjm : j < (lo + hi) / 2) by lia.
        pose proof (increasing_lookup a _ _ _ _ Hinc He' He Hjm) as Hl.
        apply (str_leb_trans _ (fst e)); [apply str_ltb_leb; exact Hl|exact E].
      * apply IH; [lia..|exact Hbelow|].
        intros j e' He' Hj.
        destruct (Nat.eq_dec j ((lo + hi) / 2)) as [->|Hn]; [congruence|].
        assert (Hjm : (lo + hi) / 2 < j) by lia.
        pose proof (increasing_lookup a _ _ _ _ Hinc He He' Hjm) as Hl.
        destruct (str_leb (fst e') now) eqn:E'; [|reflexivity].
        rewrite (str_leb_trans _ _ _ (str_ltb_leb _ _ Hl) E') in E. discriminate.
    + assert (lo = hi) by lia. subst hi. exists lo. split; [reflexivity|]. split; [exact Hhi|].
      intros j e He. destruct (Nat.ltb_spec j lo); [eapply Hbelow|eapply Habove]; eassumption.
Qed.

Lemma filter_take (a : list (str * bool)) (now : str) : forall i,
  i <= length a ->
  (forall j e, a !! j = Some e -> str_leb (fst e) now = (j <? i)) ->
  filter (fun e => str_leb (fst e) now = true) a = take i a.
Proof.
  induction a as [|x a IH]; intros i Hi H; [destruct i; reflexivity|].
  rewrite filter_cons. pose proof (H 0 x eq_refl) as H0.
  destruct i as [|i].
  - cbn in H0. rewrite decide_False by congruence. cbn [take].
    apply filter_after. intros e He. apply list_elem_of_In, list_elem_of_lookup_1 in He as [j Hj].
    rewrite (H (S j) e Hj). reflexivity.
  - cbn in H0. rewrite decide_True by exact H0. cbn [take]. f_equal.
    apply IH; [simpl in Hi; lia|]. intros j e Hj. rewrite (H (S j) e Hj). reflexivity.
Qed.

Lemma bisect_left_unlisted (a : list (str * bool)) (now : str) :
  increasing a = true -> (forall flag, ~ In (now, flag) a) ->
  exists i, bisect_left a (now, None) = Ok i /\ i <= length a /\
            filter (fun e => str_leb (fst e) now = true) a = take i a.
Proof.
  intros Hinc Hnot.
  destruct (bisect_loop_unlisted a now Hinc Hnot (length a) 0 (length a))
    as (i & Hb & Hi & Hp); try lia.
  - intros j e He Hj. apply lookup_lt_Some in He. lia.
  - exists i. split; [exact Hb|]. split; [exact Hi|]. apply filter_take; assumption.
Qed.

Lemma getitem_pred {A} (l : list A) (i : nat) (x : A) :
  l !! i = Some x -> getitem l (Z.of_nat (S i) - 1) = Ok x.
Proof.
  intros H. unfold getitem.
  destruct (Z.ltb_spec (Z.of_nat (S i) - 1) 0) as [|_]; [lia|].
  destruct (Z.ltb_spec (Z.of_nat (S i) - 1) 0) as [|_]; [lia|].
  replace (Z.to_nat (Z.of_nat (S i) - 1)) with i by lia. rewrite H. reflexivity.
Qed.

Lemma getitem_last {A} (l : list A) :
  getitem l (Z.of_nat 0 - 1)
  = match last l with Some x => Ok x | None => Raise IndexError end.
Proof.
  unfold getitem. change (Z.of_nat 0 - 1)%Z with (-1)%Z. change (-1 <? 0)%Z with true.
  cbv iota. destruct l as [|x l]; [reflexivity|].
  destruct (Z.ltb_spec (-1 + Z.of_nat (length (x :: l))) 0) as [H|_]; [simpl in H; lia|].
  rewrite last_lookup.
  replace (Z.to_nat (-1 + Z.of_nat (length (x :: l)))) with (pred (length (x :: l)))
    by (simpl; lia).
  destruct (lookup_lt_is_Some_2 (x :: l) (pred (length (x :: l)))) as [y Hy]; [simpl; lia|].
  rewrite Hy. reflexivity.
Qed.

Lemma last_take_lookup {A} (l : list A) (i : nat) (x : A) :
  l !! i = Some x -> last (take (S i) l) = Some x.
Proof.
  intros H. rewrite last_lookup. rewrite length_take.
  pose proof (lookup_lt_Some _ _ _ H) as Hlt.
  replace (pred (S i `min` length l)) with i by lia.
  rewrite lookup_take_lt by lia. exact H.
Qed.

Lemma last_map {A B} (f : A -> B) (l : list A) : last (map f l) = option_map f (last l).
Proof.
  induction l as [|x l IH]; [reflexivity|].
  destruct l as [|y l]; [reflexivity|]. exact IH.
Qed.

(** The result of the bisection away from the listed times. *)
Lemma bisection_unlisted (a : list (str * bool)) (now : str) :
  increasing a = true -> (forall flag, ~ In (now, flag) a) ->
  bisection a now
  = match filter (fun e => str_leb (fst e) now = true) a with
    | [] => match last a with Some e => Ok (snd e) | None => Raise IndexError end
    | _ :: _ => Ok (state_at a now)
    end.
Proof.
  intros Hinc Hnot. destruct (bisect_left_unlisted a now Hinc Hnot) as (i & Hb & Hi & Hf).
  unfold bisection, state_at. rewrite Hb, Hf. cbn [bind].
  destruct i as [|i].
  - cbn [take]. rewrite getitem_last. destruct (last a); reflexivity.
  - destruct (lookup_lt_is_Some_2 a i) as [e He]; [lia|].
    rewrite (getitem_pred a i e He). cbn [bind].
    destruct (take (S i) a) as [|y l] eqn:Et.
    + apply (f_equal (@length _)) in Et. rewrite length_take in Et. cbn [length] in Et. lia.
    + rewrite <- Et. rewrite last_map, (last_take_lookup a i e He). reflexivity.
Qed.

Lemma filter_nonempty_In (a : list (str * bool)) (now : str) (e : str * bool) :
  In e a -> str_leb (fst e) now = true ->
  filter (fun e => str_leb (fst e) now = true) a <> [].
Proof.
  intros Hin He Hf.
  assert (H : e ∈ filter (fun e => str_leb (fst e) now = true) a).
  { apply list_elem_of_filter. split; [exact He|apply list_elem_of_In; exact Hin]. }
  rewrite Hf in H. inversion H.
Qed.

Lemma state_at_listed (a : list (str * bool)) (now : str) (flag : bool) :
  increasing a = true -> In (now, flag) a -> state_at a now = flag.
Proof.
  intros Hinc Hin. apply list_elem_of_In, list_elem_of_lookup_1 in Hin as [k Hk].
  pose proof (lookup_lt_Some _ _ _ Hk) as Hlt.
  unfold state_at. rewrite (filter_take a now (S k)); [| lia |].
  - rewrite last_map, (last_take_lookup a k _ Hk). reflexivity.
  - intros j e He. destruct (lt_eq_lt_dec j k) as [[Hc|Hc]|Hc].
    + pose proof (increasing_lookup a _ _ _ _ Hinc He Hk Hc) as Hl. cbn [fst] in Hl.
      rewrite (str_ltb_leb _ _ Hl). symmetry. apply Nat.ltb_lt. lia.
    + subst j. rewrite Hk in He. inversion He; subst. cbn [fst]. rewrite str_leb_refl.
      symmetry. apply Nat.ltb_lt. lia.
    + pose proof (increasing_lookup a _ _ _ _ Hinc Hk He Hc) as Hl. cbn [fst] in Hl.
      unfold str_ltb in Hl. apply negb_true_iff in Hl. rewrite Hl.
      symmetry. apply Nat.ltb_ge. lia.
Qed.

Lemma bisection_listed (a : list (str * bool)) (now : str) (flag : bool) :
  increasing a = true -> In (now, flag) a -> bisection a now = Raise bool_none.
Proof.
  intros Hinc Hin. apply list_elem_of_In, list_elem_of_lookup_1 in Hin as [k Hk].
  pose proof (lookup_lt_Some _ _ _ Hk) as Hlt.
  unfold bisection, bisect_left.
  rewrite (bisect_loop_listed a now k flag Hinc Hk) by lia. reflexivity.
Qed.

(** * Properties of the opening time cells *)

(** X11: on a list of strictly increasing times the brute force loop computes
    the state of the store at [now]: the flag of the last entry whose
    time is not after [now], and [False] before the first entry. *)
Theorem brute_force_state (times : list (str * bool)) (now : str) :
  increasing times = true ->
  brute_force times now = state_at times now.
Proof. apply brute_force_is_state. Qed.

Lemma brute_force_state_witness :
  increasing times = true /\
  brute_force times (py "15:15") = state_at times (py "15:15").
Proof.
  assert (H1 : increasing times = true) by reflexivity.
  exact (conj H1 (brute_force_state _ (py "15:15") H1)).
Defined.

(** X12: at one of the listed times the two answers differ: the brute force
    loop returns the flag listed for that time, and the bisection raises
    [TypeError], because the search compares the entry of that time with
    [(now, None)], whose second component cannot be compared with a
    [bool]. *)
Theorem bisection_listed_time (times : list (str * bool)) (now : str) (flag : bool) :
  increasing times = true -> In (now, flag) times ->
  bisection times now = Raise bool_none /\ brute_force times now = flag.
Proof.
  intros Hinc Hin. split.
  - apply (bisection_listed times now flag); assumption.
  - rewrite (brute_force_is_state times now Hinc).
    apply state_at_listed; assumption.
Qed.

Lemma bisection_listed_time_witness :
  increasing times = true /\ In (py "07:30", true) times /\
  bisection times (py "07:30") = Raise bool_none /\ brute_force times (py "07:30") = true.
Proof.
  assert (H1 : increasing times = true) by reflexivity.
  assert (H2 : In (py "07:30", true) times) by (simpl; tauto).
  exact (conj H1 (conj H2 (bisection_listed_time _ _ _ H1 H2))).
Defined.

(** X13: between the listed times, from the first one on, the bisection
    returns what the brute force loop returns. *)
Theorem bisection_agrees (times : list (str * bool)) (now : str) :
  increasing times = true ->
  (forall flag, ~ In (now, flag) times) ->
  (exists e, In e times /\ str_leb (fst e) now = true) ->
  bisection times now = Ok (brute_force times now).
Proof.
  intros Hinc Hnot (e & Hin & He).
  rewrite (bisection_unlisted times now Hinc Hnot).
  pose proof (filter_nonempty_In times now e Hin He) as Hne.
  destruct (filter _ times) eqn:Ef; [congruence|].
  rewrite (brute_force_is_state times now Hinc). reflexivity.
Qed.

Lemma bisection_agrees_witness :
  increasing times = true /\
  (forall flag, ~ In (py "15:15", flag) times) /\
  (exists e, In e times /\ str_leb (fst e) (py "15:15") = true) /\
  bisection times (py "15:15") = Ok (brute_force times (py "15:15")).
Proof.
  assert (H1 : increasing times = true) by reflexivity.
  assert (H2 : forall flag, ~ In (py "15:15", flag) times).
  { intros flag H. simpl in H.
    destruct H as [H|[H|[H|[H|[H|H]]]]]; try discriminate H. exact H. }
  assert (H3 : exists e, In e times /\ str_leb (fst e) (py "15:15") = true).
  { exists (py "00:00", false). split; [simpl; tauto|reflexivity]. }
  exact (conj H1 (conj H2 (conj H3 (bisection_agrees _ _ H1 H2 H3)))).
Defined.

(** X14: before the first listed time the index [-1] of the bisection wraps
    around: it returns the flag of the last entry of the list, where the
    brute force loop returns [False]; on an empty list it raises
    [IndexError]. *)
Theorem bisection_wraps_around (times : list (str * bool)) (now : str) :
  increasing times = true ->
  (forall e, In e times -> str_leb (fst e) now = false) ->
  bisection times now
  = match last times with Some e => Ok (snd e) | None => Raise IndexError end /\
  brute_force times now = false.
Proof.
  intros Hinc Hbefore.
  assert (Hnot : forall flag, ~ In (now, flag) times).
  { intros flag Hin. apply Hbefore in Hin. cbn [fst] in Hin.
    rewrite str_leb_refl in Hin. discriminate. }
  split.
  - rewrite (bisection_unlisted times now Hinc Hnot).
    rewrite (filter_after times now Hbefore). reflexivity.
  - rewrite (brute_force_is_state times now Hinc). unfold state_at.
    rewrite (filter_after times now Hbefore). reflexivity.
Qed.

Lemma bisection_wraps_around_witness :
  increasing (tl times) = true /\
  (forall e, In e (tl times) -> str_leb (fst e) (py "04:30") = false) /\
  bisection (tl times) (py "04:30")
  = match last (tl times) with Some e => Ok (snd e) | None => Raise IndexError end /\
  brute_force (tl times) (py "04:30") = false.
Proof.
  assert (H1 : increasing (tl times) = true) by reflexivity.
  assert (H2 : forall e, In e (tl times) -> str_leb (fst e) (py "04:30") = false).
  { intros e H. simpl in H. destruct H as [H|[H|[H|[H|H]]]]; subst; try reflexivity.
    destruct H. }
  exact (conj H1 (conj H2 (bisection_wraps_around _ _ H1 H2))).
Defined.

(** X15: on the data of the notebook the bisection answers every question
    that the brute force loop answers, except at the five listed times,
    where it raises [TypeError]. *)
Theorem bisection_on_times (now : str) :
  bisection times now
  = if existsb (fun e => bool_decide (fst e = now)) times
    then Raise bool_none
    else Ok (brute_force times now).
Proof.
  assert (Hinc : increasing times = true) by reflexivity.
  destruct (existsb _ times) eqn:E.
  - apply existsb_exists in E as ([time flag] & Hin & He).
    apply bool_decide_eq_true in He. cbn [fst] in He. subst time.
    apply (bisection_listed times now flag Hinc Hin).
  - assert (Hnot : forall flag, ~ In (now, flag) times).
    { intros flag Hin.
      assert (Ht : existsb (fun e => bool_decide (fst e = now)) times = true).
      { apply existsb_exists. exists (now, flag). split; [exact Hin|].
        apply bool_decide_eq_true. reflexivity. }
      congruence. }
    rewrite (bisection_unlisted times now Hinc Hnot).
    rewrite (brute_force_is_state times now Hinc).
    destruct (filter _ times) eqn:Ef; [|reflexivity].
    unfold state_at. rewrite Ef. reflexivity.
Qed.

(** ** The candidates of [urlsafe] *)

Lemma decimal_inj m n : decimal m = decimal n -> m = n.
Proof.
  unfold decimal. intros H.
  apply (f_equal string_of_list_ascii) in H.
  rewrite !string_of_list_ascii_of_string in H.
  apply (f_equal NilEmpty.uint_of_string) in H. rewrite !NilEmpty.usu in H.
  inversion H as [H']. apply (f_equal Nat.of_uint) in H'.
  rewrite !DecimalNat.Unsigned.of_to in H'. exact H'.
Qed.

Lemma decimal_nonempty n : n <> 0 -> decimal n <> [].
Proof.
  intros Hn H. apply Hn. unfold decimal in H.
  apply (f_equal string_of_list_ascii) in H.
  rewrite string_of_list_ascii_of_string in H. cbn [string_of_list_ascii] in H.
  apply (f_equal NilEmpty.uint_of_string) in H. rewrite NilEmpty.usu in H.
  cbn [NilEmpty.uint_of_string] in H. inversion H as [H'].
  apply (f_equal Nat.of_uint) in H'.
  rewrite DecimalNat.Unsigned.of_to in H'. exact H'.
Qed.

Lemma candidate_inj (base replacement : str) (j k : nat) :
  candidate base replacement j = candidate base replacement k -> j = k.
Proof.
  unfold candidate. intros H. apply app_inv_head in H.
  destruct j as [|j], k as [|k]; cbn [Nat.eqb] in H.
  - reflexivity.
  - exfalso. symmetry in H. apply app_eq_nil in H as [_ H].
    exact (decimal_nonempty (S k) (Nat.neq_succ_0 k) H).
  - exfalso. apply app_eq_nil in H as [_ H].
    exact (decimal_nonempty (S j) (Nat.neq_succ_0 j) H).
  - apply app_inv_head in H. apply decimal_inj. exact H.
Qed.

(** Among the first candidates, one more than [collection] has members,
    one is not in [collection]. *)
Lemma candidate_free (base replacement : str) (collection : list str) :
  exists m, m <= length collection /\ candidate base replacement m ∉ collection.
Proof.
  set (cs := candidate base replacement <$> seq 0 (S (length collection))).
  destruct (decide (Forall (fun x => x ∈ collection) cs)) as [Hall|Hnot].
  - exfalso.
    assert (Hnd : NoDup cs).
    { unfold cs. apply NoDup_fmap_2; [|apply NoDup_seq].
      intros j k. apply candidate_inj. }
    assert (Hsub : cs ⊆+ collection).
    { apply NoDup_submseteq; [exact Hnd|]. rewrite Forall_forall in Hall. exact Hall. }
    apply submseteq_length in Hsub. unfold cs in Hsub.
    rewrite length_fmap, length_seq in Hsub. lia.
  - apply not_Forall_Exists in Hnot; [|intros x; apply _].
    apply Exists_exists in Hnot as (x & Hx & Hfree).
    unfold cs in Hx. apply list_elem_of_fmap in Hx as (m & -> & Hm).
    apply elem_of_seq in Hm. exists m. split; [lia|exact Hfree].
Qed.

(** The loop returns the first candidate, from [suffix] on, that is not
    in [collection], when there is one within reach of the fuel. *)
Lemma urlsafe_loop_first (base replacement : str) (collection : list str) :
  forall fuel suffix m,
    suffix <= m <= suffix + fuel -> candidate base replacement m ∉ collection ->
    exists n, suffix <= n <= m /\
      urlsafe_loop fuel base replacement collection suffix
      = Returned (candidate base replacement n) /\
      (candidate base replacement n ∉ collection) /\
      forall j, suffix <= j < n -> candidate base replacement j ∈ collection.
Proof.
  induction fuel as [|fuel IH]; intros suffix m Hm Hfree.
  - assert (m = suffix) by lia. subst m. exists suffix. cbn [urlsafe_loop].
    rewrite bool_decide_false by exact Hfree.
    split; [lia|]. split; [reflexivity|]. split; [exact Hfree|]. intros j Hj. lia.
  - cbn [urlsafe_loop].
    destruct (decide (candidate base replacement suffix ∈ collection)) as [Hin|Hout].
    + rewrite bool_decide_true by exact Hin.
      assert (Hne : m <> suffix) by (intros ->; contradiction).
      destruct (IH (suffix + 1) m) as (n & Hn & Hr & Hf & Hb); [lia|exact Hfree|].
      exists n. split; [lia|]. split; [exact Hr|]. split; [exact Hf|].
      intros j Hj. destruct (Nat.eq_dec j suffix) as [->|Hjs]; [exact Hin|].
      apply Hb. lia.
    + rewrite bool_decide_false by exact Hout. exists suffix.
      split; [lia|]. split; [reflexivity|]. split; [exact Hout|]. intros j Hj. lia.
Qed.

Lemma urlsafe_loop_returns (base replacement : str) (collection : list str) :
  exists n, n <= length collection /\
    urlsafe_loop (length collection) base replacement collection 0
    = Returned (candidate base replacement n) /\
    (candidate base replacement n ∉ collection) /\
    forall j, j < n -> candidate base replacement j ∈ collection.
Proof.
  destruct (candidate_free base replacement collection) as (m & Hm & Hfree).
  destruct (urlsafe_loop_first base replacement collection (length collection) 0 m)
    as (n & Hn & Hr & Hf & Hb); [lia|exact Hfree|].
  exists n. split; [lia|]. split; [exact Hr|]. split; [exact Hf|].
  intros j Hj. apply Hb. lia.
Qed.

(** ** Replacing the runs of unsafe characters *)

Lemma squeeze_in_run sep repl s :
  squeeze sep repl s true = squeeze sep repl (drop_run sep s) false.
Proof.
  induction s as [|c s IH]; [reflexivity|].
  cbn [squeeze drop_run]. destruct (sep c) eqn:E; [exact IH|].
  cbn [squeeze]. rewrite E. reflexivity.
Qed.

Lemma sub_scan_skip r repl n : forall s,
  n <= length s -> sub_scan r repl s n = sub_scan r repl (drop n s) 0.
Proof.
  induction n as [|n IH]; intros s Hn; [reflexivity|].
  destruct s as [|c s]; simpl in Hn; [lia|].
  cbn [sub_scan drop]. apply IH. lia.
Qed.

Lemma match_here_unsafe_run adv l r :
  l <> [] -> forallb unsafe_char l = true -> stops unsafe_char r ->
  Re.match_here unsafe_default adv (l ++ r) = Some ([], length l).
Proof.
  intros Hne Hl Hr. destruct l as [|c l]; [congruence|].
  cbn [forallb] in Hl. apply andb_true_iff in Hl as [Hc Hl].
  unfold Re.match_here, unsafe_default. cbn [Re.rmatch Re.atom Re.one app].
  unfold unsafe_char in Hc. rewrite Hc.
  erewrite star_run; [reflexivity|exact Hl|exact Hr|].
  cbn [length]. rewrite length_app.
  replace (S (length l + length r) - length r) with (S (length l)) by lia.
  cbn [Nat.eqb]. rewrite andb_false_r. reflexivity.
Qed.

Lemma match_here_safe adv c s :
  unsafe_char c = false -> Re.match_here unsafe_default adv (c :: s) = None.
Proof.
  intros Hc. unfold Re.match_here, unsafe_default. cbn [Re.rmatch Re.atom Re.one].
  unfold unsafe_char in Hc. rewrite Hc. reflexivity.
Qed.

Lemma match_here_end adv : Re.match_here unsafe_default adv [] = None.
Proof. reflexivity. Qed.

(** [sub] with the default pattern replaces every run of characters that
    are not word characters. *)
Lemma sub_scan_squeeze repl : forall n s,
  length s <= n ->
  sub_scan unsafe_default repl s 0 = squeeze unsafe_char repl s false.
Proof.
  induction n as [|n IH]; intros s Hn.
  - destruct s; [reflexivity|simpl in Hn; lia].
  - destruct s as [|c s]; [reflexivity|].
    destruct (unsafe_char c) eqn:Ec.
    + pose proof (take_drop_run unsafe_char (c :: s)) as Hs.
      assert (Hne : take_run unsafe_char (c :: s) <> []) by (apply take_run_nonempty; exact Ec).
      pose proof (match_here_unsafe_run false _ _ Hne (take_run_all unsafe_char (c :: s))
                    (drop_run_stops unsafe_char (c :: s))) as Hm.
      rewrite Hs in Hm.
      assert (Hlen : length (take_run unsafe_char (c :: s))
                     = S (length (take_run unsafe_char s))).
      { cbn [take_run]. rewrite Ec. reflexivity. }
      rewrite Hlen in Hm. cbn [sub_scan]. rewrite Hm.
      cbn [squeeze]. rewrite Ec. f_equal.
      rewrite squeeze_in_run.
      assert (Hle : length (take_run unsafe_char s) <= length s).
      { rewrite <- (take_drop_run unsafe_char s) at 2. rewrite length_app. lia. }
      rewrite sub_scan_skip by exact Hle.
      assert (Hd : drop (length (take_run unsafe_char s)) s = drop_run unsafe_char s).
      { rewrite <- (take_drop_run unsafe_char s) at 2. rewrite drop_app_length. reflexivity. }
      rewrite Hd. apply IH.
      pose proof (drop_run_length unsafe_char s). simpl in Hn. lia.
    + cbn [sub_scan]. rewrite (match_here_safe false c s Ec).
      cbn [squeeze]. rewrite Ec. f_equal. apply IH. simpl in Hn. lia.
Qed.

(** ** The words of a name *)

Lemma join_cons sep t w l : join sep (t :: w :: l) = t ++ sep ++ join sep (w :: l).
Proof. reflexivity. Qed.

Lemma squeeze_safe_run sep repl t u :
  forallb (fun c => negb (sep c)) t = true ->
  squeeze sep repl (t ++ u) false = t ++ squeeze sep repl u false.
Proof.
  induction t as [|c t IH]; intros Ht.
  - reflexivity.
  - cbn [forallb] in Ht. apply andb_true_iff in Ht as [Hc Ht]. apply negb_true_iff in Hc.
    cbn [app squeeze]. rewrite Hc. f_equal.
    destruct t as [|d t]; [reflexivity|].
    cbn [forallb] in Ht. apply andb_true_iff in Ht as [Hd Ht']. apply negb_true_iff in Hd.
    apply IH. cbn [forallb]. rewrite Hd. exact Ht'.
Qed.

(** The squeezed text is the words joined by the dash, with a dash in
    front when the text starts with an unsafe character, and dashes
    after. *)
Lemma squeeze_words : forall n s,
  length s <= n ->
  exists post, forallb is_dash post = true /\
    squeeze unsafe_char (py "-") s false
    = (if nonempty (words unsafe_char s) && starts_unsafe s then py "-" else [])
      ++ join (py "-") (words unsafe_char s) ++ post.
Proof.
  induction n as [|n IH]; intros s Hn.
  - destruct s; [|simpl in Hn; lia]. exists []. split; reflexivity.
  - destruct s as [|c s]; [exists []; split; reflexivity|].
    destruct (unsafe_char c) eqn:Ec.
    + cbn [squeeze starts_unsafe]. rewrite Ec, squeeze_in_run.
      rewrite (words_sep unsafe_char c s Ec).
      assert (Hw : words unsafe_char s = words unsafe_char (drop_run unsafe_char s)).
      { rewrite <- (take_drop_run unsafe_char s) at 1.
        apply words_seps, take_run_all. }
      rewrite Hw.
      destruct (IH (drop_run unsafe_char s)) as (post & Hpost & Hsq).
      { pose proof (drop_run_length unsafe_char s). simpl in Hn. lia. }
      rewrite Hsq.
      assert (Hstart : starts_unsafe (drop_run unsafe_char s) = false).
      { pose proof (drop_run_stops unsafe_char s) as Hst.
        destruct (drop_run unsafe_char s); [reflexivity|exact Hst]. }
      rewrite Hstart, andb_false_r. cbn [app].
      destruct (words unsafe_char (drop_run unsafe_char s)) as [|w ws].
      * exists (py "-" ++ post). split; [cbn; exact Hpost|reflexivity].
      * exists post. split; [exact Hpost|reflexivity].
    + pose proof (take_drop_run (fun c => negb (unsafe_char c)) (c :: s)) as Hs.
      set (t := take_run (fun c => negb (unsafe_char c)) (c :: s)) in *.
      set (u := drop_run (fun c => negb (unsafe_char c)) (c :: s)) in *.
      assert (Ht : forallb (fun c => negb (unsafe_char c)) t = true) by apply take_run_all.
      assert (Hne : t <> []).
      { apply take_run_nonempty. rewrite Ec. reflexivity. }
      assert (Hu : stops (fun c => negb (unsafe_char c)) u) by apply drop_run_stops.
      assert (Hlen : length u <= n).
      { assert (length t + length u = length (c :: s)) by (rewrite <- length_app, Hs; reflexivity).
        destruct t; [congruence|]. simpl in *. lia. }
      cbn [starts_unsafe]. rewrite Ec, andb_false_r. cbn [app].
      rewrite <- Hs. rewrite (words_run unsafe_char t u Hne Ht Hu).
      rewrite (squeeze_safe_run unsafe_char (py "-") t u Ht).
      destruct (IH u Hlen) as (post & Hpost & Hsq). rewrite Hsq.
      destruct (words unsafe_char u) as [|w ws] eqn:Ew.
      * exists post. split; [exact Hpost|]. cbn [nonempty andb app join]. reflexivity.
      * exists post. split; [exact Hpost|].
        assert (Hsu : starts_unsafe u = true).
        { destruct u as [|d u']; [discriminate Ew|].
          cbn in Hu. apply negb_false_iff in Hu. exact Hu. }
        rewrite Hsu. cbn [nonempty andb]. rewrite join_cons.
        rewrite <- !app_assoc. reflexivity.
Qed.

Lemma words_safe (s : str) : Forall safe_word (words unsafe_char s).
Proof.
  apply Forall_forall. intros w Hw. unfold words in Hw.
  apply list_elem_of_filter in Hw as [Hne Hw].
  apply list_elem_of_In, break_on_runs_pieces in Hw as [Hsafe _].
  split; [destruct w; [discriminate|congruence]|exact Hsafe].
Qed.

Lemma dash_unsafe c : is_dash c = true -> unsafe_char c = true.
Proof.
  unfold is_dash. cbn [existsb py list_ascii_of_string]. rewrite orb_false_r.
  intros H. apply Ascii.eqb_eq in H. subst c. reflexivity.
Qed.

Lemma safe_not_dash c : unsafe_char c = false -> is_dash c = false.
Proof.
  intros H. destruct (is_dash c) eqn:E; [|reflexivity].
  apply dash_unsafe in E. congruence.
Qed.

Lemma safe_word_head w : safe_word w -> exists c t, w = c :: t /\ unsafe_char c = false.
Proof.
  intros [Hne Hs]. destruct w as [|c t]; [congruence|].
  cbn [forallb] in Hs. apply andb_true_iff in Hs as [Hc _]. apply negb_true_iff in Hc. eauto.
Qed.

Lemma safe_word_last w d : safe_word w -> last w = Some d -> unsafe_char d = false.
Proof.
  intros [_ Hs] Hl. apply last_Some in Hl as [w' ->].
  rewrite forallb_app in Hs. apply andb_true_iff in Hs as [_ Hd].
  cbn [forallb] in Hd. rewrite andb_true_r in Hd. apply negb_true_iff in Hd. exact Hd.
Qed.

Lemma join_stops (ws : list str) :
  Forall safe_word ws -> stops is_dash (join (py "-") ws).
Proof.
  intros Hws. destruct Hws as [|w l Hw _]; [exact I|].
  destruct (safe_word_head w Hw) as (c & t & -> & Hc).
  destruct (join_head "-"%char (c :: t) l) as [r Hr].
  change (py "-") with ["-"%char]. rewrite Hr. cbn. apply safe_not_dash, Hc.
Qed.

Lemma join_last (ws : list str) (d : ascii) :
  Forall safe_word ws -> last (join (py "-") ws) = Some d -> is_dash d = false.
Proof.
  intros Hws. induction Hws as [|w l Hw Hl IH]; [discriminate|].
  destruct l as [|w' l].
  - cbn [join]. intros H. apply safe_not_dash. exact (safe_word_last w d Hw H).
  - rewrite join_cons, !last_app.
    destruct (last (join (py "-") (w' :: l))) as [y|] eqn:E.
    + intros [= ->]. apply IH. reflexivity.
    + exfalso. inversion Hl as [|? ? Hw' _]; subst.
      destruct (safe_word_head w' Hw') as (c & t & -> & _).
      destruct (join_head "-"%char (c :: t) l) as [r Hr].
      change (py "-") with ["-"%char] in E. rewrite Hr in E.
      apply last_None in E. discriminate.
Qed.

Lemma strip_run_id (p : ascii -> bool) (s : str) :
  stops p s -> (forall d, last s = Some d -> p d = false) -> strip_run p s = s.
Proof.
  intros Hs Hl. unfold strip_run. rewrite (drop_run_stops_id p s Hs).
  destruct (last s) as [d|] eqn:E.
  - apply last_Some in E as [s' ->]. rewrite rev_app_distr. cbn [rev app drop_run].
    rewrite (Hl d eq_refl). cbn [rev]. rewrite rev_involutive. reflexivity.
  - apply last_None in E. subst s. reflexivity.
Qed.

Lemma words_join (ws : list str) :
  Forall safe_word ws -> words unsafe_char (join (py "-") ws) = ws.
Proof.
  intros Hws. induction Hws as [|w l Hw Hl IH]; [reflexivity|].
  destruct Hw as [Hne Hs]. destruct l as [|w' l].
  - cbn [join]. rewrite <- (app_nil_r w) at 1.
    rewrite (words_run unsafe_char w [] Hne Hs I). reflexivity.
  - rewrite join_cons.
    rewrite (words_run unsafe_char w _ Hne Hs); [|reflexivity].
    f_equal. change (py "-" ++ join (py "-") (w' :: l))
               with ("-"%char :: join (py "-") (w' :: l)).
    rewrite words_sep by reflexivity. exact IH.
Qed.

Lemma join_chars (ws : list str) (c : ascii) :
  Forall safe_word ws -> In c (join (py "-") ws) -> c = "-"%char \/ unsafe_char c = false.
Proof.
  intros Hws. induction Hws as [|w l Hw Hl IH]; [intros []|].
  assert (Hin : In c w -> unsafe_char c = false).
  { intros Hc. destruct Hw as [_ Hs]. rewrite forallb_forall in Hs.
    apply negb_true_iff, Hs, Hc. }
  destruct l as [|w' l]; [cbn [join]; auto|].
  rewrite join_cons, !in_app_iff. intros [Hc|[Hc|Hc]]; auto.
  destruct Hc as [<-|[]]. auto.
Qed.

(** ** [replace] on the line ends *)

Lemma replace_crlf_nil : replace [cr; lf] [lf] [] = [].
Proof. reflexivity. Qed.

Lemma replace_crlf_pair s : replace [cr; lf] [lf] (cr :: lf :: s) = lf :: replace [cr; lf] [lf] s.
Proof. reflexivity. Qed.

Lemma replace_crlf_other c s :
  startswith [cr; lf] (c :: s) = false ->
  replace [cr; lf] [lf] (c :: s) = c :: replace [cr; lf] [lf] s.
Proof. intros H. unfold replace. cbn [replace_from]. rewrite H. reflexivity. Qed.

Lemma replace_crlf_without (s : str) :
  ~ In cr s -> replace [cr; lf] [lf] s = s.
Proof.
  induction s as [|c s IH]; intros Hn; [reflexivity|].
  rewrite replace_crlf_other.
  - f_equal. apply IH. intros H. apply Hn. right. exact H.
  - cbn [startswith]. destruct (Ascii.eqb_spec cr c) as [<-|_]; [|reflexivity].
    exfalso. apply Hn. left. reflexivity.
Qed.

Lemma replace_crlf_head (s : str) :
  startswith [lf] s = false ->
  startswith [lf] (replace [cr; lf] [lf] s) = startswith [cr; lf] s.
Proof.
  intros Hs. destruct s as [|c s]; [reflexivity|].
  destruct (startswith [cr; lf] (c :: s)) eqn:E.
  - cbn [startswith] in E. apply andb_true_iff in E as [Hc E].
    apply Ascii.eqb_eq in Hc. subst c. destruct s as [|d s]; [discriminate|].
    rewrite andb_true_r in E. apply Ascii.eqb_eq in E. subst d.
    rewrite replace_crlf_pair. reflexivity.
  - rewrite (replace_crlf_other c s E). cbn [startswith] in *.
    rewrite andb_true_r in *. exact Hs.
Qed.

Lemma contains_cons p c s : contains p (c :: s) = startswith p (c :: s) || contains p s.
Proof. reflexivity. Qed.

(** A line end [\r\n] is left in the result exactly where the text had
    [\r\r\n]. *)
Lemma replace_crlf_contains : forall n s,
  length s <= n ->
  contains [cr; lf] (replace [cr; lf] [lf] s) = contains [cr; cr; lf] s.
Proof.
  induction n as [|n IH]; intros s Hn.
  - destruct s; [reflexivity|simpl in Hn; lia].
  - destruct s as [|c s]; [reflexivity|]. simpl in Hn.
    destruct (startswith [cr; lf] (c :: s)) eqn:E.
    + cbn [startswith] in E. apply andb_true_iff in E as [Hc E].
      apply Ascii.eqb_eq in Hc. subst c. destruct s as [|d s]; [discriminate|].
      rewrite andb_true_r in E. apply Ascii.eqb_eq in E. subst d.
      rewrite replace_crlf_pair. rewrite !contains_cons.
      rewrite IH by (simpl in Hn; lia). reflexivity.
    + rewrite (replace_crlf_other c s E). rewrite !contains_cons.
      rewrite IH by lia. f_equal.
      destruct (Ascii.eqb_spec cr c) as [<-|Hc].
      * cbn [startswith]. rewrite Ascii.eqb_refl. cbn [andb].
        assert (Hs : startswith [lf] s = false).
        { cbn [startswith] in E. rewrite Ascii.eqb_refl in E. exact E. }
        pose proof (replace_crlf_head s Hs) as Hh.
        destruct (replace [cr; lf] [lf] s) as [|x r]; destruct s as [|y s'];
          cbn [startswith] in *; rewrite ?andb_true_r in *; try exact Hh; reflexivity.
      * cbn [startswith]. apply Ascii.eqb_neq in Hc. rewrite Hc. reflexivity.
Qed.

(** [base] for the default pattern and the dash: the words of the text,
    joined by dashes. *)
Lemma urlsafe_base_words (value : str) :
  urlsafe_base value (py "-") unsafe_default
  = Returned (join (py "-") (words unsafe_char value)).
Proof.
  unfold urlsafe_base, sub.
  assert (Hb : existsb (Ascii.eqb "\") (py "-") = false) by reflexivity.
  rewrite Hb. f_equal. rewrite (sub_scan_squeeze _ (length value) value (le_n _)).
  destruct (squeeze_words (length value) value (le_n _)) as (post & Hpost & ->).
  unfold strip_chars. change (fun c => existsb (Ascii.eqb c) (py "-")) with is_dash.
  rewrite strip_run_pad; [| |exact Hpost].
  - apply strip_run_id.
    + apply join_stops, words_safe.
    + intros d. apply join_last, words_safe.
  - destruct (_ && _); reflexivity.
Qed.

Lemma urlsafe_loop_empty (base replacement : str) :
  urlsafe_loop 0 base replacement [] 0 = Returned base.
Proof.
  cbn [urlsafe_loop]. rewrite bool_decide_false by apply not_elem_of_nil.
  unfold candidate. cbn [Nat.eqb]. rewrite !app_nil_r. reflexivity.
Qed.

Lemma urlsafe_default_words (nfc : str -> str) (decode : string -> list ascii -> option str)
    (name : str) :
  urlsafe nfc decode (Str name) [] (py "-") unsafe_default
  = Returned (join (py "-") (words unsafe_char (replace [cr; lf] [lf] (nfc name)))).
Proof.
  unfold urlsafe, uninorm. rewrite urlsafe_base_words. apply urlsafe_loop_empty.
Qed.

Lemma urlsafe_returns (nfc : str -> str) (decode : string -> list ascii -> option str)
    (name : str) (collection : list str) (replacement : str) (unsafe : Re.regex) :
  existsb (Ascii.eqb "\") replacement = false ->
  exists base n,
    urlsafe_base (replace [cr; lf] [lf] (nfc name)) replacement unsafe = Returned base /\
    n <= length collection /\
    urlsafe nfc decode (Str name) collection replacement unsafe
    = Returned (candidate base replacement n) /\
    (candidate base replacement n ∉ collection) /\
    forall j, j < n -> candidate base replacement j ∈ collection.
Proof.
  intros Hr. unfold urlsafe, uninorm, urlsafe_base, sub. rewrite Hr.
  eexists. destruct (urlsafe_loop_returns
    (strip_chars replacement (sub_scan unsafe replacement (replace [cr; lf] [lf] (nfc name)) 0))
    replacement collection) as (n & Hn & Hl & Hf & Hb).
  exists n. split; [reflexivity|]. split; [exact Hn|]. split; [exact Hl|].
  split; [exact Hf|exact Hb].
Qed.

(** * Properties of [uninorm] and [urlsafe] *)

(** X16: [uninorm] leaves a line end [\r\n] in its result exactly where the
    normalized text had [\r\r\n]: the replacement of [\r\n] by [\n] is
    done in one pass. *)
Theorem uninorm_line_ends (nfc : str -> str) (decode : string -> list ascii -> option str)
    (value : str) (encoding fallback : string) :
  exists out,
    uninorm nfc decode (Str value) encoding fallback = Returned out /\
    contains [cr; lf] out = contains [cr; cr; lf] (nfc value) /\
    (~ In cr (nfc value) -> out = nfc value).
Proof.
  eexists. split; [reflexivity|]. split.
  - apply (replace_crlf_contains (length (nfc value))). reflexivity.
  - apply replace_crlf_without.
Qed.

(** X17: for a name given as [str] and a replacement without backslash,
    [urlsafe] returns: the loop ends after at most as many increments of
    the suffix as the collection has members, and the result is not in
    the collection. *)
Theorem urlsafe_fresh (nfc : str -> str) (decode : string -> list ascii -> option str)
    (name : str) (collection : list str) (replacement : str) (unsafe : Re.regex) :
  existsb (Ascii.eqb "\") replacement = false ->
  exists result,
    urlsafe nfc decode (Str name) collection replacement unsafe = Returned result /\
    result ∉ collection.
Proof.
  intros Hr.
  destruct (urlsafe_returns nfc decode name collection replacement unsafe Hr)
    as (base & n & _ & _ & Hu & Hf & _).
  exists (candidate base replacement n). split; [exact Hu|exact Hf].
Qed.

Lemma urlsafe_fresh_witness :
  existsb (Ascii.eqb "\") (py "-") = false /\
  exists result,
    urlsafe id (fun _ _ => None) (Str (py "Words")) [py "Words"; py "Words-1"] (py "-")
            unsafe_default = Returned result /\
    result ∉ [py "Words"; py "Words-1"].
Proof.
  assert (H1 : existsb (Ascii.eqb "\") (py "-") = false) by reflexivity.
  exact (conj H1 (urlsafe_fresh id (fun _ _ => None) (py "Words")
                    [py "Words"; py "Words-1"] (py "-") unsafe_default H1)).
Defined.

(** X18: the result of [urlsafe] is a name that the collection does not
    hold: the base itself when the collection does not hold it, and
    otherwise the base followed by the replacement and the least number,
    from 1 on, that makes such a name; the collection holds the base and
    the names made with every smaller number. *)
Theorem urlsafe_first_free (nfc : str -> str) (decode : string -> list ascii -> option str)
    (name : str) (collection : list str) (replacement : str) (unsafe : Re.regex) :
  existsb (Ascii.eqb "\") replacement = false ->
  exists base n,
    urlsafe_base (replace [cr; lf] [lf] (nfc name)) replacement unsafe = Returned base /\
    urlsafe nfc decode (Str name) collection replacement unsafe
    = Returned (if n =? 0 then base else base ++ replacement ++ decimal n) /\
    ((if n =? 0 then base else base ++ replacement ++ decimal n) ∉ collection) /\
    (base ∉ collection <-> n = 0) /\
    forall j, 1 <= j < n -> base ++ replacement ++ decimal j ∈ collection.
Proof.
  intros Hr.
  destruct (urlsafe_returns nfc decode name collection replacement unsafe Hr)
    as (base & n & Hb & _ & Hu & Hf & Hlt).
  assert (H0 : candidate base replacement 0 = base).
  { unfold candidate. cbn [Nat.eqb]. rewrite !app_nil_r. reflexivity. }
  assert (Hc : candidate base replacement n
               = if n =? 0 then base else base ++ replacement ++ decimal n).
  { unfold candidate. destruct (n =? 0); [rewrite !app_nil_r|]; reflexivity. }
  exists base, n. split; [exact Hb|]. split; [|split; [|split]].
  - rewrite Hu, Hc. reflexivity.
  - rewrite <- Hc. exact Hf.
  - split.
    + intros Hfree. destruct n as [|n]; [reflexivity|].
      exfalso. apply Hfree. rewrite <- H0. apply Hlt. lia.
    + intros ->. rewrite <- H0. exact Hf.
  - intros j Hj. specialize (Hlt j (proj2 Hj)). unfold candidate in Hlt.
    destruct j as [|j]; [lia|exact Hlt].
Qed.

Lemma urlsafe_first_free_witness :
  existsb (Ascii.eqb "\") (py "-") = false /\
  exists base n,
    urlsafe_base (replace [cr; lf] [lf] (id (py "Words"))) (py "-") unsafe_default
    = Returned base /\
    urlsafe id (fun _ _ => None) (Str (py "Words")) [py "Words"; py "Words-1"] (py "-")
            unsafe_default
    = Returned (if n =? 0 then base else base ++ py "-" ++ decimal n) /\
    ((if n =? 0 then base else base ++ py "-" ++ decimal n) ∉ [py "Words"; py "Words-1"]) /\
    (base ∉ [py "Words"; py "Words-1"] <-> n = 0) /\
    forall j, 1 <= j < n -> base ++ py "-" ++ decimal j ∈ [py "Words"; py "Words-1"].
Proof.
  assert (H1 : existsb (Ascii.eqb "\") (py "-") = false) by reflexivity.
  exact (conj H1 (urlsafe_first_free id (fun _ _ => None) (py "Words")
                    [py "Words"; py "Words-1"] (py "-") unsafe_default H1)).
Defined.

(** X19: with the default pattern and the default replacement, and no
    collection, the result of [urlsafe] is made of the words of the
    normalized name, in order and joined by single dashes: a word is a
    maximal run of word characters. The result neither starts nor ends
    with a dash. *)
Theorem urlsafe_words (nfc : str -> str) (decode : string -> list ascii -> option str)
    (name : str) :
  exists value slug,
    uninorm nfc decode (Str name) "utf8" "Windows-1252" = Returned value /\
    urlsafe nfc decode (Str name) [] (py "-") unsafe_default = Returned slug /\
    slug = join (py "-") (words unsafe_char value) /\
    Forall safe_word (words unsafe_char value) /\
    head slug <> Some "-"%char /\ last slug <> Some "-"%char.
Proof.
  eexists. eexists. split; [reflexivity|]. split; [apply urlsafe_default_words|].
  split; [reflexivity|]. split; [apply words_safe|].
  set (ws := words unsafe_char (replace [cr; lf] [lf] (nfc name))).
  assert (Hws : Forall safe_word ws) by apply words_safe.
  split.
  - pose proof (join_stops ws Hws) as Hs.
    destruct (join (py "-") ws) as [|c t]; [discriminate|].
    cbn [stops] in Hs. intros [= ->]. discriminate Hs.
  - intros Hl. apply (join_last ws _ Hws) in Hl. discriminate Hl.
Qed.

(** X20: a name that [urlsafe] has made is left as it is by [urlsafe], when
    the normalization leaves it as it is. *)
Theorem urlsafe_idempotent (nfc : str -> str) (decode : string -> list ascii -> option str)
    (name slug : str) :
  urlsafe nfc decode (Str name) [] (py "-") unsafe_default = Returned slug ->
  nfc slug = slug ->
  urlsafe nfc decode (Str slug) [] (py "-") unsafe_default = Returned slug.
Proof.
  rewrite urlsafe_default_words. intros Hslug Hnfc.
  set (ws := words unsafe_char (replace [cr; lf] [lf] (nfc name))) in *.
  assert (Hws : Forall safe_word ws) by apply words_safe.
  assert (Hs : slug = join (py "-") ws) by congruence.
  rewrite urlsafe_default_words, Hnfc. rewrite Hs.
  rewrite (replace_crlf_without (join (py "-") ws)).
  - rewrite (words_join ws Hws). reflexivity.
  - intros Hin. apply (join_chars ws cr Hws) in Hin as [H|H]; discriminate H.
Qed.

Lemma urlsafe_idempotent_witness :
  urlsafe id (fun _ _ => None) (Str (py " Alice Zoe  Bevan-McGregor! ")) [] (py "-")
          unsafe_default
  = Returned (py "Alice-Zoe-Bevan-McGregor") /\
  id (py "Alice-Zoe-Bevan-McGregor") = py "Alice-Zoe-Bevan-McGregor" /\
  urlsafe id (fun _ _ => None) (Str (py "Alice-Zoe-Bevan-McGregor")) [] (py "-")
          unsafe_default
  = Returned (py "Alice-Zoe-Bevan-McGregor").
Proof.
  assert (H1 : urlsafe id (fun _ _ => None) (Str (py " Alice Zoe  Bevan-McGregor! ")) []
                 (py "-") unsafe_default
               = Returned (py "Alice-Zoe-Bevan-McGregor")) by (vm_compute; reflexivity).
  assert (H2 : id (py "Alice-Zoe-Bevan-McGregor") = py "Alice-Zoe-Bevan-McGregor")
    by reflexivity.
  exact (conj H1 (conj H2 (urlsafe_idempotent id (fun _ _ => None) _ _ H1 H2))).
Defined.

Lemma lower_char_idempotent c : lower_char (lower_char c) = lower_char c.
Proof. destruct c as [[] [] [] [] [] [] [] []]; reflexivity. Qed.

Lemma lower_idempotent s : lower (lower s) = lower s.
Proof. unfold lower. rewrite map_map. apply map_ext. intros c. apply lower_char_idempotent. Qed.

Lemma lower_fixed s : (forall c, In c s -> lower_char c = c) -> lower s = s.
Proof.
  induction s as [|c s IH]; intros H; [reflexivity|].
  cbn [lower map]. rewrite (H c) by (left; reflexivity). f_equal.
  apply IH. intros d Hd. apply H. right. exact Hd.
Qed.

Section StripFacts.

Variable p : ascii -> bool.

Lemma drop_run_In c s : In c (drop_run p s) -> In c s.
Proof.
  intros H. rewrite <- (take_drop_run p s). apply in_app_iff. right. exact H.
Qed.

Lemma strip_run_In c s : In c (strip_run p s) -> In c s.
Proof.
  unfold strip_run. intros H. apply in_rev in H. apply drop_run_In in H.
  apply in_rev in H. apply drop_run_In in H. exact H.
Qed.

Lemma drop_run_last s d :
  last (drop_run p s) = Some d -> last s = Some d.
Proof.
  intros H. rewrite <- (take_drop_run p s). rewrite last_app, H. reflexivity.
Qed.

Lemma last_rev_head (s : str) : last (rev s) = head s.
Proof. destruct s as [|c s]; [reflexivity|]. cbn [rev]. apply last_snoc. Qed.

Lemma head_rev_last (s : str) : head (rev s) = last s.
Proof. rewrite <- (rev_involutive s) at 2. symmetry. apply last_rev_head. Qed.

Lemma stops_head s : stops p s <-> forall d, head s = Some d -> p d = false.
Proof.
  destruct s as [|c s]; simpl.
  - split; [intros _ d Hd; discriminate|auto].
  - split; [intros H d [= <-]; exact H|intros H; apply H; reflexivity].
Qed.

(** What [strip] returns has none of the characters at its ends. *)
Lemma strip_run_ends s :
  stops p (strip_run p s) /\ forall d, last (strip_run p s) = Some d -> p d = false.
Proof.
  unfold strip_run. split.
  - apply stops_head. intros d. rewrite head_rev_last. intros Hd.
    apply drop_run_last in Hd. rewrite last_rev_head in Hd.
    exact (proj1 (stops_head _) (drop_run_stops p s) d Hd).
  - intros d. rewrite last_rev_head.
    exact (proj1 (stops_head _) (drop_run_stops p (rev (drop_run p s))) d).
Qed.

Lemma strip_run_idempotent s : strip_run p (strip_run p s) = strip_run p s.
Proof. destruct (strip_run_ends s) as [H1 H2]. apply strip_run_id; assumption. Qed.

End StripFacts.

Lemma tag_normalize_lower s : lower (tag_normalize s) = tag_normalize s.
Proof.
  apply lower_fixed. intros c Hc. unfold tag_normalize, strip_chars in Hc.
  apply strip_run_In in Hc. unfold lower in Hc. apply in_map_iff in Hc as (d & <- & _).
  apply lower_char_idempotent.
Qed.

Lemma tag_normalize_strip s : strip_chars [dquote] (tag_normalize s) = tag_normalize s.
Proof. unfold tag_normalize, strip_chars. apply strip_run_idempotent. Qed.

(** * The tag parser *)

(** X21: the tag parser of the notebook is built without error, and it splits
    every string into a tuple of tags that are in code point order, in
    lower case and without double quotes at their ends. *)
Theorem tag_parser_tags (s : str) :
  init tag_parser_args = Ok tag_parser /\
  exists tags,
    split tag_parser (VStr s) = Ok (Terms (PTuple tags)) /\
    ordered tags /\
    Forall (fun t => lower t = t /\ strip_chars [dquote] t = t) tags.
Proof.
  split; [vm_compute; reflexivity|].
  exists (terms tag_parser s). split; [reflexivity|]. split.
  - apply terms_ordered. reflexivity.
  - apply Forall_forall. intros t Ht. apply list_elem_of_In in Ht.
    unfold terms, prepare in Ht. cbn [tag_parser built self_normalize self_sort self_regex
      tag_parser_args normalize sort] in Ht.
    apply sorted_In, in_map_iff in Ht as (u & <- & _).
    split; [apply tag_normalize_lower|apply tag_normalize_strip].
Qed.

(** The cell of the notebook that parses tags. *)
Example tag_parser_example :
  split tag_parser
    (VStr ([dquote] ++ py "high altitude" ++ [dquote] ++ py " " ++ [dquote]
           ++ py "melting panda" ++ [dquote] ++ py " panda bends"))
  = Ok (Terms (PTuple [py "bends"; py "high altitude"; py "melting panda"; py "panda"])).
Proof. vm_compute. reflexivity. Qed.

Lemma filter_all {A} (P : A -> Prop) `{!forall x, Decision (P x)} (l : list A) :
  Forall P l -> filter P l = l.
Proof.
  induction 1 as [|x l Hx Hl IH]; [reflexivity|].
  rewrite filter_cons, decide_True by exact Hx. f_equal. exact IH.
Qed.

Lemma filter_Forall {A} (P : A -> Prop) `{!forall x, Decision (P x)} (l : list A) :
  Forall P (filter P l).
Proof. apply Forall_forall. intros x Hx. apply list_elem_of_filter in Hx. tauto. Qed.

Lemma split_from_chars (sep : str) : forall s skip x c,
  In x (split_from sep s skip) -> In c x -> In c s.
Proof.
  induction s as [|d s IH]; intros skip x c Hx Hc.
  - destruct Hx as [<-|[]]. destruct Hc.
  - cbn [split_from] in Hx. destruct skip as [|n].
    + destruct (startswith sep (d :: s)).
      * destruct Hx as [<-|Hx]; [destruct Hc|]. right. eapply IH; eassumption.
      * destruct (split_from sep s 0) as [|p ps] eqn:E.
        -- destruct Hx as [<-|[]]. destruct Hc as [<-|[]]. left. reflexivity.
        -- destruct Hx as [<-|Hx].
           ++ destruct Hc as [<-|Hc]; [left; reflexivity|].
              right. apply (IH 0 p c); [rewrite E; left; reflexivity|exact Hc].
           ++ right. apply (IH 0 x c); [rewrite E; right; exact Hx|exact Hc].
    + right. eapply IH; eassumption.
Qed.

Lemma str_split_chars (separator : option str) (s : str) (pieces : list str) :
  str_split separator s = Some pieces ->
  forall x c, In x pieces -> In c x -> In c s.
Proof.
  unfold str_split. destruct separator as [[|d sep]|]; intros [= <-] x c Hx Hc.
  - eapply split_from_chars; eassumption.
  - unfold words in Hx. apply list_elem_of_In, list_elem_of_filter in Hx as [_ Hx].
    apply list_elem_of_In, break_on_runs_pieces in Hx as [_ Hx]. apply Hx, Hc.
Qed.

Lemma str_split_returns (separator : option str) (s : str) :
  separator <> Some [] -> exists pieces, str_split separator s = Some pieces.
Proof.
  intros Hs. unfold str_split. destruct separator as [[|d sep]|]; [congruence|eauto..].
Qed.

Lemma nonblank_blank (pieces : list str) :
  Forall (fun x => forallb Re.isspace x = true) pieces ->
  nonblank (map (strip_run Re.isspace) pieces) = [].
Proof.
  induction 1 as [|x l Hx Hl IH]; [reflexivity|].
  cbn [map]. unfold nonblank. rewrite filter_cons.
  rewrite (strip_run_blank Re.isspace x Hx). rewrite decide_False by discriminate.
  exact IH.
Qed.

Lemma nonblank_fields (pieces : list str) :
  Forall field (nonblank (map (strip_run Re.isspace) pieces)).
Proof.
  apply Forall_forall. intros t Ht. unfold nonblank in Ht.
  apply list_elem_of_filter in Ht as [Hne Ht].
  apply list_elem_of_In, in_map_iff in Ht as (x & <- & _).
  split; [destruct (strip_run Re.isspace x); [discriminate|congruence]|].
  apply strip_run_idempotent.
Qed.

(** Splitting on one character. *)
Lemma split_from_one (c : ascii) (t : str) :
  ~ In c t -> split_from [c] t 0 = [t].
Proof.
  induction t as [|d t IH]; intros Hn; [reflexivity|].
  cbn [split_from startswith].
  destruct (Ascii.eqb_spec c d) as [->|_]; [exfalso; apply Hn; left; reflexivity|].
  cbn [andb]. rewrite IH; [reflexivity|]. intros H. apply Hn. right. exact H.
Qed.

Lemma split_from_cut (c : ascii) (t r : str) :
  ~ In c t -> split_from [c] (t ++ c :: r) 0 = t :: split_from [c] r 0.
Proof.
  induction t as [|d t IH]; intros Hn.
  - cbn [app split_from startswith length Nat.sub]. rewrite Ascii.eqb_refl. reflexivity.
  - cbn [app split_from startswith].
    destruct (Ascii.eqb_spec c d) as [->|_]; [exfalso; apply Hn; left; reflexivity|].
    cbn [andb]. rewrite IH; [reflexivity|]. intros H. apply Hn. right. exact H.
Qed.

Lemma split_join (c : ascii) (l : list str) :
  l <> [] -> Forall (fun t => ~ In c t) l -> split_from [c] (join [c] l) 0 = l.
Proof.
  intros Hne Hl. induction Hl as [|t l Ht Hl IH]; [congruence|].
  destruct l as [|t' l].
  - cbn [join]. apply split_from_one, Ht.
  - change (join [c] (t :: t' :: l)) with (t ++ c :: join [c] (t' :: l)).
    rewrite split_from_cut by exact Ht. f_equal. apply IH. discriminate.
Qed.

Lemma truthy_all (l : list pyvalue) :
  Forall (fun i => truth (PyValue i) = true) l -> truthy l = l.
Proof. apply filter_all. Qed.

Lemma truthy_fields (l : list str) :
  Forall (fun t => t <> []) l -> Forall (fun i => truth (PyValue i) = true) (map VStr l).
Proof.
  intros H. apply Forall_forall. intros i Hi.
  apply list_elem_of_In, in_map_iff in Hi as (t & <- & Ht).
  rewrite Forall_forall in H. apply list_elem_of_In, H in Ht.
  destruct t; [congruence|reflexivity].
Qed.

Lemma nonblank_nonempty (l : list str) : Forall (fun t => t <> []) (nonblank l).
Proof.
  apply Forall_forall. intros t Ht. unfold nonblank in Ht.
  apply list_elem_of_filter in Ht as [Hne _]. destruct t; [discriminate|congruence].
Qed.

(** * Properties of [array] *)

(** X22: a string that is empty or made of white space gives the empty list,
    whatever the separator: [array] returns no empty field. *)
Theorem array_blank (s : str) (separator : option str) :
  forallb Re.isspace s = true -> separator <> Some [] ->
  array (PyValue (VStr s)) separator true false = Array [].
Proof.
  intros Hs Hsep. destruct (str_split_returns separator s Hsep) as [pieces Hp].
  unfold array. rewrite Hp. cbn [negb]. rewrite nonblank_blank; [reflexivity|].
  apply Forall_forall. intros x Hx. apply forallb_forall. intros c Hc.
  rewrite forallb_forall in Hs. apply Hs.
  apply (str_split_chars separator s pieces Hp x c); [apply list_elem_of_In; exact Hx|exact Hc].
Qed.

Lemma array_blank_witness :
  forallb Re.isspace (py "   ") = true /\ Some (py ",") <> Some [] /\
  array (PyValue (VStr (py "   "))) (Some (py ",")) true false = Array [].
Proof.
  assert (H1 : forallb Re.isspace (py "   ") = true) by reflexivity.
  assert (H2 : Some (py ",") <> Some []) by discriminate.
  exact (conj H1 (conj H2 (array_blank _ _ H1 H2))).
Defined.

(** X23: with [strip] and without [empty], the default, [array] turns a string
    into a list of fields: strings that are not empty and have no white
    space at their ends. *)
Theorem array_fields (s : str) (separator : option str) :
  separator <> Some [] ->
  exists fields,
    array (PyValue (VStr s)) separator true false = Array (map VStr fields) /\
    Forall field fields.
Proof.
  intros Hsep. destruct (str_split_returns separator s Hsep) as [pieces Hp].
  exists (nonblank (map (strip_run Re.isspace) pieces)). split.
  - unfold array. rewrite Hp. reflexivity.
  - apply nonblank_fields.
Qed.

Lemma array_fields_witness :
  Some (py ",") <> Some [] /\
  exists fields,
    array (PyValue (VStr (py "foo,bar, baz   , diz"))) (Some (py ",")) true false
    = Array (map VStr fields) /\
    Forall field fields.
Proof.
  assert (H1 : Some (py ",") <> Some []) by discriminate.
  exact (conj H1 (array_fields (py "foo,bar, baz   , diz") _ H1)).
Defined.

(** X24: round trip: fields that do not contain the separator character,
    joined by it, are given back by [array]. *)
Theorem array_join (c : ascii) (fields : list str) :
  Forall field fields -> Forall (fun t => ~ In c t) fields ->
  array (PyValue (VStr (join [c] fields))) (Some [c]) true false
  = Array (map VStr fields).
Proof.
  intros Hf Hc. unfold array, str_split. cbn [negb]. f_equal. f_equal.
  assert (Hstrip : map (strip_run Re.isspace) fields = fields).
  { rewrite <- (map_id fields) at 2. apply map_ext_in. intros t Ht.
    rewrite Forall_forall in Hf. apply list_elem_of_In, Hf in Ht. apply Ht. }
  assert (Hnb : nonblank fields = fields).
  { apply filter_all. apply Forall_forall. intros t Ht.
    rewrite Forall_forall in Hf. apply Hf in Ht as [Hne _].
    destruct t; [congruence|reflexivity]. }
  destruct fields as [|t l]; [reflexivity|].
  rewrite split_join by (discriminate || exact Hc).
  rewrite Hstrip. exact Hnb.
Qed.

Lemma array_join_witness :
  Forall field [py "foo"; py "bar baz"] /\
  Forall (fun t => ~ In ","%char t) [py "foo"; py "bar baz"] /\
  array (PyValue (VStr (join [","%char] [py "foo"; py "bar baz"]))) (Some [","%char])
        true false
  = Array (map VStr [py "foo"; py "bar baz"]).
Proof.
  assert (H1 : Forall field [py "foo"; py "bar baz"]).
  { repeat constructor; discriminate. }
  assert (H2 : Forall (fun t => ~ In ","%char t) [py "foo"; py "bar baz"]).
  { repeat constructor; simpl; intros H;
      repeat (destruct H as [H|H]; [discriminate H|]); exact H. }
  exact (conj H1 (conj H2 (array_join _ _ H1 H2))).
Defined.

(** X25: without [empty], [array] is idempotent: the list it returns holds
    no falsy element, and [array] returns it as it is. *)
Theorem array_idempotent (input : pyobject) (separator separator' : option str)
    (strip strip' : bool) (l : list pyvalue) :
  array input separator strip false = Array l ->
  Forall (fun i => truth (PyValue i) = true) l /\
  array (PyList l) separator' strip' false = Array l.
Proof.
  intros H.
  assert (Hl : Forall (fun i => truth (PyValue i) = true) l).
  { unfold array in H. cbn [negb] in H. destruct input as [[s|b|n|b|]|l0].
    - destruct (str_split separator s) as [pieces|]; [|discriminate].
      destruct strip; cbn [negb] in H; inversion H; subst;
        apply truthy_fields, nonblank_nonempty.
    - cbn [list_of] in H. inversion H; subst. apply filter_Forall.
    - discriminate.
    - discriminate.
    - inversion H; subst. constructor.
    - inversion H; subst. apply filter_Forall. }
  split; [exact Hl|]. unfold array. cbn [negb]. rewrite truthy_all by exact Hl. reflexivity.
Qed.

Lemma array_idempotent_witness :
  array (PyList [VInt 1; VStr []; VInt 0; VInt 5]) (Some (py ",")) true false
  = Array [VInt 1; VInt 5] /\
  Forall (fun i => truth (PyValue i) = true) [VInt 1; VInt 5] /\
  array (PyList [VInt 1; VInt 5]) None false false = Array [VInt 1; VInt 5].
Proof.
  assert (H1 : array (PyList [VInt 1; VStr []; VInt 0; VInt 5]) (Some (py ",")) true false
               = Array [VInt 1; VInt 5]) by reflexivity.
  exact (conj H1 (array_idempotent _ _ None _ false _ H1)).
Defined.

Lemma uint_digits (u : Decimal.uint) :
  forallb is_digit (list_ascii_of_string (NilEmpty.string_of_uint u)) = true.
Proof. induction u; cbn; auto. Qed.

Lemma uint_nonempty (u : Decimal.uint) :
  u <> Decimal.Nil -> list_ascii_of_string (NilEmpty.string_of_uint u) <> [].
Proof. destruct u; cbn; congruence. Qed.

Lemma digits_of_digits (s : str) : forall last,
  s <> [] -> forallb is_digit s = true -> digits_of s last = Some s.
Proof.
  induction s as [|c s IH]; intros last Hne Hd; [congruence|].
  cbn [forallb] in Hd. apply andb_true_iff in Hd as [Hc Hd].
  cbn [digits_of]. rewrite Hc. destruct s as [|d s]; [reflexivity|].
  rewrite IH by (discriminate || exact Hd). reflexivity.
Qed.

Lemma string_of_uint_to_uint (p : positive) :
  NilZero.string_of_uint (Pos.to_uint p) = NilEmpty.string_of_uint (Pos.to_uint p).
Proof.
  pose proof (DecimalPos.Unsigned.to_uint_nonnil p) as H.
  destruct (Pos.to_uint p); [congruence|reflexivity..].
Qed.

Lemma digits_pos (p : positive) :
  digits (Z.pos p)
  = length (list_ascii_of_string (NilEmpty.string_of_uint (Pos.to_uint p))).
Proof.
  unfold digits, str_of_int. rewrite <- string_of_uint_to_uint. reflexivity.
Qed.

Lemma magnitude_uint (max_str_digits : nat) (p : positive) :
  magnitude max_str_digits (list_ascii_of_string (NilEmpty.string_of_uint (Pos.to_uint p)))
  = if exceeds max_str_digits (digits (Z.pos p)) then None else Some (Z.pos p).
Proof.
  unfold magnitude. rewrite digits_pos.
  rewrite digits_of_digits
    by (apply uint_nonempty, DecimalPos.Unsigned.to_uint_nonnil || apply uint_digits).
  destruct (exceeds max_str_digits _); [reflexivity|].
  rewrite string_of_list_ascii_of_string, NilEmpty.usu.
  unfold N.of_uint. rewrite DecimalPos.Unsigned.of_to. reflexivity.
Qed.

Lemma digit_not_space c : is_digit c = true -> int_space c = false.
Proof. destruct c as [[] [] [] [] [] [] [] []]; vm_compute; congruence. Qed.

Lemma digit_not_sign c :
  is_digit c = true -> Ascii.eqb c "-" = false /\ Ascii.eqb c "+" = false.
Proof.
  destruct c as [[] [] [] [] [] [] [] []]; vm_compute; intros H; split; congruence.
Qed.

Lemma strip_run_none (p : ascii -> bool) (s : str) :
  forallb (fun c => negb (p c)) s = true -> strip_run p s = s.
Proof.
  intros H. apply strip_run_id.
  - destruct s as [|c s]; [exact I|]. cbn in *. apply andb_true_iff in H as [Hc _].
    apply negb_true_iff in Hc. exact Hc.
  - intros d Hd. apply last_Some in Hd as [s' ->].
    rewrite forallb_app in H. apply andb_true_iff in H as [_ H].
    cbn in H. rewrite andb_true_r in H. apply negb_true_iff in H. exact H.
Qed.

Lemma int_of_text_str (max_str_digits : nat) (n : Z) :
  int_of_text max_str_digits int_space (str_of_int n)
  = if exceeds max_str_digits (digits n) then None else Some n.
Proof.
  unfold int_of_text. destruct n as [|p|p].
  - unfold exceeds. destruct max_str_digits as [|[|k]]; reflexivity.
  - unfold str_of_int at 1. cbn [Z.to_int NilZero.string_of_int].
    rewrite string_of_uint_to_uint.
    set (ds := list_ascii_of_string (NilEmpty.string_of_uint (Pos.to_uint p))).
    assert (Hd : forallb is_digit ds = true) by apply uint_digits.
    assert (Hne : ds <> []) by apply uint_nonempty, DecimalPos.Unsigned.to_uint_nonnil.
    rewrite strip_run_none.
    + destruct ds as [|c ds'] eqn:E; [congruence|].
      cbn [forallb] in Hd. apply andb_true_iff in Hd as [Hc _].
      destruct (digit_not_sign c Hc) as [-> ->].
      rewrite <- E. unfold ds. apply magnitude_uint.
    + rewrite forallb_forall in *. intros c Hc. rewrite digit_not_space; auto.
  - unfold str_of_int at 1. cbn [Z.to_int NilZero.string_of_int list_ascii_of_string].
    rewrite string_of_uint_to_uint.
    set (ds := list_ascii_of_string (NilEmpty.string_of_uint (Pos.to_uint p))).
    assert (Hd : forallb is_digit ds = true) by apply uint_digits.
    rewrite strip_run_none.
    + rewrite Ascii.eqb_refl. unfold ds. rewrite magnitude_uint.
      change (digits (Z.neg p)) with (digits (Z.pos p)).
      destruct (exceeds max_str_digits _); reflexivity.
    + cbn [forallb]. apply andb_true_iff. split; [reflexivity|].
      rewrite forallb_forall in *. intros c Hc. rewrite digit_not_space; auto.
Qed.

(** * Properties of [integer] *)

(** X26: [integer] and the decimal text of an integer, with white space
    around it or without. When the integer has no more digits than the
    interpreter allows in a conversion (or the limit is lifted), [str]
    gives the text and [integer] reads the integer back from it. When it
    has more, [str] raises, and [integer] refuses the text: it raises its
    own [ValueError], about its input. *)
Theorem integer_str (max_str_digits : nat) (n : Z) (l r : str) :
  forallb int_space l = true -> forallb int_space r = true ->
  (exceeds max_str_digits (digits n) = false ->
   py_str max_str_digits n = Some (str_of_int n) /\
   integer max_str_digits (PyValue (VStr (l ++ str_of_int n ++ r))) = Int n) /\
  (exceeds max_str_digits (digits n) = true ->
   py_str max_str_digits n = None /\
   integer max_str_digits (PyValue (VStr (l ++ str_of_int n ++ r)))
   = NotInteger (PyValue (VStr (l ++ str_of_int n ++ r)))).
Proof.
  intros Hl Hr.
  assert (H : py_int max_str_digits (PyValue (VStr (l ++ str_of_int n ++ r)))
              = if exceeds max_str_digits (digits n) then None else Some n).
  { unfold py_int, int_of_text. rewrite strip_run_pad by assumption.
    exact (int_of_text_str max_str_digits n). }
  unfold integer, py_str. rewrite H.
  split; intros ->; split; reflexivity.
Qed.

Lemma integer_str_witness :
  forallb int_space (py " ") = true /\ forallb int_space [tab] = true /\
  exceeds 4300 (digits (-42)) = false /\
  py_str 4300 (-42) = Some (str_of_int (-42)) /\
  integer 4300 (PyValue (VStr (py " " ++ str_of_int (-42) ++ [tab]))) = Int (-42).
Proof.
  assert (H1 : forallb int_space (py " ") = true) by reflexivity.
  assert (H2 : forallb int_space [tab] = true) by reflexivity.
  assert (H3 : exceeds 4300 (digits (-42)) = false) by reflexivity.
  exact (conj H1 (conj H2 (conj H3 (proj1 (integer_str 4300 (-42) _ _ H1 H2) H3)))).
Defined.

(** The text of 10^4300 has 4301 digits: with the default limit it is
    refused, and read when the limit is lifted. *)
Example integer_limit_example :
  integer 4300 (PyValue (VStr ("1"%char :: repeat "0"%char 4300)))
  = NotInteger (PyValue (VStr ("1"%char :: repeat "0"%char 4300))) /\
  integer 0 (PyValue (VStr ("1"%char :: repeat "0"%char 4300))) = Int (10 ^ 4300).
Proof. split; vm_compute; reflexivity. Qed.
